(** * SortXML: a shallow embedding of [SortXML.py]

    The program normalises a configuration XML file: it parses the file into
    a tree of dictionaries, lists and strings ([xml_to_dict]), reorders every
    dictionary ([sort_dict]), turns the tree back into elements
    ([dict_to_xml]), pretty-prints them ([prettify]) and finally patches the
    printed text with regular expressions so that CDATA payloads come back
    ([process_xml_file]).

    Python values are modelled as follows.
    - [str] is [string]: the UTF-8 bytes of the text.  Comparing two such
      strings byte by byte ([String.compare]) is comparing the Python strings
      code point by code point.
    - a [dict] is an association list in insertion order with distinct keys;
      a [list] is a [list]; [None] is [None].
    - a computation that may raise returns a [res]; one that also reads and
      writes files is an [io], a function of the files.
    - the libraries ([re], [xml.etree.ElementTree], [xml.dom.minidom]) are
      modelled on the inputs described at the head of their modules; outside
      them a model answers [Beyond] and no property is stated. *)

From Stdlib Require Import Strings.String Strings.Ascii Structures.OrdersEx.
From stdpp Require Import base option list sorting strings gmap.



(** ** Python [str] methods *)

Module Str.

Definition is_upper (c : ascii) : bool :=
  let n := nat_of_ascii c in (65 <=? n) && (n <=? 90).

(** [str.lower] on the ASCII letters. *)
Definition lower_char (c : ascii) : ascii :=
  if is_upper c then ascii_of_nat (nat_of_ascii c + 32) else c.

Fixpoint lower (s : string) : string :=
  match s with
  | EmptyString => EmptyString
  | String c s' => String (lower_char c) (lower s')
  end.

(** [str.isspace] on one ASCII character: tab, newline, vertical tab,
    form feed, carriage return, the separators 28..31 and the space. *)
Definition is_space (c : ascii) : bool :=
  let n := nat_of_ascii c in
  ((9 <=? n) && (n <=? 13)) || ((28 <=? n) && (n <=? 32)).

Fixpoint lstrip (s : string) : string :=
  match s with
  | String c s' => if is_space c then lstrip s' else s
  | EmptyString => EmptyString
  end.

(** [rstrip] keeps a character when something that is not a space follows
    it or when it is not a space itself. *)
Fixpoint rstrip (s : string) : string :=
  match s with
  | EmptyString => EmptyString
  | String c s' =>
      match rstrip s' with
      | EmptyString => if is_space c then EmptyString else String c EmptyString
      | r => String c r
      end
  end.

Definition strip (s : string) : string := rstrip (lstrip s).

(** [s.startswith(p)] *)
Fixpoint startswith (s p : string) : bool :=
  match p, s with
  | EmptyString, _ => true
  | String a p', String b s' => if Ascii.eqb a b then startswith s' p' else false
  | String _ _, EmptyString => false
  end.

(** When [p] is a prefix of [s], what follows it. *)
Fixpoint drop_prefix (s p : string) : option string :=
  match p, s with
  | EmptyString, _ => Some s
  | String a p', String b s' => if Ascii.eqb a b then drop_prefix s' p' else None
  | String _ _, EmptyString => None
  end.

(** [sub in s] *)
Fixpoint contains (s sub : string) : bool :=
  startswith s sub ||
  match s with
  | EmptyString => false
  | String _ s' => contains s' sub
  end.

(** [s.split(sep)] for a separator of one character. *)
Fixpoint split_char (sep : ascii) (s : string) : list string :=
  match s with
  | EmptyString => [EmptyString]
  | String c s' =>
      if Ascii.eqb c sep then EmptyString :: split_char sep s'
      else match split_char sep s' with
           | w :: ws => String c w :: ws
           | [] => [String c EmptyString]
           end
  end.

(** [s.split()]: the maximal runs of characters that are not spaces. *)
Fixpoint split_ws_aux (cur : option string) (s : string) : list string :=
  match s with
  | EmptyString => match cur with Some w => [w] | None => [] end
  | String c s' =>
      if is_space c
      then match cur with
           | Some w => w :: split_ws_aux None s'
           | None => split_ws_aux None s'
           end
      else split_ws_aux
             (Some (match cur with Some w => w +:+ String c EmptyString
                               | None => String c EmptyString end)) s'
  end.
Definition split_ws (s : string) : list string := split_ws_aux None s.

(** [s.split(sep, 1)] for a separator of one character: the text before the
    first [sep] and, when there is one, the text after it. *)
Fixpoint split_once (sep : ascii) (s : string) : string * option string :=
  match s with
  | EmptyString => (EmptyString, None)
  | String c s' =>
      if Ascii.eqb c sep then (EmptyString, Some s')
      else let '(a, b) := split_once sep s' in (String c a, b)
  end.

(** [s.replace(old, new)] for a non-empty [old]: the occurrences are taken
    from the left and do not overlap.  The fuel counts the characters still
    to be skipped after a replaced occurrence. *)
Fixpoint replace_aux (old new : string) (skip : nat) (s : string) : string :=
  match s with
  | EmptyString => EmptyString
  | String c s' =>
      match skip with
      | S k => replace_aux old new k s'
      | O =>
          if startswith s old
          then new +:+ replace_aux old new (String.length old - 1) s'
          else String c (replace_aux old new 0 s')
      end
  end.
Definition replace (s old new : string) : string := replace_aux old new 0 s.

(** [sep.join(l)] with the empty separator. *)
Definition concat (l : list string) : string := String.concat EmptyString l.

End Str.

(** ** Results of a computation without files

    Parsing, matching and string handling return, raise, or leave the part
    of Python and of its libraries that this development models ([Beyond]):
    a model that answers [Beyond] says nothing about the program on that
    input. *)

Inductive error :=
| ParseError              (* xml.etree.ElementTree.ParseError *)
| IndexError.             (* [][0] *)

Inductive res (A : Type) :=
| Ok (a : A)
| Raise (e : error)
| Beyond.
Arguments Ok {A} a.
Arguments Raise {A} e.
Arguments Beyond {A}.

Definition res_bind {A B} (m : res A) (f : A → res B) : res B :=
  match m with
  | Ok a => f a
  | Raise e => Raise e
  | Beyond => Beyond
  end.

Declare Scope res_scope.
Delimit Scope res_scope with res.
Notation "x ←r m ; k" := (res_bind m (fun x => k))
  (at level 20, m at level 100, k at level 200, right associativity,
   format "x  ←r  m ;  '/' k") : res_scope.
Notation "' p ←r m ; k" := (res_bind m (fun x => let 'p := x in k))
  (at level 20, p pattern, m at level 100, k at level 200,
   right associativity) : res_scope.
Local Open Scope res_scope.

(** [for x in l: ...] threading an accumulator through a body that may raise. *)
Fixpoint for_each {A S} (l : list A) (body : S → A → res S) (s : S) : res S :=
  match l with
  | [] => Ok s
  | x :: l' => s' ←r body s x; for_each l' body s'
  end.

(** A list comprehension whose expression may raise. *)
Fixpoint res_mapM {A B} (f : A → res B) (l : list A) : res (list B) :=
  match l with
  | [] => Ok []
  | x :: l' => y ←r f x; ys ←r res_mapM f l'; Ok (y :: ys)
  end.

(** ** Dictionaries in insertion order *)

Section dict.
Context {V : Type}.

Fixpoint dict_get (k : string) (d : list (string * V)) : option V :=
  match d with
  | [] => None
  | (k', v) :: d' => if String.eqb k k' then Some v else dict_get k d'
  end.

(** [d[k] = v]: an existing key keeps its place, a new key goes last. *)
Fixpoint dict_set (k : string) (v : V) (d : list (string * V)) : list (string * V) :=
  match d with
  | [] => [(k, v)]
  | (k', v') :: d' =>
      if String.eqb k k' then (k, v) :: d' else (k', v') :: dict_set k v d'
  end.

(** [OrderedDict(items)] and [dict(items)] *)
Definition OrderedDict (items : list (string * V)) : list (string * V) :=
  fold_left (fun d kv => dict_set kv.1 kv.2 d) items [].

Definition keys (d : list (string * V)) : list string := d.*1.
End dict.

(** ** The element tree and the dictionary tree *)

(** An [xml.etree.ElementTree.Element]. *)
#[warnings="-register-all"] Inductive Element := Elem {
  tag : string;
  attrib : list (string * string);
  text : option string;
  children : list Element;
  tail : option string
}.

(** What [xml_to_dict] builds and [sort_dict] reorders: a [str], a [list]
    or a [dict]. *)
#[warnings="-register-all"] Inductive Node :=
| Leaf (s : string)
| Sequence (l : list Node)
| Mapping (kvs : list (string * Node)).

(** [tag.split('}')[-1]] *)
Definition strip_namespace (t : string) : string :=
  List.last (Str.split_char "}" t) EmptyString.

Definition add_child (result : list (string * Node)) (tag : string) (value : Node)
  : list (string * Node) :=
  match dict_get tag result with
  | Some (Sequence l) => dict_set tag (Sequence (l ++ [value])) result
  | Some v => dict_set tag (Sequence [v; value]) result
  | None => dict_set tag value result
  end.

Fixpoint xml_to_dict (element : Element) : Node :=
  match element with
  | Elem _ _ text children _ =>
      match children with
      | [] => Leaf (match text with
                    | Some t => if String.eqb t EmptyString then EmptyString else Str.strip t
                    | None => EmptyString
                    end)
      | _ =>
          Mapping (fold_left
                     (fun result child =>
                        add_child result (strip_namespace (tag child)) (xml_to_dict child))
                     children [])
      end
  end.

(** ** The priority tables of the program *)

Definition priority_keywords : list string :=
  ["id"; "keyname"; "name"; "cfgname"; "cfgName"; "startup_params"; "partition";
   "mapName"; "serverName"; "realm_name"; "interface_id"; "vendorId"].

Definition element_priority_keywords_map : list (string * list string) :=
  [("BdmObject", ["name"; "id"]);
   ("OvldComponent", ["id"; "name"]);
   ("OvldDropAction", ["type"]);
   ("counterPeer", ["appType"]);
   ("TransRouting", ["profileName"]);
   ("ccsSettings", ["app_type"]);
   ("domainBasedRealmSetting", ["homeDomain"]);
   ("perfMonObjectDef", ["type"]);
   ("LiXpErr2CauseCodeConfig", ["error_code"]);
   ("LiXpTemplateConfig", ["service_name"])].

(** ** [sorted(items, key=...)]

    Python's [sorted] is stable and compares keys with [<] only.  The stable
    sorted arrangement of a list is unique, so inserting the items one by one
    from the right, each in front of the first item that is not smaller,
    computes it. *)

Section sorted.
Context {A K : Type} (key : A → K) (lt : K → K → bool).

Fixpoint insert_item (x : A) (l : list A) : list A :=
  match l with
  | [] => [x]
  | y :: l' => if lt (key y) (key x) then y :: insert_item x l' else x :: y :: l'
  end.

Definition sorted (l : list A) : list A := foldr insert_item [] l.
End sorted.

(** The keys [priority_key_func] returns: the tuples [(0, i)] and
    [(1, key_lower)].  Python orders tuples lexicographically. *)
Inductive sort_key :=
| Prio (i : nat)
| Alpha (key_lower : string).

Definition sort_key_lt (a b : sort_key) : bool :=
  match a, b with
  | Prio i, Prio j => i <? j
  | Prio _, Alpha _ => true
  | Alpha _, Prio _ => false
  | Alpha s, Alpha t => String.ltb s t
  end.

(** ** The priority sorter

    [sort_dict] reads the two module-level tables.  They are parameters of the
    section, together with [str.lower], so that the properties below hold for
    every table; [process_xml_file] uses the tables of the program. *)

Section sorter.
Variable lower : string → string.
Variable global_keywords : list string.
Variable per_tag_keywords : list (string * list string).

(** [for i, p_key in enumerate(l): if key_lower == p_key.lower(): return (0, i)] *)
Fixpoint first_match (key_lower : string) (i : nat) (l : list string) : option nat :=
  match l with
  | [] => None
  | p_key :: l' =>
      if String.eqb key_lower (lower p_key) then Some i
      else first_match key_lower (S i) l'
  end.

(** The list the tests of [priority_key_func] select:
    [parent_tag and parent_tag in element_priority_keywords_map]. *)
Definition resolved_keywords (parent_tag : option string) : list string :=
  match parent_tag with
  | Some t =>
      if String.eqb t EmptyString then global_keywords
      else match dict_get t per_tag_keywords with
           | Some specific_priority_keywords => specific_priority_keywords
           | None => global_keywords
           end
  | None => global_keywords
  end.

Definition priority_key_func (parent_tag : option string) (item : string * Node)
  : sort_key :=
  let key_lower := lower item.1 in
  match first_match key_lower 0 (resolved_keywords parent_tag) with
  | Some i => Prio i
  | None => Alpha key_lower
  end.

Fixpoint sort_dict (d : Node) (parent_tag : option string) : Node :=
  match d with
  | Mapping kvs =>
      let items := map (fun kv => (kv.1, sort_dict kv.2 (Some kv.1))) kvs in
      let items := sorted (fun x => lower x.1) String.ltb items in
      Mapping (OrderedDict (sorted (priority_key_func parent_tag) sort_key_lt items))
  | Sequence l => Sequence (map (fun i => sort_dict i parent_tag) l)
  | Leaf _ => d
  end.
End sorter.

(** ** Back to elements *)

(** [if namespace:] holds for a dictionary that is not empty. *)
Definition namespace_attrib (namespace : option (list (string * string)))
  : list (string * string) :=
  match namespace with
  | Some (a :: ns) => a :: ns
  | _ => []
  end.

(** [dict_to_xml]: [str(d)] is [d] for a string; for a list it is the
    [repr] of the list, which is not modelled. *)
Fixpoint dict_to_xml (tag : string) (d : Node)
    (namespace : option (list (string * string))) : res Element :=
  match d with
  | Mapping kvs =>
      cs ←r res_mapM
              (fun kv =>
                 match kv.2 with
                 | Sequence l => res_mapM (fun item => dict_to_xml kv.1 item None) l
                 | _ => child ←r dict_to_xml kv.1 kv.2 None; Ok [child]
                 end) kvs;
      Ok (Elem tag (namespace_attrib namespace) None (concat cs) None)
  | Leaf s => Ok (Elem tag (namespace_attrib namespace) (Some s) [] None)
  | Sequence _ => Beyond
  end.

(** * Regular expressions

    The part of Python's [re] module the program relies on: patterns made of
    characters, [.], the classes [\s] and [\S], bracketed sets, capturing
    groups, alternation, back-references, and the repetitions [*], [+], [*?]
    and [+?] of a one-character item.  The matcher is the backtracking matcher
    of [re]: alternatives are tried from the left, a greedy repetition tries
    the longest run first and a lazy one the shortest, and the first way that
    lets the rest of the pattern match is the match.  A pattern outside this
    part is answered by [None]. *)

Module Re.

Inductive set_item :=
| SChar (c : ascii)
| SSpace (negated : bool).          (* \s or \S inside a set *)

Inductive atom :=
| Lit (c : ascii)
| Dot
| Space (negated : bool)            (* \s or \S *)
| Set_ (negated : bool) (items : list set_item).

Inductive regex :=
| Empty
| One (a : atom)
| Repeat (a : atom) (min : nat) (greedy : bool)
| Cat (r1 r2 : regex)
| Or (r1 r2 : regex)
| Group (n : nat) (r : regex)
| Backref (n : nat).

Definition newline : ascii := "010"%char.

Definition set_item_matches (i : set_item) (c : ascii) : bool :=
  match i with
  | SChar c' => Ascii.eqb c c'
  | SSpace negated => xorb negated (Str.is_space c)
  end.

Definition atom_matches (dotall : bool) (a : atom) (c : ascii) : bool :=
  match a with
  | Lit c' => Ascii.eqb c c'
  | Dot => dotall || negb (Ascii.eqb c newline)
  | Space negated => xorb negated (Str.is_space c)
  | Set_ negated items => xorb negated (existsb (fun i => set_item_matches i c) items)
  end.

(** The groups that took part in a match so far: number, start and text;
    the latest capture of a group comes first. *)
Definition captures := list (nat * (nat * string)).

Fixpoint capture (n : nat) (caps : captures) : option (nat * string) :=
  match caps with
  | [] => None
  | (m, c) :: caps' => if n =? m then Some c else capture n caps'
  end.

(** The first [n] characters of [s]. *)
Fixpoint take (n : nat) (s : string) : string :=
  match n, s with
  | S n', String c s' => String c (take n' s')
  | _, _ => EmptyString
  end.

Fixpoint drop (n : nat) (s : string) : string :=
  match n, s with
  | S n', String _ s' => drop n' s'
  | _, _ => s
  end.

Section matcher.
Context {R : Type}.
Variable dotall : bool.

(** What is still to be matched, given the position reached, the text
    left and the groups captured. *)
Definition cont := nat → string → captures → option R.

Definition or_else (a b : option R) : option R :=
  match a with Some _ => a | None => b end.

(** [min] or more characters matching [a], then [k]. *)
Fixpoint repeat (a : atom) (greedy : bool) (k : cont) (caps : captures)
    (s : string) (min pos : nat) : option R :=
  let more :=
    match s with
    | String c s' =>
        if atom_matches dotall a c
        then repeat a greedy k caps s' (pred min) (S pos)
        else None
    | EmptyString => None
    end in
  match min with
  | O => if greedy then or_else more (k pos s caps)
         else or_else (k pos s caps) more
  | S _ => more
  end.

Fixpoint exec (r : regex) (pos : nat) (s : string) (caps : captures)
    (k : cont) : option R :=
  match r with
  | Empty => k pos s caps
  | One a =>
      match s with
      | String c s' => if atom_matches dotall a c then k (S pos) s' caps else None
      | EmptyString => None
      end
  | Repeat a min greedy => repeat a greedy k caps s min pos
  | Cat r1 r2 =>
      exec r1 pos s caps (fun pos' s' caps' => exec r2 pos' s' caps' k)
  | Or r1 r2 => or_else (exec r1 pos s caps k) (exec r2 pos s caps k)
  | Group n r' =>
      exec r' pos s caps
           (fun pos' s' caps' => k pos' s' ((n, (pos, take (pos' - pos) s)) :: caps'))
  | Backref n =>
      match capture n caps with
      | Some (_, t) =>
          match Str.drop_prefix s t with
          | Some s' => k (pos + String.length t) s' caps
          | None => None
          end
      | None => None
      end
  end.
End matcher.

(** A match object. *)
Record match_ := Match {
  m_start : nat;                    (* m.start(0) *)
  m_end : nat;                      (* m.end(0) *)
  m_text : string;                  (* m.group(0) *)
  m_groups : captures
}.

(** [m.group(n)]: the whole match for [0], and the text of the group [n]
    otherwise.  The groups the program reads always take part in the match;
    [findall] gives the empty string for one that does not. *)
Definition group (m : match_) (n : nat) : string :=
  match n with
  | O => m_text m
  | S _ =>
      match capture n (m_groups m) with
      | Some (_, t) => t
      | None => EmptyString
      end
  end.

(** [m.start(n)] for a group that took part in the match. *)
Definition start (m : match_) (n : nat) : option nat :=
  match capture n (m_groups m) with
  | Some (p, _) => Some p
  | None => None
  end.

(** A match that starts at [pos], with the text after it.  After an empty
    match [re] asks the next match at the same place not to be empty. *)
Definition match_at (dotall : bool) (r : regex) (must_advance : bool)
    (pos : nat) (s : string) : option (match_ * string) :=
  exec dotall r pos s []
       (fun pos' s' caps' =>
          if must_advance && (pos' =? pos) then None
          else Some (Match pos pos' (take (pos' - pos) s) caps', s')).

(** The leftmost match at [pos] or later. *)
Fixpoint search_from (dotall : bool) (r : regex) (must_advance : bool)
    (pos : nat) (s : string) : option (match_ * string) :=
  match match_at dotall r must_advance pos s with
  | Some m => Some m
  | None =>
      match s with
      | String _ s' => search_from dotall r false (S pos) s'
      | EmptyString => None
      end
  end.

(** The successive matches of [finditer], [findall] and [sub]: each search
    starts where the last match ended.  Two searches in a row move that
    place forward, so the fuel [2 * length s + 3] lasts; running out of it
    is answered by [Beyond]. *)
Fixpoint matches_from (fuel : nat) (dotall : bool) (r : regex)
    (must_advance : bool) (pos : nat) (s : string) : res (list match_) :=
  match fuel with
  | O => Beyond
  | S fuel' =>
      match search_from dotall r must_advance pos s with
      | None => Ok []
      | Some (m, s') =>
          ms ←r matches_from fuel' dotall r (m_end m =? m_start m) (m_end m) s';
          Ok (m :: ms)
      end
  end.

Definition matches (dotall : bool) (r : regex) (s : string) : res (list match_) :=
  matches_from (2 * String.length s + 3) dotall r false 0 s.

(** ** Reading a pattern *)

(** One level of parentheses being read: its group number, the
    alternatives already closed by [|] and the items of the current one,
    both latest first. *)
Record frame := Frame {
  f_group : nat;
  f_alts : list regex;
  f_seq : list regex
}.

Definition seq_regex (items : list regex) : regex :=
  fold_left (fun acc r => match acc with Empty => r | _ => Cat r acc end) items Empty.

Definition frame_regex (f : frame) : regex :=
  fold_left (fun acc r => Or r acc) (f_alts f) (seq_regex (f_seq f)).

Inductive mode :=
| Plain                         (* between items *)
| Escape                        (* after a backslash *)
| InSet (negated : bool) (items : list set_item) (first : bool)
| InSetStart                    (* just after [[] *)
| InSetEscape (negated : bool) (items : list set_item).

Record reader := Reader {
  r_mode : mode;
  r_top : frame;                (* the level being read *)
  r_open : list frame;          (* the levels around it, innermost first *)
  r_next : nat;                 (* the number of the next group *)
  r_closed : list nat           (* the groups already closed *)
}.

Definition push_item (x : regex) (rd : reader) : reader :=
  let f := r_top rd in
  Reader Plain (Frame (f_group f) (f_alts f) (x :: f_seq f))
         (r_open rd) (r_next rd) (r_closed rd).

Definition with_mode (m : mode) (rd : reader) : reader :=
  Reader m (r_top rd) (r_open rd) (r_next rd) (r_closed rd).

Definition is_alnum (c : ascii) : bool :=
  let n := nat_of_ascii c in
  ((48 <=? n) && (n <=? 57)) || ((65 <=? n) && (n <=? 90)) || ((97 <=? n) && (n <=? 122)).

Definition is_ascii (c : ascii) : bool := nat_of_ascii c <? 128.

(** A repetition sign after the last item. *)
Definition quantify (min : nat) (rd : reader) : option reader :=
  let f := r_top rd in
  match f_seq f with
  | One a :: items =>
      Some (Reader Plain (Frame (f_group f) (f_alts f) (Repeat a min true :: items))
                   (r_open rd) (r_next rd) (r_closed rd))
  | _ => None
  end.

Definition make_lazy (rd : reader) : option reader :=
  let f := r_top rd in
  match f_seq f with
  | Repeat a min true :: items =>
      Some (Reader Plain (Frame (f_group f) (f_alts f) (Repeat a min false :: items))
                   (r_open rd) (r_next rd) (r_closed rd))
  | _ => None
  end.

Definition step (rd : reader) (c : ascii) : option reader :=
  if negb (is_ascii c) then None else
  match r_mode rd with
  | Plain =>
      if Ascii.eqb c "\" then Some (with_mode Escape rd)
      else if Ascii.eqb c "[" then Some (with_mode InSetStart rd)
      else if Ascii.eqb c "(" then
        Some (Reader Plain (Frame (r_next rd) [] []) (r_top rd :: r_open rd)
                     (S (r_next rd)) (r_closed rd))
      else if Ascii.eqb c ")" then
        match r_open rd with
        | parent :: outer =>
            let g := f_group (r_top rd) in
            Some (Reader Plain
                         (Frame (f_group parent) (f_alts parent)
                                (Group g (frame_regex (r_top rd)) :: f_seq parent))
                         outer (r_next rd) (g :: r_closed rd))
        | [] => None
        end
      else if Ascii.eqb c "|" then
        let f := r_top rd in
        Some (Reader Plain (Frame (f_group f) (seq_regex (f_seq f) :: f_alts f) [])
                     (r_open rd) (r_next rd) (r_closed rd))
      else if Ascii.eqb c "*" then quantify 0 rd
      else if Ascii.eqb c "+" then quantify 1 rd
      else if Ascii.eqb c "?" then make_lazy rd
      else if Ascii.eqb c "." then Some (push_item (One Dot) rd)
      else if Ascii.eqb c "^" || Ascii.eqb c "$" || Ascii.eqb c "{" then None
      else Some (push_item (One (Lit c)) rd)
  | Escape =>
      if Ascii.eqb c "s" then Some (push_item (One (Space false)) rd)
      else if Ascii.eqb c "S" then Some (push_item (One (Space true)) rd)
      else if is_alnum c then
        let n := nat_of_ascii c - 48 in
        if (1 <=? n) && (n <=? 9) && bool_decide (n ∈ r_closed rd)
        then Some (push_item (Backref n) rd)
        else None
      else Some (push_item (One (Lit c)) rd)
  | InSetStart =>
      if Ascii.eqb c "^" then Some (with_mode (InSet true [] true) rd)
      else if Ascii.eqb c "\" then Some (with_mode (InSetEscape false []) rd)
      else if Ascii.eqb c "-" || Ascii.eqb c "[" then None
      else Some (with_mode (InSet false [SChar c] false) rd)
  | InSet negated items first =>
      if Ascii.eqb c "]" && negb first
      then Some (push_item (One (Set_ negated (rev items))) rd)
      else if Ascii.eqb c "\" then Some (with_mode (InSetEscape negated items) rd)
      else if Ascii.eqb c "-" || Ascii.eqb c "[" then None
      else Some (with_mode (InSet negated (SChar c :: items) false) rd)
  | InSetEscape negated items =>
      if Ascii.eqb c "s" then Some (with_mode (InSet negated (SSpace false :: items) false) rd)
      else if Ascii.eqb c "S" then Some (with_mode (InSet negated (SSpace true :: items) false) rd)
      else if is_alnum c then None
      else Some (with_mode (InSet negated (SChar c :: items) false) rd)
  end.

Fixpoint read (rd : reader) (pattern : string) : option reader :=
  match pattern with
  | EmptyString => Some rd
  | String c p' =>
      match step rd c with
      | Some rd' => read rd' p'
      | None => None
      end
  end.

(** A back-reference followed by a digit would be read by [re] as a longer
    number; such patterns are left out. *)
Fixpoint digit_after_backref (esc : bool) (pattern : string) : bool :=
  match pattern with
  | EmptyString => false
  | String c p' =>
      if esc
      then match p' with
           | String d _ =>
               (is_alnum c && (nat_of_ascii c <? 58) && is_alnum d && (nat_of_ascii d <? 58))
               || digit_after_backref false p'
           | EmptyString => false
           end
      else digit_after_backref (Ascii.eqb c "\") p'
  end.

(** [re.compile(pattern)] *)
Definition compile (pattern : string) : option regex :=
  if digit_after_backref false pattern then None else
  match read (Reader Plain (Frame 0 [] []) [] 1 []) pattern with
  | Some (Reader Plain top [] _ _) => Some (frame_regex top)
  | _ => None
  end.

(** [re.escape(s)]: a backslash in front of each special character. *)
Definition is_special (c : ascii) : bool :=
  existsb (Ascii.eqb c)
          (list_ascii_of_string "()[]{}?*+-|^$\.&~# ")
  || ((9 <=? nat_of_ascii c) && (nat_of_ascii c <=? 13)).

Fixpoint escape (s : string) : string :=
  match s with
  | EmptyString => EmptyString
  | String c s' =>
      if is_special c then String "\" (String c (escape s')) else String c (escape s')
  end.

(** ** The functions of the module *)

Definition compiled (pattern : string) : res regex :=
  match compile pattern with
  | Some r => Ok r
  | None => Beyond
  end.

(** [list(re.finditer(pattern, s, flags))] *)
Definition finditer (pattern : string) (dotall : bool) (s : string)
  : res (list match_) :=
  r ←r compiled pattern; matches dotall r s.

(** [re.search(pattern, s)] *)
Definition search (pattern : string) (s : string) : res (option match_) :=
  r ←r compiled pattern;
  Ok (match search_from false r false 0 s with
      | Some (m, _) => Some m
      | None => None
      end).

(** [re.match(pattern, s)] *)
Definition match_start (pattern : string) (s : string) : res (option match_) :=
  r ←r compiled pattern;
  Ok (match match_at false r false 0 s with
      | Some (m, _) => Some m
      | None => None
      end).

(** [re.sub(pattern, repl, s)] with a function [repl]: the text between
    the matches is kept and each match is replaced by what [repl] returns
    for it. *)
Fixpoint substitute (repl : match_ → res string) (ms : list match_)
    (pos : nat) (s : string) : res string :=
  match ms with
  | [] => Ok s
  | m :: ms' =>
      new ←r repl m;
      tail ←r substitute repl ms' (m_end m) (drop (m_end m - pos) s);
      Ok (take (m_start m - pos) s +:+ new +:+ tail)
  end.

Definition sub (pattern : string) (dotall : bool) (repl : match_ → res string)
    (s : string) : res string :=
  ms ←r finditer pattern dotall s;
  substitute repl ms 0 s.

End Re.

(** * The XML libraries

    [xml.etree.ElementTree] and [xml.dom.minidom] on documents written with
    tabs, newlines and the printable ASCII characters, made of an optional
    XML declaration, elements, attributes, namespace declarations, character
    data, CDATA sections and the five predefined entities.  A comment, a
    processing instruction, a document type, a character reference or a
    character outside that set is answered by [Beyond]. *)

Module ET.

Definition tab : ascii := "009"%char.
Definition newline : ascii := "010"%char.
Definition dquote : ascii := "034"%char.
Definition squote : ascii := "039"%char.
Definition nl : string := String newline EmptyString.
Definition dq : string := String dquote EmptyString.

Definition in_domain_char (c : ascii) : bool :=
  let n := nat_of_ascii c in
  (n =? 9) || (n =? 10) || ((32 <=? n) && (n <=? 126)).

Fixpoint in_domain (s : string) : bool :=
  match s with
  | EmptyString => true
  | String c s' => in_domain_char c && in_domain s'
  end.

Definition is_xml_space (c : ascii) : bool :=
  Ascii.eqb c " " || Ascii.eqb c tab || Ascii.eqb c newline.

Definition is_letter (c : ascii) : bool :=
  let n := nat_of_ascii c in
  ((65 <=? n) && (n <=? 90)) || ((97 <=? n) && (n <=? 122)).

Definition is_digit (c : ascii) : bool :=
  let n := nat_of_ascii c in (48 <=? n) && (n <=? 57).

Definition is_name_start (c : ascii) : bool := is_letter c || Ascii.eqb c "_".

Definition is_name_char (c : ascii) : bool :=
  is_letter c || is_digit c || Ascii.eqb c "_" || Ascii.eqb c "-" || Ascii.eqb c ".".

(** The longest prefix of characters satisfying [p], and what follows. *)
Fixpoint span (p : ascii → bool) (s : string) : string * string :=
  match s with
  | String c s' =>
      if p c then let '(a, b) := span p s' in (String c a, b) else (EmptyString, s)
  | EmptyString => (EmptyString, EmptyString)
  end.

Definition skip_space (s : string) : string := (span is_xml_space s).2.

Definition malformed {A} : res A := Raise ParseError.

(** A name without colon. *)
Definition ncname (s : string) : res (string * string) :=
  match s with
  | String c _ => if is_name_start c then Ok (span is_name_char s) else malformed
  | EmptyString => malformed
  end.

(** A qualified name: the prefix, if any, and the local part. *)
Definition qname (s : string) : res (option string * string * string) :=
  '(n1, rest) ←r ncname s;
  match rest with
  | String ":" rest1 =>
      '(n2, rest2) ←r ncname rest1;
      match rest2 with
      | String ":" _ => malformed
      | _ => Ok (Some n1, n2, rest2)
      end
  | _ => Ok (None, n1, rest)
  end.

Definition raw_name (q : option string * string) : string :=
  match q with
  | (Some p, l) => p +:+ ":" +:+ l
  | (None, l) => l
  end.

(** A reference, read after its [&]: the character it stands for and the
    number of characters of the reference after the [&]. *)
Definition reference (s : string) : res (ascii * nat) :=
  if Str.startswith s "lt;" then Ok ("<"%char, 3)
  else if Str.startswith s "gt;" then Ok (">"%char, 3)
  else if Str.startswith s "amp;" then Ok ("&"%char, 4)
  else if Str.startswith s "quot;" then Ok (dquote, 5)
  else if Str.startswith s "apos;" then Ok (squote, 5)
  else if Str.startswith s "#" then Beyond
  else malformed.

(** An attribute value up to the closing quote [q]; [skip] counts the
    characters of a reference still to be passed over. *)
Fixpoint attr_value (q : ascii) (skip : nat) (s : string) : res (string * string) :=
  match s with
  | EmptyString => malformed
  | String c s' =>
      match skip with
      | S k => attr_value q k s'
      | O =>
          if Ascii.eqb c q then Ok (EmptyString, s')
          else if Ascii.eqb c "<" then malformed
          else if Ascii.eqb c "&" then
            '(d, n) ←r reference s';
            '(v, rest) ←r attr_value q n s';
            Ok (String d v, rest)
          else
            '(v, rest) ←r attr_value q 0 s';
            Ok (String (if is_xml_space c then " "%char else c) v, rest)
      end
  end.

(** Character data up to the next [<]. *)
Fixpoint char_data (skip : nat) (s : string) : res (string * string) :=
  match s with
  | EmptyString => Ok (EmptyString, EmptyString)
  | String c s' =>
      match skip with
      | S k => char_data k s'
      | O =>
          if Ascii.eqb c "<" then Ok (EmptyString, s)
          else if Str.startswith s "]]>" then malformed
          else if Ascii.eqb c "&" then
            '(d, n) ←r reference s';
            '(v, rest) ←r char_data n s';
            Ok (String d v, rest)
          else
            '(v, rest) ←r char_data 0 s';
            Ok (String c v, rest)
      end
  end.

(** The text of a CDATA section, read after [<![CDATA[]. *)
Fixpoint cdata_body (s : string) : res (string * string) :=
  if Str.startswith s "]]>" then Ok (EmptyString, Re.drop 3 s)
  else match s with
       | EmptyString => malformed
       | String c s' => '(v, rest) ←r cdata_body s'; Ok (String c v, rest)
       end.

(** The attributes of a start tag as written, and whether the tag ends
    with [/>]. *)
Fixpoint attributes (fuel : nat) (s : string)
  : res (list (option string * string * string) * bool * string) :=
  match fuel with
  | O => Beyond
  | S fuel' =>
      let '(sp, s1) := span is_xml_space s in
      match s1 with
      | String ">" rest => Ok ([], false, rest)
      | String "/" (String ">" rest) => Ok ([], true, rest)
      | _ =>
          if String.eqb sp EmptyString then malformed else
          '(p, l, s2) ←r qname s1;
          match skip_space s2 with
          | String "=" s3 =>
              match skip_space s3 with
              | String q s4 =>
                  if Ascii.eqb q dquote || Ascii.eqb q squote then
                    '(v, s5) ←r attr_value q 0 s4;
                    '(more, closed, rest) ←r attributes fuel' s5;
                    Ok ((p, l, v) :: more, closed, rest)
                  else malformed
              | EmptyString => malformed
              end
          | _ => malformed
          end
      end
  end.

(** The namespaces in scope: prefix (empty for the default) and URI. *)
Definition scope := list (string * string).

Definition declarations (attrs : list (option string * string * string)) : res scope :=
  res_mapM (fun a =>
              match a with
              | (None, l, v) => Ok (EmptyString, v)
              | (Some _, l, v) =>
                  if String.eqb v EmptyString || String.eqb l "xml" || String.eqb l "xmlns"
                  then Beyond else Ok (l, v)
              end)
           (filter (fun a => a.1.1 = Some "xmlns" ∨ a.1 = (None, "xmlns")) attrs).

Definition plain_attributes (attrs : list (option string * string * string))
  : list (option string * string * string) :=
  filter (fun a => ¬ (a.1.1 = Some "xmlns" ∨ a.1 = (None, "xmlns"))) attrs.

Definition clark (uri local : string) : res string :=
  if Str.contains uri "}" then Beyond
  else if String.eqb uri EmptyString then Ok local
  else Ok ("{" +:+ uri +:+ "}" +:+ local).

Definition resolve_prefix (sc : scope) (p local : string) : res string :=
  if String.eqb p "xml" || String.eqb p "xmlns" then Beyond else
  match dict_get p sc with
  | Some uri => clark uri local
  | None => malformed
  end.

(** The name of an element in the tree: an element without prefix is in
    the default namespace. *)
Definition element_name (sc : scope) (q : option string * string) : res string :=
  match q with
  | (Some p, l) => resolve_prefix sc p l
  | (None, l) =>
      match dict_get EmptyString sc with
      | Some uri => clark uri l
      | None => Ok l
      end
  end.

(** An attribute without prefix is in no namespace. *)
Definition attribute_name (sc : scope) (q : option string * string) : res string :=
  match q with
  | (Some p, l) => resolve_prefix sc p l
  | (None, l) => Ok l
  end.

Definition has_duplicates (l : list string) : bool := negb (bool_decide (NoDup l)).

(** What a start tag gives: the name as written, the name and attributes
    of the element, the namespaces in scope inside it, whether it is
    closed at once, and the text after it.  With [resolve] the names are
    the expanded ones of [ElementTree]; without it they are the ones
    written, and the document may not use any prefix. *)
Definition start_tag (resolve : bool) (sc : scope) (s : string)
  : res (string * string * list (string * string) * scope * bool * string) :=
  '(p, l, s1) ←r qname s;
  '(attrs, closed, rest) ←r attributes (String.length s1 + 1) s1;
  if has_duplicates (map (fun a => raw_name a.1) attrs) then malformed else
  decls ←r declarations attrs;
  let sc' := decls ++ sc in
  if resolve then
    name ←r element_name sc' (p, l);
    names ←r res_mapM (fun a => attribute_name sc' a.1) (plain_attributes attrs);
    if has_duplicates names then Beyond else
    Ok (raw_name (p, l), name, zip names (map snd (plain_attributes attrs)),
        sc', closed, rest)
  else
    if bool_decide (p = None) &&
       forallb (fun a => bool_decide (a.1.1 = None)) attrs
    then
      _ ←r element_name sc' (p, l);
      Ok (l, l, map (fun a => (a.1.2, a.2)) attrs, sc', closed, rest)
    else Beyond.

Definition some_text (s : string) : option string :=
  if String.eqb s EmptyString then None else Some s.

(** The text gathered since the last tag becomes the text of the element
    when it has no child yet, and the tail of its last child otherwise. *)
Definition flush (text : string) (kids : list Element) (buf : string)
  : string * list Element :=
  match kids with
  | [] => (buf, [])
  | Elem t a x cs _ :: kids' => (text, Elem t a x cs (some_text buf) :: kids')
  end.

(** The content of an element up to its end tag: its text, its children
    (last first), the name written in the end tag and the text after it. *)
Fixpoint content (fuel : nat) (resolve : bool) (sc : scope) (s : string)
    (text : string) (kids : list Element) (buf : string)
  : res (string * list Element * string * string) :=
  match fuel with
  | O => Beyond
  | S fuel' =>
      match s with
      | EmptyString => malformed
      | String "<" s1 =>
          if Str.startswith s1 "![CDATA[" then
            '(body, rest) ←r cdata_body (Re.drop 8 s1);
            content fuel' resolve sc rest text kids (buf +:+ body)
          else if Str.startswith s1 "!" || Str.startswith s1 "?" then Beyond
          else if Str.startswith s1 "/" then
            '(p, l, s2) ←r qname (Re.drop 1 s1);
            match skip_space s2 with
            | String ">" rest =>
                let '(text', kids') := flush text kids buf in
                Ok (text', kids', raw_name (p, l), rest)
            | _ => malformed
            end
          else
            '(raw, name, attrs, sc', closed, rest) ←r start_tag resolve sc s1;
            let '(text', kids') := flush text kids buf in
            if closed : bool then
              content fuel' resolve sc rest text' (Elem name attrs None [] None :: kids') EmptyString
            else
              '(ctext, ckids, end_name, rest') ←r content fuel' resolve sc' rest EmptyString [] EmptyString;
              if String.eqb end_name raw then
                content fuel' resolve sc rest' text'
                        (Elem name attrs (some_text ctext) (rev ckids) None :: kids') EmptyString
              else malformed
      | _ =>
          '(data, rest) ←r char_data 0 s;
          content fuel' resolve sc rest text kids (buf +:+ data)
      end
  end.

(** The XML declarations the model reads. *)
Definition declaration_forms : list string :=
  ["<?xml version=" +:+ dq +:+ "1.0" +:+ dq +:+ "?>";
   "<?xml version=" +:+ dq +:+ "1.0" +:+ dq +:+ " ?>";
   "<?xml version='1.0'?>";
   "<?xml version=" +:+ dq +:+ "1.0" +:+ dq +:+ " encoding=" +:+ dq +:+ "UTF-8" +:+ dq +:+ "?>";
   "<?xml version=" +:+ dq +:+ "1.0" +:+ dq +:+ " encoding=" +:+ dq +:+ "utf-8" +:+ dq +:+ "?>";
   "<?xml version='1.0' encoding='utf-8'?>";
   "<?xml version='1.0' encoding='UTF-8'?>"].

Fixpoint after_declaration (forms : list string) (s : string) : res string :=
  match forms with
  | [] => Beyond
  | f :: forms' =>
      match Str.drop_prefix s f with
      | Some rest => Ok rest
      | None => after_declaration forms' s
      end
  end.

(** What precedes the root element: the text after the [<] of its start
    tag. *)
Definition prolog (s : string) : res string :=
  if negb (in_domain s) then Beyond else
  s0 ←r (if Str.startswith s "<?xml" then after_declaration declaration_forms s
         else Ok s);
  match skip_space s0 with
  | EmptyString => malformed
  | String "<" s1 =>
      if Str.startswith s1 "!" || Str.startswith s1 "?" then Beyond else Ok s1
  | _ => malformed
  end.

(** The root element of a document. *)
Definition document (resolve : bool) (s : string) : res Element :=
  s1 ←r prolog s;
  '(raw, name, attrs, sc, closed, rest) ←r start_tag resolve [] s1;
  '(root, rest') ←r
    (if closed : bool then Ok (Elem name attrs None [] None, rest)
     else
       '(text, kids, end_name, rest') ←r
         content (String.length rest + 1) resolve sc rest EmptyString [] EmptyString;
       if String.eqb end_name raw
       then Ok (Elem name attrs (some_text text) (rev kids) None, rest')
       else malformed);
  match skip_space rest' with
  | EmptyString => Ok root
  | String "<" s2 =>
      if Str.startswith s2 "!" || Str.startswith s2 "?" then Beyond else malformed
  | _ => malformed
  end.


(** [ET.parse(file).getroot()] on the text of the file. *)
Definition parse (content : string) : res Element := document true content.

(** ** Writing *)

Definition escape_cdata (s : string) : string :=
  Str.replace (Str.replace (Str.replace s "&" "&amp;") "<" "&lt;") ">" "&gt;".

Definition escape_attrib (s : string) : string :=
  Str.replace (escape_cdata s) dq "&quot;".

Definition is_ncname (s : string) : bool :=
  match ncname s with
  | Ok (_, EmptyString) => true
  | _ => false
  end.

Definition write_attributes (escape : string → string) (attrs : list (string * string))
  : string :=
  Str.concat (map (fun a => " " +:+ a.1 +:+ "=" +:+ dq +:+ escape a.2 +:+ dq) attrs).

Definition truthy (x : option string) : bool :=
  match x with
  | Some s => negb (String.eqb s EmptyString)
  | None => false
  end.

Definition text_of (x : option string) : string :=
  match x with Some s => s | None => EmptyString end.

(** Names and values [tostring] writes as they are: names without
    namespace, values without tab or newline. *)
Definition writable (e : Element) : bool :=
  is_ncname (tag e) &&
  forallb (fun a => is_ncname a.1 && negb (Str.contains a.2 (String tab EmptyString))
                    && negb (Str.contains a.2 nl)) (attrib e).

(** [ET.tostring(elem, 'utf-8')]: no declaration is written for this
    encoding. *)
Fixpoint tostring (elem : Element) : res string :=
  if negb (writable elem) then Beyond else
  match elem with
  | Elem tag attrib text children tail =>
      inner ←r res_mapM tostring children;
      Ok ("<" +:+ tag +:+ write_attributes escape_attrib attrib +:+
          (if truthy text || negb (bool_decide (children = []))
           then ">" +:+ escape_cdata (text_of text) +:+ Str.concat inner +:+
                "</" +:+ tag +:+ ">"
           else " />") +:+
          escape_cdata (text_of tail))
  end.

(** [xml.dom.minidom.parseString]: the document as a tree of elements with
    the names and the attributes as written. *)
Definition parseString (s : string) : res Element := document false s.

(** The child nodes of an element of the document: its elements and the
    texts between them. *)
Inductive node :=
| TextNode (data : string)
| ElementNode (e : Element).

Definition text_node (x : option string) : list node :=
  if truthy x then [TextNode (text_of x)] else [].

Definition child_nodes (e : Element) : list node :=
  text_node (text e) ++
  flat_map (fun c => ElementNode c :: text_node (tail c)) (children e).

(** [_write_data] *)
Definition write_data (s : string) : string :=
  Str.replace (Str.replace (Str.replace (Str.replace s "&" "&amp;") "<" "&lt;")
                           dq "&quot;") ">" "&gt;".

(** [Element.writexml(writer, indent, addindent, newl)] *)
Fixpoint writexml (indent addindent newl : string) (e : Element) : string :=
  match e with
  | Elem tag attrib text children _ =>
      indent +:+ "<" +:+ tag +:+ write_attributes write_data attrib +:+
      match text_node text, children with
      | [], [] => "/>" +:+ newl
      | [TextNode data], [] => ">" +:+ write_data data +:+ "</" +:+ tag +:+ ">" +:+ newl
      | first, _ =>
          ">" +:+ newl +:+
          Str.concat (map (fun n => match n with
                                    | TextNode data =>
                                        write_data (indent +:+ addindent +:+ data +:+ newl)
                                    | ElementNode _ => EmptyString
                                    end) first) +:+
          Str.concat (map (fun c =>
                             writexml (indent +:+ addindent) addindent newl c +:+
                             Str.concat (map (fun n => match n with
                                    | TextNode data =>
                                        write_data (indent +:+ addindent +:+ data +:+ newl)
                                    | ElementNode _ => EmptyString
                                    end) (text_node (tail c)))) children) +:+
          indent +:+ "</" +:+ tag +:+ ">" +:+ newl
      end
  end.

(** [document.toprettyxml(indent)] *)
Definition toprettyxml (indent : string) (root : Element) : string :=
  "<?xml version=" +:+ dq +:+ "1.0" +:+ dq +:+ " ?>" +:+ nl +:+
  writexml EmptyString indent nl root.

End ET.

(** * The program *)

(** [prettify]: the element is written, read again as a document, and the
    document is printed with an indentation of four spaces; the declaration
    line is dropped and the quotes come back. *)
Definition prettify (elem : Element) : res string :=
  rough_string ←r ET.tostring elem;
  reparsed ←r ET.parseString rough_string;
  let pretty_xml_with_decl := ET.toprettyxml "    " reparsed in
  let pretty_xml :=
    if Str.contains pretty_xml_with_decl "<?xml"
    then match Str.split_once ET.newline pretty_xml_with_decl with
         | (_, Some rest) => Ok rest
         | (_, None) => Raise IndexError
         end
    else Ok pretty_xml_with_decl in
  pretty_xml ←r pretty_xml;
  Ok (Str.replace pretty_xml "&quot;" ET.dq).

(** ** Files *)

(** Why the operating system refuses to open a path for writing: a
    directory of the path does not exist, the path is a directory, or the
    permission is missing. *)
Inductive refusal := missing_directory | is_a_directory | permission_denied.

(** The files by path, the record of the writes made so far, latest first
    (the record is there to count them), and the paths that cannot be opened
    for writing. *)
Record world := World {
  files : gmap string string;
  writes : list (string * string);
  refused : gmap string refusal
}.

(** What [process_xml_file] can raise: its own [ValueError], the errors of
    [open], and the errors of the computations it runs. *)
Inductive exn :=
| ValueError_CDB_backup
| FileNotFoundError
| IsADirectoryError
| PermissionError
| Error (e : error).

(** The [OSError] that [open(path, 'w')] raises. *)
Definition refusal_error (r : refusal) : exn :=
  match r with
  | missing_directory => FileNotFoundError
  | is_a_directory => IsADirectoryError
  | permission_denied => PermissionError
  end.

Inductive outcome (A : Type) :=
| Returns (a : A)
| Raises (e : exn)
| Unmodelled.
Arguments Returns {A} a.
Arguments Raises {A} e.
Arguments Unmodelled {A}.

Definition io (A : Type) : Type := world → outcome A * world.

Definition io_bind {A B} (m : io A) (f : A → io B) : io B :=
  fun w =>
    match m w with
    | (Returns a, w') => f a w'
    | (Raises e, w') => (Raises e, w')
    | (Unmodelled, w') => (Unmodelled, w')
    end.

Definition raise {A} (e : exn) : io A := fun w => (Raises e, w).

(** A computation that touches no file. *)
Definition lift {A} (r : res A) : io A :=
  fun w =>
    (match r with
     | Ok a => Returns a
     | Raise e => Raises (Error e)
     | Beyond => Unmodelled
     end, w).

Declare Scope io_scope.
Delimit Scope io_scope with io.
Notation "x ←io m ; k" := (io_bind m (fun x => k))
  (at level 20, m at level 100, k at level 200, right associativity,
   format "x  ←io  m ;  '/' k") : io_scope.

(** [open(path).read()].  How the bytes of a file become text depends on
    the encoding and on the newline translation of the platform; only files
    on which they all agree are read here. *)
Definition read_file (path : string) : io string :=
  fun w =>
    match files w !! path with
    | Some content => (if ET.in_domain content then Returns content else Unmodelled, w)
    | None => (Raises FileNotFoundError, w)
    end.

(** [with open(path, 'w') as f: f.write(content)]: when the path cannot be
    opened, [open] raises and nothing is written. *)
Definition write_file (path content : string) : io unit :=
  fun w =>
    match refused w !! path with
    | Some r => (Raises (refusal_error r), w)
    | None =>
        (Returns tt,
         World (<[path := content]> (files w)) ((path, content) :: writes w) (refused w))
    end.

(** ** The scanners *)

(** [re.findall] for a pattern with two groups. *)
Definition findall2 (pattern : string) (s : string) : res (list (string * string)) :=
  ms ←r Re.finditer pattern false s;
  Ok (map (fun m => (Re.group m 1, Re.group m 2)) ms).

(** [context += f":{id_type}={id_value}"] for every identifier. *)
Definition add_identifiers (context : string) (identifiers : list (string * string))
  : string :=
  fold_left (fun c i => c +:+ ":" +:+ i.1 +:+ "=" +:+ i.2) identifiers context.

Definition cdata_pattern_in_block : string := "<([^>]+)>\s*<!\[CDATA\[(.*?)\]\]>".

Definition find_cdata_sections_in (content : string)
  : res (list (string * string * string)) :=
  element_blocks ←r Re.finditer "<([^\s>]+)[^>]*>([\s\S]*?)</\1>" false content;
  for_each element_blocks
    (fun cdata_sections block_match =>
       let element_tag := Re.group block_match 1 in
       let element_content := Re.group block_match 2 in
       cdata_matches ←r Re.finditer cdata_pattern_in_block true element_content;
       for_each cdata_matches
         (fun cdata_sections cdata_match =>
            let cdata_element_tag := Str.strip (Re.group cdata_match 1) in
            let cdata_content := Re.group cdata_match 2 in
            identifiers ←r
              findall2 "<(profileName|name|id|keyname|cfgname|cfgName)>([^<]+)</\1>"
                       element_content;
            let context_signature := add_identifiers element_tag identifiers in
            let element_context := context_signature +:+ ":" +:+ cdata_element_tag in
            Ok (cdata_sections ++ [(element_context, cdata_element_tag, cdata_content)]))
         cdata_sections)
    [].

Definition find_cdata_sections (file_path : string)
  : io (list (string * string * string)) :=
  (content ←io read_file file_path;
   lift (find_cdata_sections_in content))%io.

(** [s[a:b]] for [a] that is not negative. *)
Definition slice (s : string) (a : nat) (b : Z) : string :=
  let n := Z.of_nat (String.length s) in
  let b' := if (b <? 0)%Z then Z.max 0 (n + b) else b in
  Re.take (Z.to_nat b' - a) (Re.drop a s).

Definition xml_decl_pattern : string :=
  "<([^>]+)>([^<>]*?&lt;\?xml version=\" +:+ ET.dq +:+
  "|&lt;\?xml version=\'|&lt;\?xml version=).*?</[^>]*>".

Definition find_xml_declaration_escaped_content_in (content : string)
  : res (list (string * string)) :=
  ms ←r Re.finditer xml_decl_pattern true content;
  for_each ms
    (fun escaped_xml_elements m =>
       let element_tag := Str.strip (Re.group m 1) in
       match Str.split_ws element_tag, Re.start m 2 with
       | first :: _, Some start2 =>
           let element_content :=
             Re.group m 2 +:+
             slice (Re.group m 0) (start2 + String.length (Re.group m 2))
                   (Z.of_nat (Re.m_end m)
                    - Z.of_nat (String.length ("</" +:+ first +:+ ">"))) in
           Ok (dict_set element_tag element_content escaped_xml_elements)
       | [], _ => Raise IndexError
       | _, None => Beyond
       end)
    [].

Definition find_xml_declaration_escaped_content (file_path : string)
  : io (list (string * string)) :=
  (content ←io read_file file_path;
   lift (find_xml_declaration_escaped_content_in content))%io.

Inductive content_type := cdata | escaped.

Definition find_xml_content_in_elements_in (content : string)
    (target_elements : list string) : res (list (string * (content_type * string))) :=
  for_each target_elements
    (fun xml_content_map target_element =>
       element_matches ←r
         Re.finditer ("<" +:+ target_element +:+ "[^>]*>(.*?)</" +:+ target_element +:+ ">")
                     true content;
       for_each element_matches
         (fun xml_content_map element_match =>
            let element_content := Re.group element_match 1 in
            identifiers ←r findall2 "<(profileName|name|id)>([^<]+)</\1>" element_content;
            let context_key := add_identifiers target_element identifiers in
            cdata_matches ←r Re.finditer cdata_pattern_in_block true element_content;
            let xml_content_map :=
              fold_left
                (fun xml_content_map cdata_match =>
                   let xml_tag := Str.strip (Re.group cdata_match 1) in
                   dict_set (context_key +:+ ":" +:+ xml_tag)
                            (cdata, Re.group cdata_match 2) xml_content_map)
                cdata_matches xml_content_map in
            escaped_matches ←r
              Re.finditer "<([^>]+)>([^<]*?&lt;[^>]*?&gt;[^<]*?)</\1>" true element_content;
            Ok (fold_left
                  (fun xml_content_map escaped_match =>
                     let xml_tag := Str.strip (Re.group escaped_match 1) in
                     dict_set (context_key +:+ ":" +:+ xml_tag)
                              (escaped, Re.group escaped_match 2) xml_content_map)
                  escaped_matches xml_content_map))
         xml_content_map)
    [].

Definition find_xml_content_in_elements (file_path : string)
    (target_elements : list string) : io (list (string * (content_type * string))) :=
  (content ←io read_file file_path;
   lift (find_xml_content_in_elements_in content target_elements))%io.

(** ** [process_xml_file] *)

(** The chain of replacements that turns entities back into characters. *)
Definition unescape (content : string) : string :=
  let content := Str.replace (Str.replace content "&lt;" "<") "&gt;" ">" in
  let content := Str.replace (Str.replace content "&amp;lt;" "&lt;") "&amp;gt;" "&gt;" in
  let content := Str.replace (Str.replace content "&quot;" ET.dq) "&apos;" "'" in
  let content := Str.replace content "&amp;quot;" ET.dq in
  Str.replace content "&amp;" "&".

(** [element_tag.split()[0]] *)
Definition first_word (element_tag : string) : res string :=
  match Str.split_ws element_tag with
  | w :: _ => Ok w
  | [] => Raise IndexError
  end.

(** The replacement function of the first pass. *)
Definition create_cdata_replacement (element_tag cdata_content : string)
    (m : Re.match_) : res string :=
  closing ←r first_word element_tag;
  Ok ("<" +:+ element_tag +:+ "><![CDATA[" +:+ cdata_content +:+ "]]></" +:+ closing +:+ ">").

(** The test on the identifiers of a context: every part [type=value] must
    be found as an element of [parent_content]; the loop stops at the first
    one that is not. *)
Fixpoint is_matching_element (identifiers : list string) (parent_content : string)
  : res bool :=
  match identifiers with
  | [] => Ok true
  | identifier :: identifiers' =>
      match Str.split_char "=" identifier with
      | [id_type; id_value] =>
          found ←r Re.search ("<" +:+ id_type +:+ ">" +:+ Re.escape id_value +:+
                              "</" +:+ id_type +:+ ">") parent_content;
          match found with
          | Some _ => is_matching_element identifiers' parent_content
          | None => Ok false
          end
      | _ => is_matching_element identifiers' parent_content
      end
  end.

(** [parts[1:-1]] *)
Definition middle (parts : list string) : list string := removelast (List.tail parts).

(** The loop over the blocks of [parent_tag] found in the text as it is when
    the loop starts: in a block that carries the identifiers, [pattern] is
    replaced with [repl], and the changed block replaces the block in the
    current text. *)
Definition rewrite_blocks (parent_tag : string) (identifiers : list string)
    (pattern : string) (repl : Re.match_ → res string) (pretty_xml_output : string)
  : res string :=
  parent_matches ←r
    Re.finditer ("<" +:+ parent_tag +:+ "[^>]*>(.*?)</" +:+ parent_tag +:+ ">")
                false pretty_xml_output;
  for_each parent_matches
    (fun pretty_xml_output parent_match =>
       let parent_content := Re.group parent_match 1 in
       is_matching ←r is_matching_element identifiers parent_content;
       if is_matching : bool then
         modified_parent_content ←r Re.sub pattern false repl parent_content;
         Ok (Str.replace pretty_xml_output
               ("<" +:+ parent_tag +:+ ">" +:+ parent_content +:+ "</" +:+ parent_tag +:+ ">")
               ("<" +:+ parent_tag +:+ ">" +:+ modified_parent_content +:+
                "</" +:+ parent_tag +:+ ">"))
       else Ok pretty_xml_output)
    pretty_xml_output.

(** [cdata_by_tag]: the sections grouped by the tag that holds them. *)
Definition group_by_tag (cdata_sections : list (string * string * string))
  : list (string * list (string * string)) :=
  fold_left
    (fun cdata_by_tag section =>
       let '(element_context, element_tag, cdata_content) := section in
       let cdata_by_tag :=
         match dict_get element_tag cdata_by_tag with
         | Some _ => cdata_by_tag
         | None => dict_set element_tag [] cdata_by_tag
         end in
       match dict_get element_tag cdata_by_tag with
       | Some l => dict_set element_tag (l ++ [(element_context, cdata_content)]) cdata_by_tag
       | None => cdata_by_tag
       end)
    cdata_sections [].

(** First pass: the CDATA sections found in the source. *)
Definition restore_cdata_sections (cdata_by_tag : list (string * list (string * string)))
    (pretty_xml_output : string) : res string :=
  for_each cdata_by_tag
    (fun pretty_xml_output entry =>
       let '(element_tag, context_content_pairs) := entry in
       let pattern := "<" +:+ element_tag +:+ ">([^<]*)</[^>]*>" in
       match context_content_pairs with
       | [(_, cdata_content)] =>
           Re.sub pattern false (create_cdata_replacement element_tag cdata_content)
                  pretty_xml_output
       | _ =>
           for_each context_content_pairs
             (fun pretty_xml_output pair =>
                let '(element_context, cdata_content) := pair in
                let context_parts := Str.split_char ":" element_context in
                let parent_tag := List.hd EmptyString context_parts in
                if 1 <? length context_parts then
                  rewrite_blocks parent_tag (middle context_parts) pattern
                                 (create_cdata_replacement element_tag cdata_content)
                                 pretty_xml_output
                else
                  Re.sub pattern false (create_cdata_replacement element_tag cdata_content)
                         pretty_xml_output)
             pretty_xml_output
       end)
    pretty_xml_output.

(** Second pass: the elements whose text holds an escaped XML declaration. *)
Definition convert_declared_content (escaped_xml_elements : list (string * string))
    (cdata_by_tag : list (string * list (string * string)))
    (pretty_xml_output : string) : res string :=
  for_each escaped_xml_elements
    (fun pretty_xml_output entry =>
       let element_tag := entry.1 in
       match dict_get element_tag cdata_by_tag with
       | Some _ => Ok pretty_xml_output
       | None =>
           Re.sub ("<" +:+ element_tag +:+ ">([^<]*)</[^>]*>") false
                  (fun m =>
                     let content := unescape (Re.group m 1) in
                     closing ←r first_word element_tag;
                     Ok ("<" +:+ element_tag +:+ "><![CDATA[" +:+ content +:+ "]]></" +:+
                         closing +:+ ">"))
                  pretty_xml_output
       end)
    pretty_xml_output.

(** Third pass: the content found in the special elements. *)
Definition refine_special_elements
    (xml_content_in_special_elements : list (string * (content_type * string)))
    (pretty_xml_output : string) : res string :=
  for_each xml_content_in_special_elements
    (fun pretty_xml_output entry =>
       let '(context_key, (type, content)) := entry in
       let parts := Str.split_char ":" context_key in
       let parent_element := List.hd EmptyString parts in
       let xml_tag := List.last parts EmptyString in
       let identifiers := filter (fun part => Str.contains part "=" = true) (middle parts) in
       rewrite_blocks parent_element identifiers
         ("<" +:+ xml_tag +:+ ">([^<]*)</" +:+ xml_tag +:+ ">")
         (fun m =>
            match type with
            | cdata => Ok ("<" +:+ xml_tag +:+ "><![CDATA[" +:+ content +:+ "]]></" +:+
                           xml_tag +:+ ">")
            | escaped => Ok ("<" +:+ xml_tag +:+ "><![CDATA[" +:+ unescape content +:+
                             "]]></" +:+ xml_tag +:+ ">")
            end)
         pretty_xml_output)
    pretty_xml_output.

(** Fourth pass: whatever text still holds escaped markup. *)
Definition convert_escaped_xml_to_cdata (m : Re.match_) : res string :=
  let element_tag := Re.group m 1 in
  let content := Re.group m 2 in
  if Str.contains content "&lt;" && Str.contains content "&gt;" then
    let unescaped := unescape content in
    if Str.contains unescaped "<" && Str.contains unescaped ">" &&
       (Str.contains unescaped "</" || Str.contains unescaped "/>")
    then
      closing ←r first_word element_tag;
      Ok ("<" +:+ element_tag +:+ "><![CDATA[" +:+ unescaped +:+ "]]></" +:+ closing +:+ ">")
    else Ok (Re.group m 0)
  else Ok (Re.group m 0).

Definition escaped_xml_pattern : string :=
  "<([^>]+)>([^<>]*?&lt;[^<>]*?&gt;[^<]*?)</[^>]*>".

(** [{"xmlns": namespace_uri}] when the tag of the root starts with a
    namespace in braces. *)
Definition root_namespace (root_tag : string) : res (option (list (string * string))) :=
  namespace_match ←r Re.match_start "\{(.+?)\}" root_tag;
  Ok (match namespace_match with
      | Some m => Some [("xmlns", Re.group m 1)]
      | None => None
      end).

(** From the root element of the file to the root element of the sorted
    tree. *)
Definition sorted_root (root : Element) : res Element :=
  namespace ←r root_namespace (tag root);
  let root_tag := strip_namespace (tag root) in
  let xml_dict := Mapping [(root_tag, xml_to_dict root)] in
  let sorted_dict :=
    sort_dict Str.lower priority_keywords element_priority_keywords_map
              xml_dict (Some root_tag) in
  match sorted_dict with
  | Mapping items =>
      match dict_get root_tag items with
      | Some sorted_value => dict_to_xml root_tag sorted_value namespace
      | None => Beyond
      end
  | _ => Beyond
  end.

Section process.
(** [list(set(l))] lists the members of a set in an order that its hash
    table decides; [listing] is that order. *)
Variable listing : list string → list string.

Definition special_elements_of (cdata_sections : list (string * string * string))
  : list string :=
  let element_tags_with_cdata :=
    map (fun section => List.hd EmptyString (Str.split_char ":" section.1.1))
        cdata_sections in
  listing (remove_dups (element_tags_with_cdata ++ ["TransRouting"; "normalizationSettings"])).

Definition process_xml_file (input_file output_file : string) : io unit :=
  (cdata_sections ←io find_cdata_sections input_file;
   escaped_xml_elements ←io find_xml_declaration_escaped_content input_file;
   let special_elements := special_elements_of cdata_sections in
   xml_content_in_special_elements ←io
     find_xml_content_in_elements input_file special_elements;
   xml_content ←io read_file input_file;
   if Str.startswith (Str.lstrip xml_content) "<config"
   then raise ValueError_CDB_backup
   else
     tree ←io read_file input_file;
     root ←io lift (ET.parse tree);
     new_root ←io lift (sorted_root root);
     pretty_xml_output ←io lift (prettify new_root);
     let cdata_by_tag := group_by_tag cdata_sections in
     pretty_xml_output ←io lift (restore_cdata_sections cdata_by_tag pretty_xml_output);
     pretty_xml_output ←io
       lift (convert_declared_content escaped_xml_elements cdata_by_tag pretty_xml_output);
     pretty_xml_output ←io
       lift (refine_special_elements xml_content_in_special_elements pretty_xml_output);
     pretty_xml_output ←io
       lift (Re.sub escaped_xml_pattern true convert_escaped_xml_to_cdata
                    pretty_xml_output);
     write_file output_file pretty_xml_output)%io.
End process.

(** * The command line

    The block under [if __name__ == "__main__"]: one timestamp for the whole
    run, and for every input file a turn that names the output file,
    creates the output directory when one is asked for, calls
    [process_xml_file] and reports on the console.  Every exception of a
    turn is caught and reported, and the next file is taken. *)

(** ** [os.path] as it is on POSIX *)

Module Path.

(** The text before the last [c] of [s] and the text after it. *)
Fixpoint split_last (c : ascii) (s : string) : option (string * string) :=
  match s with
  | EmptyString => None
  | String a s' =>
      match split_last c s' with
      | Some (before, after) => Some (String a before, after)
      | None => if Ascii.eqb a c then Some (EmptyString, s') else None
      end
  end.

(** [os.path.basename(p)]: [p[p.rfind('/') + 1:]] *)
Definition basename (p : string) : string :=
  match split_last "/" p with
  | Some (_, name) => name
  | None => p
  end.

Fixpoint all_dots (s : string) : bool :=
  match s with
  | EmptyString => true
  | String c s' => Ascii.eqb c "." && all_dots s'
  end.

(** [os.path.splitext(p)]: the extension starts at the last dot of the last
    component, unless nothing or only dots stand before that dot in the
    component. *)
Definition splitext (p : string) : string * string :=
  let '(head, name) :=
    match split_last "/" p with
    | Some (directory, name) => (directory +:+ "/", name)
    | None => (EmptyString, p)
    end in
  match split_last "." name with
  | Some (root, ext) =>
      if all_dots root then (p, EmptyString) else (head +:+ root, "." +:+ ext)
  | None => (p, EmptyString)
  end.

(** [a.endswith('/')] *)
Fixpoint ends_with_slash (a : string) : bool :=
  match a with
  | EmptyString => false
  | String c EmptyString => Ascii.eqb c "/"
  | String _ a' => ends_with_slash a'
  end.

(** [os.path.join(a, p)] *)
Definition join (a p : string) : string :=
  if Str.startswith p "/" then p
  else if String.eqb a EmptyString || ends_with_slash a then a +:+ p
  else a +:+ "/" +:+ p.

End Path.

(** ** The console and the directories *)

(** What a turn prints: the lines of [print], with the exception in the
    place of its message. *)
Inductive line :=
| Reading (input_file : string)          (* Reading input XML file: ... *)
| Sorted                                 (* XML has been sorted successfully ... *)
| Saved (output_filename : string)       (* Sorted XML saved as: ... *)
| Rule                                   (* fifty dashes *)
| Failed (input_file : string) (e : exn) (* Error processing file ...: ... *).

#[global] Instance refusal_eq_dec : EqDecision refusal.
Proof. solve_decision. Defined.

(** The files, the directories that exist, and the lines printed so far. *)
Record system := System {
  sys_world : world;
  directories : gset string;
  console : list line
}.

Definition print (l : line) (s : system) : system :=
  System (sys_world s) (directories s) (console s ++ [l]).

Definition with_world (w : world) (s : system) : system :=
  System w (directories s) (console s).

(** The path [p] names an entry of the directory [d]. *)
Definition in_directory (d p : string) : bool :=
  match Path.split_last "/" p with
  | Some (directory, _) => String.eqb directory d
  | None => false
  end.

(** [os.makedirs(d)] for a directory of one component: the directory
    exists from then on, and [open] no longer misses it for its entries. *)
Definition makedirs (d : string) (s : system) : system :=
  let w := sys_world s in
  System (World (files w) (writes w)
                (filter (fun pr => ¬ (pr.2 = missing_directory ∧ in_directory d pr.1 = true))
                        (refused w)))
         ({[ d ]} ∪ directories s) (console s).

(** The output directories the model follows: a name of one component that
    no file bears.  For another one it does not say what [os.path.exists],
    [os.makedirs] and [open] do. *)
Definition plain_directory (d : string) (s : system) : bool :=
  negb (Str.contains d "/") && negb (String.eqb d ".") && negb (String.eqb d "..") &&
  bool_decide (files (sys_world s) !! d = None).

Section main.
Variable listing : list string → list string.
(** [datetime.now().strftime("%Y%m%d%H%M%S")] *)
Variable timestamp : string.
(** [args.output] *)
Variable output : option string.

(** [f"sorted_{base_name}_{timestamp}{extension}"] *)
Definition output_name (input_file : string) : string :=
  let input_filename_basename := Path.basename input_file in
  let name_parts := Path.splitext input_filename_basename in
  let base_name := name_parts.1 in
  let extension := name_parts.2 in
  "sorted_" +:+ base_name +:+ "_" +:+ timestamp +:+ extension.

(** [if args.output:] holds for a string that is not empty. *)
Definition output_directory : option string :=
  match output with
  | Some d => if String.eqb d EmptyString then None else Some d
  | None => None
  end.

(** The path the sorted file of [input_file] is written to. *)
Definition output_path (input_file : string) : string :=
  match output_directory with
  | Some d => Path.join d (output_name input_file)
  | None => output_name input_file
  end.

(** The output directory is created when it does not exist. *)
Definition prepare (s : system) : option system :=
  match output_directory with
  | Some d =>
      if plain_directory d s
      then Some (if bool_decide (d ∈ directories s) then s else makedirs d s)
      else None
  | None => Some s
  end.

(** One turn of the loop; [None] where the model does not follow the
    program. *)
Definition turn (input_file : string) (s : system) : option system :=
  match prepare s with
  | None => None
  | Some s =>
      let output_filename := output_path input_file in
      if bool_decide (output_filename ∈ directories s) then None else
      let s := print (Reading input_file) s in
      match process_xml_file listing input_file output_filename (sys_world s) with
      | (Returns _, w) =>
          Some (print Rule (print (Saved output_filename) (print Sorted (with_world w s))))
      | (Raises ValueError_CDB_backup, w) =>
          Some (print Rule (print (Failed input_file ValueError_CDB_backup)
                                  (with_world w s)))
      | (Raises e, w) =>
          Some (print Rule (print (Failed input_file e) (with_world w s)))
      | (Unmodelled, _) => None
      end
  end.

(** [for input_file in args.input_files: ...] *)
Fixpoint main (input_files : list string) (s : system) : option system :=
  match input_files with
  | [] => Some s
  | input_file :: input_files' =>
      match turn input_file s with
      | Some s' => main input_files' s'
      | None => None
      end
  end.
End main.

(** * What the properties speak of *)

(** A Python [dict] holds each key once. *)
Fixpoint distinct_keys (d : Node) : bool :=
  match d with
  | Leaf _ => true
  | Sequence l => forallb distinct_keys l
  | Mapping kvs =>
      bool_decide (NoDup (keys kvs)) && forallb (fun kv => distinct_keys kv.2) kvs
  end.

Section key_order.
Variable lower : string → string.

(** [k] occurs in the priority list [l], case-insensitively. *)
Definition listed (l : list string) (k : string) : Prop :=
  ∃ p, p ∈ l ∧ lower p = lower k.

(** [i] is the position of [k] in [l]: the first entry equal to [k] up to
    case. *)
Definition position (l : list string) (k : string) (i : nat) : Prop :=
  (∃ p, l !! i = Some p ∧ lower p = lower k) ∧
  ∀ j q, j < i → l !! j = Some q → lower q ≠ lower k.

Definition by_position (l : list string) (k1 k2 : string) : Prop :=
  ∀ i j, position l k1 i → position l k2 j → i ≤ j.

Definition alphabetical (k1 k2 : string) : Prop :=
  String.leb (lower k1) (lower k2) = true.

(** The keys [ks] are the listed ones by position, then the others in
    case-insensitive alphabetical order. *)
Definition key_order (l : list string) (ks : list string) : Prop :=
  ∃ ps rs,
    ks = ps ++ rs ∧
    Forall (listed l) ps ∧
    Forall (fun k => ¬ listed l k) rs ∧
    StronglySorted (by_position l) ps ∧
    StronglySorted alphabetical rs.

Variable global_keywords : list string.
Variable per_tag_keywords : list (string * list string).

(** Every dictionary of the tree is in key order for the list of its
    parent tag; the items of a list have the parent tag of the list. *)
#[warnings="-register-all"] Inductive ordered_node : option string → Node → Prop :=
| ordered_Leaf t s : ordered_node t (Leaf s)
| ordered_Sequence t l :
    Forall (ordered_node t) l → ordered_node t (Sequence l)
| ordered_Mapping t kvs :
    key_order (resolved_keywords global_keywords per_tag_keywords t) (keys kvs) →
    Forall (fun kv => ordered_node (Some kv.1) kv.2) kvs →
    ordered_node t (Mapping kvs).
End key_order.

(** Every list that is the value of a dictionary key holds two items or
    more. *)
Definition entry_holds_two (v : Node) : bool :=
  match v with
  | Sequence l => 2 <=? length l
  | _ => true
  end.

Fixpoint lists_hold_two (d : Node) : bool :=
  match d with
  | Leaf _ => true
  | Sequence l => forallb lists_hold_two l
  | Mapping kvs =>
      forallb (fun kv => entry_holds_two kv.2 && lists_hold_two kv.2) kvs
  end.

(** The lists of the tree, outermost first, each with its length. *)
Fixpoint list_lengths (d : Node) : list nat :=
  match d with
  | Leaf _ => []
  | Sequence l => length l :: flat_map list_lengths l
  | Mapping kvs => flat_map (fun kv => list_lengths kv.2) kvs
  end.

(** The elements below an element, and the element with them. *)
Fixpoint descendants (e : Element) : list Element :=
  match e with
  | Elem _ _ _ children _ => flat_map (fun c => c :: descendants c) children
  end.

(** The same tree of elements without any attribute. *)
Fixpoint without_attributes (e : Element) : Element :=
  match e with
  | Elem tag _ text children tail =>
      Elem tag [] text (map without_attributes children) tail
  end.

(** The trees [xml_to_dict] builds: a list is the value of a key, holds two
    items or more, and no item of it is a list. *)
Fixpoint canonical (d : Node) : bool :=
  match d with
  | Leaf _ => true
  | Sequence _ => false
  | Mapping kvs =>
      forallb (fun kv => match kv.2 with
                         | Sequence l => (2 <=? length l) && forallb canonical l
                         | _ => canonical kv.2
                         end) kvs
  end.

(** ** Files *)

(** The world after [text] was written to [output]. *)
Definition written (output text : string) (w : world) : world :=
  World (<[output := text]> (files w)) ((output, text) :: writes w) (refused w).

(** A computation that leaves the files as they are. *)
Definition reads_only {A} (m : io A) : Prop := ∀ w, (m w).2 = w.

(** A computation that writes [output] once when it returns and nothing
    when it does not. *)
Definition atomic (output : string) (m : io unit) : Prop :=
  ∀ w, match m w with
       | (Returns _, w') => ∃ text, w' = written output text w
       | (_, w') => w' = w
       end.



(** The world that holds one file, where every path can be written. *)
Definition one_file (path content : string) : world := World {[ path := content ]} [] ∅.



(** ** The documents of the scenarios *)

(** A tree with a list, keys in both cases and keys of the priority lists. *)
Definition example_tree : Node :=
  Mapping [("zeta", Leaf "1");
           ("Name", Sequence [Mapping [("b", Leaf "2"); ("ID", Leaf "3")];
                              Mapping [("id", Leaf "4"); ("a", Leaf "5")]]);
           ("alpha", Leaf "6")].

Definition newline_string : string := String "010"%char EmptyString.

(** A text given line by line. *)
Definition lines (l : list string) : string :=
  Str.concat (map (fun s => s +:+ newline_string) l).

(** [<Root><b>2</b><a>1</a><id>X</id></Root>] *)
Definition scenario_order : string := "<Root><b>2</b><a>1</a><id>X</id></Root>".

(** Two sibling blocks whose payloads are markup. *)
Definition scenario_siblings : string :=
  "<Root>" +:+
  "<TransRouting><profileName>P1</profileName>" +:+
  "<profileXml><![CDATA[<x/>]]></profileXml></TransRouting>" +:+
  "<TransRouting><profileName>P2</profileName>" +:+
  "<profileXml><![CDATA[<y/>]]></profileXml></TransRouting>" +:+
  "</Root>".

(** Two sibling blocks whose payloads are plain text. *)
Definition scenario_plain_payloads : string :=
  "<Root>" +:+
  "<TransRouting><profileName>P1</profileName>" +:+
  "<profileXml><![CDATA[hello]]></profileXml></TransRouting>" +:+
  "<TransRouting><profileName>P2</profileName>" +:+
  "<profileXml><![CDATA[world]]></profileXml></TransRouting>" +:+
  "</Root>".

Definition sorted_siblings : string :=
  lines ["<Root>";
         "    <TransRouting>";
         "        <profileName>P1</profileName>";
         "        <profileXml><![CDATA[<x/>]]></profileXml>";
         "    </TransRouting>";
         "    <TransRouting>";
         "        <profileName>P2</profileName>";
         "        <profileXml><![CDATA[<y/>]]></profileXml>";
         "    </TransRouting>";
         "</Root>"].

(** The sibling blocks of [scenario_siblings] with an attribute on the
    second [profileXml]. *)
Definition scenario_attributed_sibling : string :=
  "<Root>" +:+
  "<TransRouting><profileName>P1</profileName>" +:+
  "<profileXml><![CDATA[<x/>]]></profileXml></TransRouting>" +:+
  "<TransRouting><profileName>P2</profileName>" +:+
  "<profileXml v=" +:+ ET.dq +:+ "1" +:+ ET.dq +:+ "><![CDATA[<y/>]]></profileXml>" +:+
  "</TransRouting></Root>".

Definition written_attributed_sibling : string :=
  lines ["<Root>";
         "    <TransRouting>";
         "        <profileName>P1</profileName>";
         "        <profileXml><![CDATA[<x/>]]></profileXml>";
         "    </TransRouting>";
         "    <TransRouting>";
         "        <profileName>P2</profileName>";
         "        <profileXml><![CDATA[<x/>]]></profileXml>";
         "    </TransRouting>";
         "</Root>"].

(** Escaped markup followed by an escaped []]>]. *)
Definition scenario_bracket : string := "<Root><a>&lt;x/&gt;]]&gt;</a></Root>".

Definition written_bracket : string :=
  lines ["<Root>"; "    <a><![CDATA[<x/>]]>]]></a>"; "</Root>"].

Definition sorted_plain_payloads : string :=
  lines ["<Root>";
         "    <TransRouting>";
         "        <profileName>P1</profileName>";
         "        <profileXml>hello</profileXml>";
         "    </TransRouting>";
         "    <TransRouting>";
         "        <profileName>P2</profileName>";
         "        <profileXml>world</profileXml>";
         "    </TransRouting>";
         "</Root>"].

(** The text of the first child of [e] with the tag [name]. *)
Definition child_text (name : string) (e : Element) : string :=
  match filter (fun c => tag c = name) (children e) with
  | c :: _ => ET.text_of (text c)
  | [] => EmptyString
  end.

(** The blocks of a document: the [profileName] and the [profileXml] of each
    [TransRouting] child of its root. *)
Definition routing_blocks (document : string) : res (list (string * string)) :=
  root ←r ET.parse document;
  Ok (map (fun b => (child_text "profileName" b, child_text "profileXml" b))
          (filter (fun c => tag c = "TransRouting") (children root))).

(** A file with a namespace on its root and attributes on its elements. *)
Definition scenario_namespace : string :=
  "<Root xmlns=" +:+ ET.dq +:+ "urn:x" +:+ ET.dq +:+ " a='1'><b c='2'>1</b><a>2</a></Root>".

Definition sorted_namespace : string :=
  lines ["<Root xmlns=" +:+ ET.dq +:+ "urn:x" +:+ ET.dq +:+ ">";
         "    <a>2</a>";
         "    <b>1</b>";
         "</Root>"].

(** What [process_xml_file] returns and writes for the one file [content];
    sets are listed in the order they were filled. *)
Definition run (listing : list string → list string) (content : string)
  : outcome unit * list (string * string) :=
  let '(r, w) := process_xml_file listing "input.xml" "output.xml"
                                  (one_file "input.xml" content) in
  (r, writes w).





(** A root in a namespace, with an attribute [b], around an escaped XML
    declaration; in [scenario_bar] the value of [b] is a bar. *)
Definition scenario_attribute (value : string) : string :=
  "<Root xmlns=" +:+ ET.dq +:+ "u" +:+ ET.dq +:+ " b=" +:+ ET.dq +:+ value +:+ ET.dq
  +:+ ">&lt;?xml version=" +:+ ET.dq +:+ "1.0" +:+ ET.dq +:+ "?&gt;</Root>".

Definition scenario_bar : string := scenario_attribute "|".

Definition tag_bar : string :=
  "Root xmlns=" +:+ ET.dq +:+ "u" +:+ ET.dq +:+ " b=" +:+ ET.dq +:+ "|" +:+ ET.dq.

Definition written_attribute : string :=
  lines ["<Root xmlns=" +:+ ET.dq +:+ "u" +:+ ET.dq +:+ ">&lt;?xml version="
         +:+ ET.dq +:+ "1.0" +:+ ET.dq +:+ "?&gt;</Root>"].

Definition written_bar : string :=
  lines ["<Root xmlns=" +:+ ET.dq +:+ "u<" +:+ tag_bar +:+ "><![CDATA[<?xml version="
         +:+ ET.dq +:+ "1.0" +:+ ET.dq +:+ "?>]]></Root>"].


(** ** Notions the proofs use *)

(** [x] may stand before [y] in a list sorted on [key]. *)
Definition key_le {A K} (key : A → K) (lt : K → K → bool) (x y : A) : Prop :=
  lt (key y) (key x) = false.

(** What [sort_dict] returns for a dictionary with distinct keys: its items,
    each value sorted under its key, in the stable order of
    [priority_key_func]. *)
Definition sorted_items (lower : string → string) (global_keywords : list string)
    (per_tag_keywords : list (string * list string)) (t : option string)
    (kvs : list (string * Node)) : list (string * Node) :=
  sorted (priority_key_func lower global_keywords per_tag_keywords t) sort_key_lt
         (map (fun kv => (kv.1, sort_dict lower global_keywords per_tag_keywords
                                          kv.2 (Some kv.1))) kvs).

(** A value of a key in a tree [xml_to_dict] builds. *)
Definition canonical_entry (v : Node) : bool :=
  match v with
  | Sequence l => (2 <=? length l) && forallb canonical l
  | _ => canonical v
  end.

(** An element with the attributes [attrs] and no attribute below it. *)
Definition bare_below (attrs : list (string * string)) (e : Element) : Prop :=
  attrib e = attrs ∧ Forall (fun c => attrib c = []) (descendants e).



(** The pattern [\{(.+?)\}] once read. *)
Definition namespace_regex : Re.regex :=
  Re.Cat (Re.One (Re.Lit "{"))
         (Re.Cat (Re.Group 1 (Re.Repeat Re.Dot 1 false)) (Re.One (Re.Lit "}"))).

(** The trees that come back unchanged from the elements made of them: the
    leaves are stripped, a dictionary is not empty, its keys are distinct
    and free of namespace, and its lists are those of [canonical]. *)
Fixpoint faithful (d : Node) : bool :=
  match d with
  | Leaf s => String.eqb (Str.strip s) s
  | Sequence _ => false
  | Mapping kvs =>
      negb (bool_decide (kvs = [])) &&
      bool_decide (NoDup (keys kvs)) &&
      forallb (fun kv =>
                 String.eqb (strip_namespace kv.1) kv.1 &&
                 match kv.2 with
                 | Sequence l => (2 <=? length l) && forallb faithful l
                 | _ => faithful kv.2
                 end) kvs
  end.

Definition faithful_entry (v : Node) : bool :=
  match v with
  | Sequence l => (2 <=? length l) && forallb faithful l
  | _ => faithful v
  end.

(** The character [sep] does not occur in [s]. *)
Fixpoint free_of (sep : ascii) (s : string) : bool :=
  match s with
  | EmptyString => true
  | String c s' => negb (Ascii.eqb c sep) && free_of sep s'
  end.

(** One turn of the loop of [xml_to_dict]. *)
Definition add_element (result : list (string * Node)) (child : Element)
  : list (string * Node) :=
  add_child result (strip_namespace (tag child)) (xml_to_dict child).

(** The elements [dict_to_xml] makes for the key [key] and its value. *)
Definition entry_elements (key : string) (val : Node) : res (list Element) :=
  match val with
  | Sequence l => res_mapM (fun item => dict_to_xml key item None) l
  | _ => child ←r dict_to_xml key val None; Ok [child]
  end.

(** The keys and values of a faithful dictionary. *)
Definition entries_faithful (kvs : list (string * Node)) : Prop :=
  Forall (fun kv => strip_namespace kv.1 = kv.1 ∧ faithful_entry kv.2 = true) kvs.

(** ** What [xml_to_dict] keeps of an element *)

(** The tag of an element without its namespace. *)
Definition local_tag (e : Element) : string := strip_namespace (tag e).

(** The distinct members of [l] in the order of their first occurrence. *)
Fixpoint first_occurrences (l : list string) : list string :=
  match l with
  | [] => []
  | x :: l' => x :: filter (fun y => y ≠ x) (first_occurrences l')
  end.

(** The values a dictionary holds under a key: the items of a list, the
    value itself when it is no list, nothing when the key is missing. *)
Definition entry_items (v : Node) : list Node :=
  match v with
  | Sequence l => l
  | _ => [v]
  end.

Definition items_under (k : string) (d : Node) : list Node :=
  match d with
  | Mapping kvs =>
      match dict_get k kvs with
      | Some v => entry_items v
      | None => []
      end
  | _ => []
  end.

(** The text [xml_to_dict] returns for an element without children. *)
Definition leaf_text (text : option string) : string :=
  match text with
  | Some t => Str.strip t
  | None => EmptyString
  end.

(** The element as [xml_to_dict] reads it: local tags, no attribute, no
    tail, no text beside child elements, and the text of an element without
    children stripped. *)
Fixpoint seen (e : Element) : Element :=
  match e with
  | Elem tag _ text children _ =>
      Elem (strip_namespace tag) []
           (match children with
            | [] => Some (leaf_text text)
            | _ => None
            end)
           (map seen children) None
  end.

(** ** Trees up to the order of the keys *)

(** The same dictionaries with the items in another order; the lists keep
    their order. *)
#[warnings="-register-all"] Inductive reordered : Node → Node → Prop :=
| reordered_Leaf s : reordered (Leaf s) (Leaf s)
| reordered_Sequence l l' :
    Forall2 reordered l l' → reordered (Sequence l) (Sequence l')
| reordered_Mapping kvs kvs' kvs'' :
    kvs ≡ₚ kvs'' →
    Forall2 (fun a b => a.1 = b.1 ∧ reordered a.2 b.2) kvs'' kvs' →
    reordered (Mapping kvs) (Mapping kvs').

(** No two keys of a dictionary are equal up to case. *)
Fixpoint case_distinct (lower : string → string) (d : Node) : bool :=
  match d with
  | Leaf _ => true
  | Sequence l => forallb (case_distinct lower) l
  | Mapping kvs =>
      bool_decide (NoDup (map lower (keys kvs))) &&
      forallb (fun kv => case_distinct lower kv.2) kvs
  end.

(** ** Elements up to the order of the siblings *)

(** The children with one tag correspond, in their order, for every tag;
    corresponding children are related in the same way. *)
#[warnings="-register-all"] Inductive rearranged : Element → Element → Prop :=
| rearranged_Elem t a x tl cs cs' :
    (∀ k, Forall2 rearranged (filter (fun c => tag c = k) cs)
                             (filter (fun c => tag c = k) cs')) →
    rearranged (Elem t a x cs tl) (Elem t a x cs' tl).

(** The tags come in runs, each tag in one run. *)
Definition in_runs (tags : list string) : Prop :=
  ∃ runs : list (string * nat),
    NoDup runs.*1 ∧ tags = flat_map (fun r => replicate r.2 r.1) runs.

(** ** What a pattern can match *)

(** [t] occurs in [s]. *)
Definition substring (t s : string) : Prop := ∃ a b, s = a +:+ t +:+ b.

(** Every character of [s] matches the item [a]. *)
Fixpoint all_match (dotall : bool) (a : Re.atom) (s : string) : bool :=
  match s with
  | EmptyString => true
  | String c s' => Re.atom_matches dotall a c && all_match dotall a s'
  end.

(** The texts a pattern can match, with the texts its groups capture, the
    latest first; a back-reference is taken to match any text. *)
Inductive spans (dotall : bool) : Re.regex → string → list (nat * string) → Prop :=
| spans_Empty : spans dotall Re.Empty EmptyString []
| spans_One a c :
    Re.atom_matches dotall a c = true →
    spans dotall (Re.One a) (String c EmptyString) []
| spans_Repeat a min greedy s :
    min ≤ String.length s → all_match dotall a s = true →
    spans dotall (Re.Repeat a min greedy) s []
| spans_Cat r1 r2 s1 s2 g1 g2 :
    spans dotall r1 s1 g1 → spans dotall r2 s2 g2 →
    spans dotall (Re.Cat r1 r2) (s1 +:+ s2) (g2 ++ g1)
| spans_Or_l r1 r2 s g : spans dotall r1 s g → spans dotall (Re.Or r1 r2) s g
| spans_Or_r r1 r2 s g : spans dotall r2 s g → spans dotall (Re.Or r1 r2) s g
| spans_Group n r s g : spans dotall r s g → spans dotall (Re.Group n r) s ((n, s) :: g)
| spans_Backref n s : spans dotall (Re.Backref n) s [].

(** The groups as a match object holds them, without their places. *)
Definition group_texts (caps : Re.captures) : list (nat * string) :=
  map (fun c => (c.1, c.2.2)) caps.



(** A match found in [s]: its text is a text of the pattern that occurs in
    [s], and the texts of its groups occur in it. *)
Definition match_in (dotall : bool) (r : Re.regex) (s : string) (m : Re.match_) : Prop :=
  substring (Re.m_text m) s ∧
  spans dotall r (Re.m_text m) (group_texts (Re.m_groups m)) ∧
  Forall (fun c => substring c.2.2 (Re.m_text m)) (Re.m_groups m).

(** ** Files without CDATA section and without escaped markup *)



(** ** Context keys *)

(** The part [type=value] of a context key. *)
Definition identifier_part (i : string * string) : string := i.1 +:+ "=" +:+ i.2.

(** The sections of a catalogue whose CDATA section is in an element with
    the tag [element_tag], each with its context. *)
Definition sections_of (element_tag : string) (cdata_sections : list (string * string * string))
  : list (string * string) :=
  map (fun section => (section.1.1, section.2))
      (filter (fun section => section.1.2 = element_tag) cdata_sections).

(** ** The console *)

(** What the console holds of the turn of [input_file]: that the file is
    read, and then either that it was sorted and where it was saved, or that
    it failed and with which exception; a rule of dashes ends the turn. *)
Definition report (timestamp : string) (output : option string) (input_file : string)
    (ls : list line) : Prop :=
  ls = [Reading input_file; Sorted; Saved (output_path timestamp output input_file); Rule] ∨
  ∃ e, ls = [Reading input_file; Failed input_file e; Rule].

(** A run of the program on three files: one that sorts, one that is
    missing and one that is refused. *)
Definition scenario_system : system :=
  System (World {[ "a.xml" := scenario_order; "dir/c.xml" := "<config></config>" ]} [] ∅)
         ∅ [].

Definition scenario_batch : list string := ["a.xml"; "b.xml"; "dir/c.xml"].

(** ** What the scanners catalogue *)

(** Every match of the pattern captures the group [n]: a test that answers
    [true] only for such patterns. *)
Fixpoint sets (n : nat) (r : Re.regex) : bool :=
  match r with
  | Re.Cat r1 r2 => sets n r1 || sets n r2
  | Re.Or r1 r2 => sets n r1 && sets n r2
  | Re.Group n' r' => (n =? n') || sets n r'
  | _ => false
  end.

(** Every character of [s] satisfies [p]. *)
Fixpoint all_of (p : ascii → bool) (s : string) : bool :=
  match s with
  | EmptyString => true
  | String c s' => p c && all_of p s'
  end.

(** The text [content] holds a CDATA section with the text [payload]
    straight after a tag, white space apart, and [tag] is what stands
    between the angle brackets of that tag, stripped. *)
Definition cdata_section_in (content tag payload : string) : Prop :=
  ∃ written_tag space,
    tag = Str.strip written_tag ∧
    written_tag ≠ EmptyString ∧
    free_of ">" written_tag = true ∧
    all_of Str.is_space space = true ∧
    substring ("<" +:+ written_tag +:+ ">" +:+ space +:+ "<![CDATA[" +:+ payload +:+ "]]>")
              content.

(** The pattern [cdata_pattern_in_block] once read. *)
Definition cdata_regex : Re.regex :=
  Eval vm_compute in
    match Re.compile cdata_pattern_in_block with
    | Some r => r
    | None => Re.Empty
    end.

(** The pattern [xml_decl_pattern] once read. *)
Definition xml_decl_regex : Re.regex :=
  Eval vm_compute in
    match Re.compile xml_decl_pattern with
    | Some r => r
    | None => Re.Empty
    end.

(** The key [key] is what stands between the angle brackets of a tag of
    [content], stripped, and is not empty. *)
Definition tag_in (content key : string) : Prop :=
  ∃ written_tag,
    key = Str.strip written_tag ∧
    key ≠ EmptyString ∧
    written_tag ≠ EmptyString ∧
    free_of ">" written_tag = true ∧
    substring ("<" +:+ written_tag +:+ ">") content.





(** ** The final write *)



(** ** What [prettify] prints *)











(** * Properties *)

Lemma filter_none {A} (P : A → Prop) `{!∀ x, Decision (P x)} (l : list A) :
  (∀ x, x ∈ l → ¬ P x) → filter P l = [].
Proof.
  induction l as [|x l IH]; intros Hl; [done|].
  rewrite filter_cons_False by (apply Hl; left).
  apply IH. intros y Hy. apply Hl. by right.
Qed.

(** ** [sorted] is the stable sort *)

Section sorted_facts.
Context {A K : Type} `{!EqDecision K} (key : A → K) (lt : K → K → bool).
Hypothesis lt_irrefl : ∀ a, lt a a = false.
Hypothesis lt_trans : ∀ a b c, lt a b = true → lt b c = true → lt a c = true.
Hypothesis lt_total : ∀ a b, lt a b = false → lt b a = false → a = b.

Lemma lt_asym a b : lt a b = true → lt b a = false.
Proof.
  intros Hab. destruct (lt b a) eqn:Hba; [|done].
  by rewrite <-(lt_irrefl a), <-(lt_trans a b a Hab Hba).
Qed.

Lemma key_le_trans x y z : (key_le key lt) x y → (key_le key lt) y z → (key_le key lt) x z.
Proof.
  unfold key_le. intros Hxy Hyz.
  destruct (lt (key z) (key x)) eqn:Hzx; [|done].
  destruct (lt (key x) (key y)) eqn:Hlt.
  - by rewrite (lt_trans _ _ _ Hzx Hlt) in Hyz.
  - rewrite <-(lt_total _ _ Hxy Hlt) in Hzx. congruence.
Qed.

Lemma insert_item_perm x l : insert_item key lt x l ≡ₚ x :: l.
Proof.
  induction l as [|y l IH]; simpl; [done|].
  destruct (lt (key y) (key x)); [|done].
  by rewrite IH, Permutation_swap.
Qed.

Lemma sorted_perm l : sorted key lt l ≡ₚ l.
Proof.
  induction l as [|x l IH]; simpl; [done|].
  by rewrite insert_item_perm, IH.
Qed.

Lemma insert_item_sorted x l :
  StronglySorted (key_le key lt) l → StronglySorted (key_le key lt) (insert_item key lt x l).
Proof.
  induction 1 as [|y l Hl IH Hy]; simpl.
  { repeat constructor. }
  destruct (lt (key y) (key x)) eqn:Hyx.
  - constructor; [done|].
    rewrite insert_item_perm. constructor; [|done].
    by apply lt_asym.
  - constructor; [by constructor|].
    constructor; [done|].
    eapply Forall_impl; [exact Hy|]. intros z Hz.
    by apply key_le_trans with y.
Qed.

Lemma sorted_sorted l : StronglySorted (key_le key lt) (sorted key lt l).
Proof.
  induction l; simpl; [constructor|]. by apply insert_item_sorted.
Qed.

(** Sorting a sorted list changes nothing. *)
Lemma sorted_id l : StronglySorted (key_le key lt) l → sorted key lt l = l.
Proof.
  induction 1 as [|x l Hl IH Hx]; simpl; [done|].
  rewrite IH. destruct l as [|y l]; simpl; [done|].
  apply Forall_cons in Hx as [Hxy _]. unfold key_le in Hxy. by rewrite Hxy.
Qed.

(** Stability: the items of one key keep their order. *)
Lemma insert_item_filter c x l :
  filter (λ a, key a = c) (insert_item key lt x l)
  = filter (λ a, key a = c) (x :: l).
Proof.
  induction l as [|y l IH]; simpl; [done|].
  destruct (lt (key y) (key x)) eqn:Hyx; [|done].
  rewrite filter_cons, IH, !filter_cons.
  destruct (decide (key y = c)) as [Hy|], (decide (key x = c)) as [Hx|];
    try done.
  rewrite Hy, Hx, lt_irrefl in Hyx. done.
Qed.

Lemma sorted_filter c l :
  filter (λ a, key a = c) (sorted key lt l) = filter (λ a, key a = c) l.
Proof.
  induction l as [|x l IH]; simpl; [done|].
  by rewrite insert_item_filter, !filter_cons, IH.
Qed.

(** Two sorted lists in which the items of every key come in the same
    order are the same list. *)
Lemma sorted_unique l1 l2 :
  StronglySorted (key_le key lt) l1 → StronglySorted (key_le key lt) l2 →
  (∀ c, filter (λ a, key a = c) l1 = filter (λ a, key a = c) l2) →
  l1 = l2.
Proof.
  intros H1. revert l2.
  induction H1 as [|x l1 Hl1 IH Hx]; intros l2 H2 Hf.
  { destruct l2 as [|y l2]; [done|].
    specialize (Hf (key y)). rewrite filter_nil, filter_cons_True in Hf; done. }
  destruct H2 as [|y l2 Hl2 Hy].
  { specialize (Hf (key x)). rewrite filter_nil, filter_cons_True in Hf; done. }
  assert (key x = key y) as Hk.
  { assert (x ∈ y :: l2) as Hx2.
    { eapply (list_elem_of_filter (λ a, key a = key x)).
      rewrite <-Hf, filter_cons_True; [left|done]. }
    assert (y ∈ x :: l1) as Hy1.
    { eapply (list_elem_of_filter (λ a, key a = key y)).
      rewrite Hf, filter_cons_True; [left|done]. }
    apply elem_of_cons in Hx2 as [->|Hx2]; [done|].
    apply elem_of_cons in Hy1 as [->|Hy1]; [done|].
    rewrite Forall_forall in Hx, Hy.
    symmetry. apply lt_total; [apply Hx|apply Hy]; done. }
  pose proof (Hf (key x)) as Hfx.
  rewrite filter_cons_True, (filter_cons_True _ y) in Hfx; [|done..].
  injection Hfx as -> Hfx. f_equal. apply IH; [done|].
  intros c. destruct (decide (key y = c)) as [<-|Hc]; [done|].
  specialize (Hf c). rewrite !filter_cons_False in Hf; [done|congruence..].
Qed.

Lemma sorted_spec l l' :
  StronglySorted (key_le key lt) l' →
  (∀ c, filter (λ a, key a = c) l' = filter (λ a, key a = c) l) →
  sorted key lt l = l'.
Proof.
  intros Hs Hf. apply sorted_unique; [apply sorted_sorted|done|].
  intros c. by rewrite sorted_filter.
Qed.
End sorted_facts.

(** Sorting first on a key and then on an injective image of that key is
    sorting on the image. *)
Section sorted_twice.
Context {A K1 K2 : Type} `{!EqDecision K1, !EqDecision K2}.
Context (key1 : A → K1) (lt1 : K1 → K1 → bool).
Context (key2 : A → K2) (lt2 : K2 → K2 → bool).
Hypothesis lt1_irrefl : ∀ a, lt1 a a = false.
Hypothesis lt2_irrefl : ∀ a, lt2 a a = false.
Hypothesis lt2_trans : ∀ a b c, lt2 a b = true → lt2 b c = true → lt2 a c = true.
Hypothesis lt2_total : ∀ a b, lt2 a b = false → lt2 b a = false → a = b.
Hypothesis key2_key1 : ∀ x y, key2 x = key2 y ↔ key1 x = key1 y.

Lemma sorted_twice l :
  sorted key2 lt2 (sorted key1 lt1 l) = sorted key2 lt2 l.
Proof.
  symmetry. apply sorted_spec; [done..|by apply sorted_sorted|].
  intros c. rewrite sorted_filter by done.
  destruct (decide (Exists (λ a, key2 a = c) l)) as [Hex|Hex].
  - apply Exists_exists in Hex as (x0 & _ & <-).
    rewrite !(list_filter_iff (λ a, key2 a = key2 x0) (λ a, key1 a = key1 x0))
      by (intros; apply key2_key1).
    by rewrite sorted_filter.
  - rewrite Exists_exists in Hex.
    rewrite !filter_none; [done|intros x Hx ?..]; apply Hex; exists x.
    + done.
    + by rewrite <-(sorted_perm key1 lt1 l).
Qed.
End sorted_twice.

(** ** Induction on trees *)

Lemma Node_ind' (P : Node → Prop) :
  (∀ s, P (Leaf s)) →
  (∀ l, Forall P l → P (Sequence l)) →
  (∀ kvs, Forall (λ kv, P kv.2) kvs → P (Mapping kvs)) →
  ∀ d, P d.
Proof.
  intros HL HS HM. fix IH 1. intros [s|l|kvs].
  - apply HL.
  - apply HS. induction l as [|x l IHl]; constructor; [apply IH|apply IHl].
  - apply HM. induction kvs as [|[k v] kvs IHl]; constructor; [apply IH|apply IHl].
Qed.

Lemma Element_ind' (P : Element → Prop) :
  (∀ t a x cs tl, Forall P cs → P (Elem t a x cs tl)) → ∀ e, P e.
Proof.
  intros H. fix IH 1. intros [t a x cs tl]. apply H.
  induction cs as [|c cs IHl]; constructor; [apply IH|apply IHl].
Qed.

(** ** Dictionaries *)

Section dict_facts.
Context {V : Type}.
Implicit Types d : list (string * V).

Lemma dict_get_None k d : dict_get k d = None ↔ k ∉ keys d.
Proof.
  unfold keys. induction d as [|[k' v] d IH]; csimpl.
  - split; [intros _; apply not_elem_of_nil|done].
  - rewrite not_elem_of_cons, <-IH.
    destruct (String.eqb_spec k k') as [->|Hne]; [|tauto].
    split; [done|]. by intros [? _].
Qed.

Lemma dict_get_Some k v d : dict_get k d = Some v → (k, v) ∈ d.
Proof.
  induction d as [|[k' v'] d IH]; simpl; [done|].
  destruct (String.eqb_spec k k') as [->|]; [intros [= ->]; left|right; auto].
Qed.

Lemma dict_set_new k v d : k ∉ keys d → dict_set k v d = d ++ [(k, v)].
Proof.
  unfold keys. induction d as [|[k' v'] d IH]; csimpl; [done|].
  rewrite not_elem_of_cons. intros [Hk Hd].
  destruct (String.eqb_spec k k'); [done|]. by rewrite IH.
Qed.

Lemma keys_dict_set_old k v d : k ∈ keys d → keys (dict_set k v d) = keys d.
Proof.
  unfold keys. induction d as [|[k' v'] d IH]; csimpl.
  - by intros ?%elem_of_nil.
  - destruct (String.eqb_spec k k') as [->|]; csimpl; [done|].
    intros [?|?]%elem_of_cons; [done|]. by rewrite IH.
Qed.

(** The items of a dictionary after an assignment. *)
Lemma elem_of_dict_set k v d kv :
  kv ∈ dict_set k v d → kv = (k, v) ∨ kv ∈ d.
Proof.
  induction d as [|[k' v'] d IH]; simpl.
  - intros ->%list_elem_of_singleton. by left.
  - destruct (String.eqb_spec k k') as [->|Hne].
    + intros [->|?]%elem_of_cons; [by left|right; by right].
    + intros [->|Hin]%elem_of_cons; [right; left|].
      destruct (IH Hin) as [->|?]; [by left|right; by right].
Qed.

Lemma elem_of_OrderedDict (items : list (string * V)) kv :
  kv ∈ OrderedDict items → kv ∈ items.
Proof.
  unfold OrderedDict.
  enough (∀ acc, kv ∈ fold_left (λ d kv, dict_set kv.1 kv.2 d) items acc →
                 kv ∈ acc ∨ kv ∈ items) as H.
  { intros Hin. destruct (H [] Hin) as [?%elem_of_nil|?]; done. }
  induction items as [|[k v] items IH]; intros acc; simpl; [by left|].
  intros [[->|?]%elem_of_dict_set|?]%IH.
  - right; left.
  - by left.
  - right; by right.
Qed.

Lemma OrderedDict_distinct (items : list (string * V)) :
  NoDup (keys items) → OrderedDict items = items.
Proof.
  unfold OrderedDict.
  enough (∀ acc, NoDup (keys (acc ++ items)) →
            fold_left (λ d kv, dict_set kv.1 kv.2 d) items acc = acc ++ items)
    as H by (apply (H [])).
  induction items as [|[k v] items IH]; intros acc Hnd; simpl.
  - by rewrite app_nil_r.
  - rewrite dict_set_new.
    + rewrite IH; rewrite <-app_assoc; done.
    + unfold keys in *. rewrite fmap_app, fmap_cons in Hnd.
      apply NoDup_app in Hnd as (_ & Hnd & _).
      intros Hk. apply (Hnd k Hk). left.
Qed.
End dict_facts.

(** ** The two orders the sorter compares with *)

Lemma string_compare_OT s t : String.compare s t = String_as_OT.compare s t.
Proof.
  revert t. induction s as [|a s IH]; intros [|b t]; by simpl.
Qed.

Lemma string_ltb_lt s t : String.ltb s t = true ↔ String_as_OT.lt s t.
Proof.
  unfold String.ltb, String_as_OT.lt. rewrite string_compare_OT.
  by destruct (String_as_OT.compare s t).
Qed.

Lemma string_ltb_irrefl s : String.ltb s s = false.
Proof.
  apply not_true_is_false. rewrite string_ltb_lt.
  apply (irreflexivity String_as_OT.lt).
Qed.

Lemma string_ltb_trans s t u :
  String.ltb s t = true → String.ltb t u = true → String.ltb s u = true.
Proof. rewrite !string_ltb_lt. apply (transitivity (R:=String_as_OT.lt)). Qed.

Lemma string_ltb_total s t :
  String.ltb s t = false → String.ltb t s = false → s = t.
Proof.
  unfold String.ltb. rewrite (String.compare_antisym t s).
  destruct (String.compare s t) eqn:Hc; simpl; try done.
  intros _ _. by apply String.compare_eq_iff.
Qed.

Lemma string_leb_ltb s t : String.leb s t = negb (String.ltb t s).
Proof.
  unfold String.leb, String.ltb. rewrite (String.compare_antisym t s).
  by destruct (String.compare s t).
Qed.

Global Instance sort_key_eq_dec : EqDecision sort_key.
Proof. solve_decision. Defined.

Lemma sort_key_lt_irrefl a : sort_key_lt a a = false.
Proof. destruct a; simpl; [apply Nat.ltb_irrefl|apply string_ltb_irrefl]. Qed.

Lemma sort_key_lt_trans a b c :
  sort_key_lt a b = true → sort_key_lt b c = true → sort_key_lt a c = true.
Proof.
  destruct a, b, c; simpl; try done.
  - rewrite !Nat.ltb_lt. lia.
  - apply string_ltb_trans.
Qed.

Lemma sort_key_lt_total a b :
  sort_key_lt a b = false → sort_key_lt b a = false → a = b.
Proof.
  destruct a, b; simpl; try done.
  - rewrite !Nat.ltb_ge. intros. f_equal. lia.
  - intros. f_equal. by apply string_ltb_total.
Qed.

(** ** [priority_key_func] *)

Section sorter_facts.
Variable lower : string → string.
Variable global_keywords : list string.
Variable per_tag_keywords : list (string * list string).

Abbreviation resolved := (resolved_keywords global_keywords per_tag_keywords).
Abbreviation pkey := (priority_key_func lower global_keywords per_tag_keywords).
Abbreviation sort := (sort_dict lower global_keywords per_tag_keywords).
Abbreviation ordered := (ordered_node lower global_keywords per_tag_keywords).
Abbreviation items_of := (sorted_items lower global_keywords per_tag_keywords).

Lemma first_match_Some kl n l i :
  first_match lower kl n l = Some i →
  n ≤ i ∧ (∃ p, l !! (i - n) = Some p ∧ lower p = kl) ∧
  ∀ j q, j < i - n → l !! j = Some q → lower q ≠ kl.
Proof.
  revert n. induction l as [|p l IH]; intros n; simpl; [done|].
  destruct (String.eqb_spec kl (lower p)) as [->|Hne].
  - intros [= <-]. rewrite Nat.sub_diag. split; [done|].
    split; [by exists p|]. intros j q Hj. lia.
  - intros (Hle & (p' & Hp' & Hl) & Hbefore)%IH.
    split; [lia|]. replace (i - n) with (S (i - S n)) by lia.
    split; [by exists p'|].
    intros [|j] q Hj; simpl; [congruence|].
    apply Hbefore. lia.
Qed.

Lemma first_match_None kl n l :
  first_match lower kl n l = None → ∀ p, p ∈ l → lower p ≠ kl.
Proof.
  revert n. induction l as [|p l IH]; intros n; simpl.
  - by intros _ q ?%elem_of_nil.
  - destruct (String.eqb_spec kl (lower p)) as [->|Hne]; [done|].
    intros Hn q [->|Hq]%elem_of_cons; [done|]. by eapply IH.
Qed.

Lemma position_unique l k i j :
  position lower l k i → position lower l k j → i = j.
Proof.
  intros [(p & Hp & Hpk) Hi] [(q & Hq & Hqk) Hj].
  destruct (Nat.lt_trichotomy i j) as [Hlt|[->|Hlt]]; [|done|].
  - by destruct (Hj i p Hlt Hp).
  - by destruct (Hi j q Hlt Hq).
Qed.

Lemma pkey_Prio t kv i :
  pkey t kv = Prio i → position lower (resolved t) kv.1 i.
Proof.
  unfold priority_key_func.
  destruct (first_match _ _ _ _) as [i'|] eqn:Hfm; intros [= <-].
  apply first_match_Some in Hfm as (_ & Hp & Hb).
  rewrite Nat.sub_0_r in Hp, Hb. by split.
Qed.

Lemma pkey_Alpha t kv s :
  pkey t kv = Alpha s → s = lower kv.1 ∧ ¬ listed lower (resolved t) kv.1.
Proof.
  unfold priority_key_func.
  destruct (first_match _ _ _ _) as [i'|] eqn:Hfm; intros [= <-].
  split; [done|]. intros (p & Hp & Hpk).
  by eapply first_match_None.
Qed.

Lemma position_listed l k i : position lower l k i → listed lower l k.
Proof.
  intros [(p & Hp & Hpk) _]. exists p. split; [|done].
  by eapply list_elem_of_lookup_2.
Qed.

(** The key of an item is decided by the lowered key of the item, and
    decides it. *)
Lemma pkey_lower t x y : pkey t x = pkey t y ↔ lower x.1 = lower y.1.
Proof.
  split.
  - destruct (pkey t x) as [i|s] eqn:Hx; intros Hy; symmetry in Hy.
    + apply pkey_Prio in Hx as [(p & Hp & <-) _].
      apply pkey_Prio in Hy as [(q & Hq & <-) _]. congruence.
    + apply pkey_Alpha in Hx as [-> _]. by apply pkey_Alpha in Hy as [-> _].
  - unfold priority_key_func. by intros ->.
Qed.

(** A list sorted on [priority_key_func] is in key order. *)
Lemma sorted_key_order t (items : list (string * Node)) :
  StronglySorted (key_le (pkey t) sort_key_lt) items →
  key_order lower (resolved t) (keys items).
Proof.
  unfold keys. induction 1 as [|x items Hs IH Hx].
  { exists [], []. repeat split; constructor. }
  destruct IH as (ps & rs & Hks & Hps & Hrs & Sps & Srs).
  destruct (pkey t x) as [i|s] eqn:Hkx.
  - exists (x.1 :: ps), rs. csimpl. rewrite Hks.
    split; [done|]. split.
    { constructor; [|done]. eapply position_listed, pkey_Prio, Hkx. }
    split; [done|]. split; [|done].
    constructor; [done|].
    apply Forall_forall. intros k Hk a b Ha Hb.
    assert (k ∈ items.*1) as (y & -> & Hy)%list_elem_of_fmap.
    { rewrite Hks. apply elem_of_app. by left. }
    rewrite Forall_forall in Hx. specialize (Hx y Hy).
    unfold key_le in Hx. rewrite Hkx in Hx.
    rewrite (position_unique _ _ _ _ Ha (pkey_Prio _ _ _ Hkx)).
    destruct (pkey t y) as [j|s] eqn:Hky.
    + rewrite (position_unique _ _ _ _ Hb (pkey_Prio _ _ _ Hky)).
      simpl in Hx. apply Nat.ltb_ge in Hx. done.
    + apply pkey_Alpha in Hky as [_ []]. by eapply position_listed.
  - assert (ps = []) as ->.
    { destruct ps as [|k ps]; [done|].
      assert (k ∈ items.*1) as (y & -> & Hy)%list_elem_of_fmap.
      { rewrite Hks. left. }
      apply Forall_cons in Hps as [(p & Hp & Hpk) _].
      rewrite Forall_forall in Hx. specialize (Hx y Hy).
      unfold key_le in Hx. rewrite Hkx in Hx.
      destruct (pkey t y) as [j|s'] eqn:Hky; [done|].
      apply pkey_Alpha in Hky as [_ []]. by exists p. }
    simpl in Hks. exists [], (x.1 :: rs). csimpl. rewrite Hks.
    split; [done|]. split; [constructor|].
    destruct (pkey_Alpha _ _ _ Hkx) as [-> Hnl].
    split; [by constructor|]. split; [constructor|].
    constructor; [done|].
    apply Forall_forall. intros k Hk.
    assert (k ∈ items.*1) as (y & -> & Hy)%list_elem_of_fmap by by rewrite Hks.
    rewrite Forall_forall in Hx. specialize (Hx y Hy).
    unfold key_le in Hx. rewrite Hkx in Hx.
    unfold alphabetical. rewrite string_leb_ltb.
    destruct (pkey t y) as [j|s'] eqn:Hky; [done|].
    apply pkey_Alpha in Hky as [-> _]. simpl in Hx. by rewrite Hx.
Qed.

(** ** [sort_dict] *)

Lemma sorted_pkey_twice t (items : list (string * Node)) :
  sorted (pkey t) sort_key_lt (sorted (λ x, lower x.1) String.ltb items)
  = sorted (pkey t) sort_key_lt items.
Proof.
  apply sorted_twice.
  - apply string_ltb_irrefl.
  - apply sort_key_lt_irrefl.
  - apply sort_key_lt_trans.
  - apply sort_key_lt_total.
  - apply pkey_lower.
Qed.

Lemma keys_sorted_items t kvs : keys (items_of t kvs) ≡ₚ keys kvs.
Proof.
  unfold sorted_items, keys.
  rewrite (sorted_perm (pkey t) sort_key_lt).
  by rewrite <-list_fmap_compose.
Qed.

Lemma sort_dict_Mapping t kvs :
  NoDup (keys kvs) → sort (Mapping kvs) t = Mapping (items_of t kvs).
Proof.
  intros Hnd. simpl. rewrite sorted_pkey_twice.
  change (sorted _ _ _) with (items_of t kvs).
  rewrite OrderedDict_distinct; [done|].
  by rewrite keys_sorted_items.
Qed.

Lemma sorted_items_sorted t kvs :
  StronglySorted (key_le (pkey t) sort_key_lt) (items_of t kvs).
Proof.
  apply sorted_sorted;
    [apply sort_key_lt_irrefl|apply sort_key_lt_trans|apply sort_key_lt_total].
Qed.

Lemma elem_of_sorted_items t kvs kv :
  kv ∈ items_of t kvs ↔ ∃ kv0, kv0 ∈ kvs ∧ kv = (kv0.1, sort kv0.2 (Some kv0.1)).
Proof.
  unfold sorted_items. rewrite (sorted_perm (pkey t) sort_key_lt).
  rewrite list_elem_of_fmap.
  split; intros (kv0 & ? & ?); by exists kv0.
Qed.

Lemma distinct_keys_Mapping kvs :
  distinct_keys (Mapping kvs) = true →
  NoDup (keys kvs) ∧ Forall (λ kv, distinct_keys kv.2 = true) kvs.
Proof.
  simpl. intros [Hnd Hall]%andb_prop.
  split; [by apply bool_decide_eq_true in Hnd|].
  apply Forall_forall. intros kv Hkv%list_elem_of_In.
  rewrite forallb_forall in Hall. by apply Hall.
Qed.

Lemma sort_dict_ordered d t :
  distinct_keys d = true → ordered t (sort d t).
Proof.
  revert t. induction d as [s|l IH|kvs IH] using Node_ind'; intros t Hd.
  - constructor.
  - simpl. constructor. apply Forall_fmap, Forall_forall. intros x Hx.
    rewrite Forall_forall in IH. apply IH; [done|].
    simpl in Hd. rewrite forallb_forall in Hd. by apply Hd, list_elem_of_In.
  - apply distinct_keys_Mapping in Hd as [Hnd Hall].
    rewrite sort_dict_Mapping by done. constructor.
    + apply sorted_key_order, sorted_items_sorted.
    + apply Forall_forall. intros kv (kv0 & Hkv0 & ->)%elem_of_sorted_items.
      rewrite Forall_forall in IH, Hall. simpl. by apply IH; [|apply Hall].
Qed.

Lemma sort_dict_idempotent d t :
  distinct_keys d = true → sort (sort d t) t = sort d t.
Proof.
  revert t. induction d as [s|l IH|kvs IH] using Node_ind'; intros t Hd.
  - done.
  - simpl. f_equal. rewrite <-list_fmap_compose.
    apply list_fmap_ext. intros i x Hx%list_elem_of_lookup_2. simpl.
    rewrite Forall_forall in IH. apply IH; [done|].
    simpl in Hd. rewrite forallb_forall in Hd. by apply Hd, list_elem_of_In.
  - apply distinct_keys_Mapping in Hd as [Hnd Hall].
    rewrite sort_dict_Mapping by done.
    rewrite sort_dict_Mapping by (by rewrite keys_sorted_items).
    f_equal. unfold sorted_items at 1.
    assert (map (λ kv, (kv.1, sort kv.2 (Some kv.1))) (items_of t kvs)
            = items_of t kvs) as ->.
    { rewrite <-(list_fmap_id (items_of t kvs)) at 2.
      apply list_fmap_ext. intros i kv Hkv%list_elem_of_lookup_2.
      apply elem_of_sorted_items in Hkv as (kv0 & Hkv0 & ->). simpl.
      rewrite Forall_forall in IH, Hall. by rewrite IH; [| |apply Hall]. }
    apply sorted_id, sorted_items_sorted.
Qed.
End sorter_facts.

(** ** The shape of the trees *)

Lemma forallb_Forall {A} (f : A → bool) (l : list A) :
  forallb f l = true ↔ Forall (λ x, f x = true) l.
Proof.
  rewrite forallb_forall, Forall_forall.
  split; intros H x Hx; apply H; by apply list_elem_of_In.
Qed.

Lemma canonical_Mapping kvs :
  canonical (Mapping kvs) = true ↔ Forall (λ kv, canonical_entry kv.2 = true) kvs.
Proof. simpl. apply forallb_Forall. Qed.

Lemma canonical_canonical_entry v : canonical v = true → canonical_entry v = true.
Proof. by destruct v. Qed.

Lemma add_child_canonical result tag value :
  Forall (λ kv, canonical_entry kv.2 = true) result →
  canonical value = true →
  Forall (λ kv, canonical_entry kv.2 = true) (add_child result tag value).
Proof.
  intros Hres Hv. unfold add_child.
  assert (∀ v', canonical_entry v' = true →
            Forall (λ kv, canonical_entry kv.2 = true) (dict_set tag v' result)) as Hset.
  { intros v' Hv'. apply Forall_forall. intros kv [->|Hin]%elem_of_dict_set; [done|].
    rewrite Forall_forall in Hres. by apply Hres. }
  destruct (dict_get tag result) as [v|] eqn:Hget.
  - apply dict_get_Some in Hget. rewrite Forall_forall in Hres.
    specialize (Hres _ Hget). simpl in Hres.
    destruct v as [s|l|kvs]; apply Hset.
    + simpl. by rewrite Hv.
    + apply andb_prop in Hres as [Hlen Hl]. apply Nat.leb_le in Hlen.
      unfold canonical_entry. apply andb_true_intro. split.
      * apply Nat.leb_le. rewrite length_app. lia.
      * rewrite forallb_app, Hl. simpl. by rewrite Hv.
    + simpl in Hres. simpl. by rewrite Hres, Hv.
  - by apply Hset, canonical_canonical_entry.
Qed.

Lemma xml_to_dict_canonical e : canonical (xml_to_dict e) = true.
Proof.
  induction e as [t a x cs tl IH] using Element_ind'.
  destruct cs as [|c cs]; [done|].
  unfold xml_to_dict; fold xml_to_dict. apply canonical_Mapping.
  generalize (c :: cs) IH. clear. intros cs IH.
  assert (Forall (λ kv : string * Node, canonical_entry kv.2 = true) []) as Hacc
    by constructor.
  revert Hacc. generalize (@nil (string * Node)) as acc.
  induction IH as [|c cs Hc _ IHcs]; intros acc Hacc; simpl; [done|].
  apply IHcs. by apply add_child_canonical.
Qed.

Lemma canonical_entry_lists_hold_two d :
  (canonical d = true → lists_hold_two d = true) ∧
  (canonical_entry d = true → entry_holds_two d && lists_hold_two d = true).
Proof.
  induction d as [s|l IH|kvs IH] using Node_ind'; [done| |].
  - split; [done|]. simpl. intros [-> Hl]%andb_prop. simpl.
    apply forallb_Forall. apply forallb_Forall in Hl.
    rewrite Forall_forall in IH, Hl |- *. intros x Hx.
    by apply IH, Hl.
  - enough (canonical (Mapping kvs) = true → lists_hold_two (Mapping kvs) = true)
      by done.
    rewrite canonical_Mapping. simpl. rewrite forallb_Forall.
    rewrite !Forall_forall in *. intros Hall kv Hkv.
    by apply IH, Hall.
Qed.

Lemma canonical_lists_hold_two d : canonical d = true → lists_hold_two d = true.
Proof. apply canonical_entry_lists_hold_two. Qed.

Section sorter_invariants.
Variable lower : string → string.
Variable global_keywords : list string.
Variable per_tag_keywords : list (string * list string).
Abbreviation sort' := (sort_dict lower global_keywords per_tag_keywords).

(** The items of a sorted dictionary are the items of the dictionary,
    each value sorted under its key. *)
Lemma elem_of_sort_dict_Mapping kvs t kvs' kv :
  sort' (Mapping kvs) t = Mapping kvs' → kv ∈ kvs' →
  ∃ kv0, kv0 ∈ kvs ∧ kv = (kv0.1, sort' kv0.2 (Some kv0.1)).
Proof.
  simpl. intros [= <-] Hin%elem_of_OrderedDict.
  rewrite (sorted_perm _ sort_key_lt), (sorted_perm _ String.ltb) in Hin.
  apply list_elem_of_fmap in Hin as (kv0 & -> & Hkv0). by exists kv0.
Qed.

Lemma sort_dict_Mapping_inv kvs t : ∃ kvs', sort' (Mapping kvs) t = Mapping kvs'.
Proof. by eexists. Qed.

Lemma sort_dict_canonical_entry d t :
  (canonical d = true → canonical (sort' d t) = true) ∧
  (canonical_entry d = true → canonical_entry (sort' d t) = true).
Proof.
  revert t. induction d as [s|l IH|kvs IH] using Node_ind'; intros t; [done| |].
  - split; [done|]. simpl. intros [Hlen Hl]%andb_prop.
    rewrite length_map, Hlen. simpl.
    apply forallb_Forall, Forall_fmap. apply forallb_Forall in Hl.
    rewrite Forall_forall in IH, Hl |- *. intros x Hx.
    by apply IH, Hl.
  - enough (canonical (Mapping kvs) = true → canonical (sort' (Mapping kvs) t) = true)
      by done.
    destruct (sort_dict_Mapping_inv kvs t) as [kvs' Hs]. rewrite Hs.
    rewrite !canonical_Mapping, !Forall_forall. intros Hall kv Hkv.
    destruct (elem_of_sort_dict_Mapping _ _ _ _ Hs Hkv) as (kv0 & Hkv0 & ->).
    rewrite Forall_forall in IH. by apply IH, Hall.
Qed.

Lemma sort_dict_lists_hold_two d t :
  (lists_hold_two d = true → lists_hold_two (sort' d t) = true) ∧
  (entry_holds_two d = true → entry_holds_two (sort' d t) = true).
Proof.
  revert t. induction d as [s|l IH|kvs IH] using Node_ind'; intros t; [done| |].
  - split; simpl; [|by rewrite length_map].
    rewrite !forallb_Forall. intros Hl. apply Forall_fmap.
    rewrite Forall_forall in IH, Hl |- *. intros x Hx. by apply IH, Hl.
  - split; [|done].
    destruct (sort_dict_Mapping_inv kvs t) as [kvs' Hs]. rewrite Hs.
    simpl. rewrite !forallb_Forall, !Forall_forall. intros Hall kv Hkv.
    destruct (elem_of_sort_dict_Mapping _ _ _ _ Hs Hkv) as (kv0 & Hkv0 & ->).
    rewrite Forall_forall in IH. simpl.
    destruct (andb_prop _ _ (Hall _ Hkv0)) as [He Hl].
    apply andb_true_intro. split; by apply IH.
Qed.

Lemma flat_map_perm_pointwise {A B} (f g : A → list B) (l : list A) :
  Forall (λ x, f x ≡ₚ g x) l → flat_map f l ≡ₚ flat_map g l.
Proof. induction 1 as [|x l Hx _ IH]; simpl; [done|]. by rewrite Hx, IH. Qed.

Lemma sort_dict_list_lengths d t :
  distinct_keys d = true → list_lengths (sort' d t) ≡ₚ list_lengths d.
Proof.
  revert t. induction d as [s|l IH|kvs IH] using Node_ind'; intros t Hd; [done| |].
  - simpl. rewrite length_map. f_equiv.
    rewrite flat_map_concat_map, map_map, <-flat_map_concat_map.
    apply flat_map_perm_pointwise.
    simpl in Hd. apply forallb_Forall in Hd.
    rewrite Forall_forall in IH, Hd |- *. intros x Hx. by apply IH, Hd.
  - apply distinct_keys_Mapping in Hd as [Hnd Hall].
    rewrite sort_dict_Mapping by done. simpl. unfold sorted_items.
    rewrite (Permutation_flat_map _ (sorted_perm _ sort_key_lt _)).
    rewrite flat_map_concat_map, map_map, <-flat_map_concat_map.
    apply flat_map_perm_pointwise.
    rewrite Forall_forall in IH, Hall |- *. intros x Hx. simpl.
    by apply IH, Hall.
Qed.
End sorter_invariants.

(** ** Elements *)

Lemma res_mapM_Ok {A B} (f : A → res B) (P : B → Prop) (l : list A) :
  Forall (λ x, ∃ y, f x = Ok y ∧ P y) l →
  ∃ ys, res_mapM f l = Ok ys ∧ Forall P ys.
Proof.
  induction 1 as [|x l (y & Hy & HP) _ (ys & Hys & HPs)]; simpl.
  - by exists [].
  - rewrite Hy. simpl. rewrite Hys. simpl. exists (y :: ys). by split; [|constructor].
Qed.

Lemma descendants_Elem t a x cs tl :
  descendants (Elem t a x cs tl) = flat_map (λ c, c :: descendants c) cs.
Proof. done. Qed.

Lemma bare_children t a x cs tl :
  Forall (bare_below []) cs → bare_below a (Elem t a x cs tl).
Proof.
  intros Hcs. split; [done|]. rewrite descendants_Elem.
  induction Hcs as [|c cs [Hc Hd] _ IH]; simpl; [constructor|].
  constructor; [done|]. by apply Forall_app.
Qed.

Lemma dict_to_xml_canonical_entry d tag :
  (canonical d = true →
   ∀ namespace, ∃ e, dict_to_xml tag d namespace = Ok e ∧
                     bare_below (namespace_attrib namespace) e) ∧
  (canonical_entry d = true →
   ∃ es, match d with
         | Sequence l => res_mapM (λ item, dict_to_xml tag item None) l
         | _ => child ←r dict_to_xml tag d None; Ok [child]
         end = Ok es ∧ Forall (bare_below []) es).
Proof.
  revert tag. induction d as [s|l IH|kvs IH] using Node_ind'; intros tag.
  - assert (∀ namespace, ∃ e, dict_to_xml tag (Leaf s) namespace = Ok e ∧
                              bare_below (namespace_attrib namespace) e) as H.
    { intros ns. eexists. split; [done|]. split; [done|constructor]. }
    split; [done|]. intros _. destruct (H None) as (e & He & Hb).
    rewrite He. exists [e]. split; [done|by constructor].
  - split; [done|]. simpl. intros [_ Hl]%andb_prop.
    apply res_mapM_Ok. apply forallb_Forall in Hl.
    rewrite Forall_forall in IH, Hl |- *. intros x Hx.
    destruct (IH x Hx tag) as [H _]. by apply (H (Hl x Hx) None).
  - assert (canonical (Mapping kvs) = true →
            ∀ namespace, ∃ e, dict_to_xml tag (Mapping kvs) namespace = Ok e ∧
                              bare_below (namespace_attrib namespace) e) as H.
    { rewrite canonical_Mapping. intros Hall ns. simpl.
      edestruct (res_mapM_Ok
                   (λ kv : string * Node,
                      match kv.2 with
                      | Sequence l => res_mapM (λ item, dict_to_xml kv.1 item None) l
                      | _ => child ←r dict_to_xml kv.1 kv.2 None; Ok [child]
                      end)
                   (Forall (bare_below [])) kvs) as (ess & -> & Hess).
      { rewrite Forall_forall in IH, Hall |- *. intros kv Hkv.
        destruct (IH kv Hkv kv.1) as [_ H]. by apply H, Hall. }
      simpl. eexists. split; [done|]. apply bare_children.
      by apply Forall_concat. }
    split; [done|]. intros Hc. destruct (H Hc None) as (e & He & Hb).
    rewrite He. exists [e]. split; [done|by constructor].
Qed.

Lemma dict_to_xml_canonical d tag namespace :
  canonical d = true →
  ∃ e, dict_to_xml tag d namespace = Ok e ∧ bare_below (namespace_attrib namespace) e.
Proof. intros Hd. by apply dict_to_xml_canonical_entry. Qed.

(** [xml_to_dict] does not look at the attributes. *)
Lemma tag_without_attributes e : tag (without_attributes e) = tag e.
Proof. by destruct e. Qed.

Lemma xml_to_dict_without_attributes e :
  xml_to_dict (without_attributes e) = xml_to_dict e.
Proof.
  induction e as [t a x cs tl IH] using Element_ind'.
  destruct cs as [|c cs]; [done|].
  change (Mapping (fold_left
            (λ result child,
               add_child result (strip_namespace (tag child)) (xml_to_dict child))
            (map without_attributes (c :: cs)) [])
          = Mapping (fold_left
            (λ result child,
               add_child result (strip_namespace (tag child)) (xml_to_dict child))
            (c :: cs) [])).
  f_equal. generalize (@nil (string * Node)) as acc.
  induction IH as [|c' cs' Hc _ IHcs]; intros acc; [done|].
  simpl. by rewrite tag_without_attributes, Hc, IHcs.
Qed.

(** ** The namespace of the root *)

Lemma take_app_length s rest : Re.take (String.length s) (s +:+ rest) = s.
Proof. induction s as [|c s IH]; simpl; [by destruct rest|by rewrite IH]. Qed.

Section lazy_run.
Context {R : Type} (k : Re.cont (R:=R)) (caps : Re.captures).

Lemma repeat_cons dotall a greedy c s min pos :
  Re.repeat dotall a greedy k caps (String c s) min pos
  = let more := if Re.atom_matches dotall a c
                then Re.repeat dotall a greedy k caps s (pred min) (S pos)
                else None in
    match min with
    | O => if greedy then Re.or_else more (k pos (String c s) caps)
           else Re.or_else (k pos (String c s) caps) more
    | S _ => more
    end.
Proof. done. Qed.

End lazy_run.

Lemma compile_namespace_pattern : Re.compile "\{(.+?)\}" = Some namespace_regex.
Proof. reflexivity. Qed.



Lemma root_namespace_cases t :
  root_namespace t = Ok None ∨ ∃ uri, root_namespace t = Ok (Some [("xmlns", uri)]).
Proof.
  unfold root_namespace, Re.match_start, Re.compiled.
  rewrite compile_namespace_pattern. simpl res_bind.
  destruct (Re.match_at _ _ _ _ _) as [[m ?]|]; [right|left]; eauto.
Qed.

(** The sorted tree of a file always becomes a tree of elements. *)
Lemma sorted_root_bare root namespace :
  root_namespace (tag root) = Ok namespace →
  ∃ e, sorted_root root = Ok e ∧ bare_below (namespace_attrib namespace) e.
Proof.
  intros Hns. unfold sorted_root. rewrite Hns. simpl res_bind.
  set (root_tag := strip_namespace (tag root)).
  cbn [sort_dict map fst snd sorted foldr insert_item OrderedDict fold_left dict_set
       dict_get].
  rewrite String.eqb_refl.
  apply dict_to_xml_canonical, sort_dict_canonical_entry, xml_to_dict_canonical.
Qed.

(** ** Files *)

Lemma reads_only_lift {A} (r : res A) : reads_only (lift r).
Proof. by intros w. Qed.

Lemma reads_only_read_file path : reads_only (read_file path).
Proof. intros w. unfold read_file. by destruct (files w !! path). Qed.

Lemma reads_only_bind {A B} (m : io A) (f : A → io B) :
  reads_only m → (∀ a, reads_only (f a)) → reads_only (io_bind m f).
Proof.
  intros Hm Hf w. unfold io_bind. specialize (Hm w).
  destruct (m w) as [[a|e|] w']; simpl in *; subst; [apply Hf|done..].
Qed.

Lemma atomic_bind {A} output (m : io A) (f : A → io unit) :
  reads_only m → (∀ a, atomic output (f a)) → atomic output (io_bind m f).
Proof.
  intros Hm Hf w. unfold io_bind. specialize (Hm w).
  destruct (m w) as [[a|e|] w']; simpl in *; subst; [apply Hf|done..].
Qed.

Lemma atomic_raise output e : atomic output (raise e).
Proof. by intros w. Qed.

Lemma atomic_write_file output text : atomic output (write_file output text).
Proof.
  intros w. unfold write_file. destruct (refused w !! output); [done|by exists text].
Qed.









Lemma reads_only_scan {A} (f : string → res A) path :
  reads_only (io_bind (read_file path) (λ content, lift (f content))).
Proof.
  apply reads_only_bind; [apply reads_only_read_file|].
  intros c. apply reads_only_lift.
Qed.

Ltac step_reads_only :=
  first [ apply reads_only_scan | apply reads_only_read_file | apply reads_only_lift ].


Lemma process_xml_file_is_atomic listing input output :
  atomic output (process_xml_file listing input output).
Proof.
  unfold process_xml_file.
  do 4 (apply atomic_bind; [step_reads_only|intros ?]).
  destruct (Str.startswith _ _); [apply atomic_raise|].
  do 8 (apply atomic_bind; [step_reads_only|intros ?]).
  apply atomic_write_file.
Qed.




(** ** The order of the special elements *)

Lemma io_bind_returns {A B} (m : io A) (f : A → io B) w a w' :
  m w = (Returns a, w') → io_bind m f w = f a w'.
Proof. unfold io_bind. by intros ->. Qed.

Lemma read_one_file path content :
  ET.in_domain content = true →
  read_file path (one_file path content) = (Returns content, one_file path content).
Proof.
  intros Hd. unfold read_file, one_file. simpl.
  by rewrite lookup_singleton_eq, Hd.
Qed.

Lemma find_cdata_sections_one_file path content cdata_sections :
  ET.in_domain content = true →
  find_cdata_sections_in content = Ok cdata_sections →
  find_cdata_sections path (one_file path content)
  = (Returns cdata_sections, one_file path content).
Proof.
  intros Hd Hcs. unfold find_cdata_sections.
  rewrite (io_bind_returns _ _ _ _ _ (read_one_file path content Hd)).
  unfold lift. rewrite Hcs. reflexivity.
Qed.

(** Only the list of the special elements depends on [listing]. *)
Lemma run_listing listing1 listing2 content cdata_sections :
  ET.in_domain content = true →
  find_cdata_sections_in content = Ok cdata_sections →
  special_elements_of listing1 cdata_sections = special_elements_of listing2 cdata_sections →
  run listing1 content = run listing2 content.
Proof.
  intros Hd Hcs Heq. unfold run, process_xml_file.
  rewrite !(io_bind_returns _ _ _ _ _
              (find_cdata_sections_one_file "input.xml" content cdata_sections Hd Hcs)).
  rewrite Heq. reflexivity.
Qed.

(** The six orders of three things. *)
Lemma listing_three (listing : list string → list string) a b c :
  (∀ l, listing l ≡ₚ l) → a ≠ b → a ≠ c → b ≠ c →
  listing [a; b; c] ∈
    [[a; b; c]; [a; c; b]; [b; a; c]; [b; c; a]; [c; a; b]; [c; b; a]].
Proof.
  intros Hp Hab Hac Hbc. specialize (Hp [a; b; c]).
  assert (NoDup [a; b; c]) as Habc.
  { repeat constructor; rewrite ?not_elem_of_cons, ?elem_of_nil; tauto. }
  rewrite <-Hp in Habc.
  pose proof (Permutation_length Hp) as Hlen.
  assert (∀ x, x ∈ listing [a; b; c] → x = a ∨ x = b ∨ x = c) as Hin.
  { intros x. rewrite Hp, !elem_of_cons, elem_of_nil. tauto. }
  destruct (listing [a; b; c]) as [|x [|y [|z [|]]]]; try done.
  assert (x ≠ y ∧ x ≠ z ∧ y ≠ z) as (Hxy & Hxz & Hyz).
  { apply NoDup_cons in Habc as [Hx Habc]. apply NoDup_cons in Habc as [Hy _].
    split; [|split]; intros ->;
      [apply Hx; left|apply Hx; right; left|apply Hy; left]. }
  assert (x = a ∨ x = b ∨ x = c) as Hxa by (apply Hin; left).
  assert (y = a ∨ y = b ∨ y = c) as Hya by (apply Hin; right; left).
  assert (z = a ∨ z = b ∨ z = c) as Hza by (apply Hin; do 2 right; left).
  rewrite !elem_of_cons.
  destruct Hxa as [-> | [-> | ->]], Hya as [-> | [-> | ->]], Hza as [-> | [-> | ->]];
    first [ congruence | by left | by right; left | by do 2 right; left
          | by do 3 right; left | by do 4 right; left | by do 5 right; left ].
Qed.

(** A run whose special elements are three gives the same result for every
    order in which the set of them may be listed. *)
Lemma run_every_listing listing content cdata_sections a b c expected :
  ET.in_domain content = true →
  find_cdata_sections_in content = Ok cdata_sections →
  special_elements_of (λ l, l) cdata_sections = [a; b; c] →
  a ≠ b → a ≠ c → b ≠ c →
  Forall (λ order, run (λ _, order) content = expected)
         [[a; b; c]; [a; c; b]; [b; a; c]; [b; c; a]; [c; a; b]; [c; b; a]] →
  (∀ l, listing l ≡ₚ l) →
  run listing content = expected.
Proof.
  intros Hd Hcs Hsp Hab Hac Hbc Hall Hp.
  pose proof (listing_three listing a b c Hp Hab Hac Hbc) as Hin.
  rewrite Forall_forall in Hall. rewrite <-(Hall _ Hin).
  apply (run_listing _ _ _ cdata_sections Hd Hcs).
  unfold special_elements_of in *. by rewrite Hsp.
Qed.

(** ** From the elements back to the tree *)

Lemma rstrip_cons c s :
  Str.is_space c = false → Str.rstrip (String c s) = String c (Str.rstrip s).
Proof. intros Hc. simpl. rewrite Hc. by destruct (Str.rstrip s). Qed.

Lemma rstrip_idempotent s : Str.rstrip (Str.rstrip s) = Str.rstrip s.
Proof.
  induction s as [|c s IH]; [done|]. simpl.
  destruct (Str.rstrip s) as [|a r] eqn:Hr.
  - destruct (Str.is_space c) eqn:Hc; [done|]. simpl. by rewrite Hc.
  - change (Str.rstrip (String c (String a r))) with
      (match Str.rstrip (String a r) with
       | EmptyString => if Str.is_space c then EmptyString else String c EmptyString
       | r' => String c r'
       end).
    by rewrite IH.
Qed.

Lemma lstrip_head s c s' : Str.lstrip s = String c s' → Str.is_space c = false.
Proof.
  induction s as [|a s IH]; simpl; [done|].
  destruct (Str.is_space a) eqn:Ha; [done|]. by intros [= <- _].
Qed.

Lemma strip_idempotent s : Str.strip (Str.strip s) = Str.strip s.
Proof.
  unfold Str.strip. destruct (Str.lstrip s) as [|c t] eqn:Ht; [done|].
  pose proof (lstrip_head _ _ _ Ht) as Hc.
  rewrite (rstrip_cons _ _ Hc). simpl. rewrite Hc.
  rewrite (rstrip_cons _ _ Hc). by rewrite rstrip_idempotent.
Qed.

(** A tag without namespace is its own local name. *)
Lemma split_char_free sep s : free_of sep s = true → Str.split_char sep s = [s].
Proof.
  induction s as [|c s IH]; simpl; [done|].
  intros [Hc Hs]%andb_prop. apply negb_true_iff in Hc. rewrite Hc.
  by rewrite IH.
Qed.

Lemma split_char_last_free sep s :
  free_of sep (List.last (Str.split_char sep s) EmptyString) = true.
Proof.
  induction s as [|c s IH]; simpl; [done|].
  destruct (Ascii.eqb c sep) eqn:Hc.
  - destruct (Str.split_char sep s) as [|w ws] eqn:Hs; [done|]. exact IH.
  - destruct (Str.split_char sep s) as [|w ws] eqn:Hs; simpl.
    + by rewrite Hc.
    + destruct ws as [|w' ws]; simpl in *; [by rewrite Hc|done].
Qed.

Lemma strip_namespace_idempotent t :
  strip_namespace (strip_namespace t) = strip_namespace t.
Proof.
  unfold strip_namespace at 1.
  by rewrite split_char_free by apply split_char_last_free.
Qed.

(** ** The trees of [xml_to_dict] are faithful *)

Lemma faithful_Mapping kvs :
  faithful (Mapping kvs) = true ↔
  kvs ≠ [] ∧ NoDup (keys kvs) ∧ entries_faithful kvs.
Proof.
  simpl. rewrite !andb_true_iff, negb_true_iff, bool_decide_eq_false,
    bool_decide_eq_true, forallb_Forall.
  unfold entries_faithful.
  assert (Forall (λ kv : string * Node,
                    String.eqb (strip_namespace kv.1) kv.1 &&
                    match kv.2 with
                    | Sequence l => (2 <=? length l) && forallb faithful l
                    | _ => faithful kv.2
                    end = true) kvs
          ↔ Forall (λ kv, strip_namespace kv.1 = kv.1 ∧ faithful_entry kv.2 = true) kvs)
    as ->; [|tauto].
  apply Forall_iff. intros [k v]. simpl.
  rewrite andb_true_iff, String.eqb_eq. by destruct v.
Qed.

Lemma faithful_faithful_entry v : faithful v = true → faithful_entry v = true.
Proof. by destruct v. Qed.

Lemma dict_set_not_nil {V} k (v : V) d : dict_set k v d ≠ [].
Proof. destruct d as [|[k' v'] d]; simpl; [done|]. by destruct (String.eqb k k'). Qed.

Lemma keys_dict_set {V} k (v : V) d :
  keys (dict_set k v d) = if bool_decide (k ∈ keys d) then keys d else keys d ++ [k].
Proof.
  case_bool_decide as Hk.
  - by apply keys_dict_set_old.
  - rewrite dict_set_new by done. unfold keys. by rewrite fmap_app.
Qed.

Lemma NoDup_keys_dict_set {V} k (v : V) d :
  NoDup (keys d) → NoDup (keys (dict_set k v d)).
Proof.
  intros Hd. rewrite keys_dict_set. case_bool_decide as Hk; [done|].
  apply NoDup_app. split; [done|]. split; [|apply NoDup_singleton].
  intros x Hx ->%list_elem_of_singleton. done.
Qed.

Lemma add_child_faithful result tag value :
  NoDup (keys result) → entries_faithful result →
  strip_namespace tag = tag → faithful value = true →
  add_child result tag value ≠ [] ∧
  NoDup (keys (add_child result tag value)) ∧
  entries_faithful (add_child result tag value).
Proof.
  intros Hnd Hres Htag Hv. unfold add_child.
  assert (∀ v', faithful_entry v' = true →
            dict_set tag v' result ≠ [] ∧
            NoDup (keys (dict_set tag v' result)) ∧
            entries_faithful (dict_set tag v' result)) as Hset.
  { intros v' Hv'. split; [apply dict_set_not_nil|].
    split; [by apply NoDup_keys_dict_set|].
    apply Forall_forall. intros kv [->|Hin]%elem_of_dict_set; [done|].
    unfold entries_faithful in Hres. rewrite Forall_forall in Hres. by apply Hres. }
  destruct (dict_get tag result) as [v|] eqn:Hget.
  - apply dict_get_Some in Hget. unfold entries_faithful in Hres.
    rewrite Forall_forall in Hres.
    destruct (Hres _ Hget) as [_ Hfv]. simpl in Hfv.
    destruct v as [s|l|kvs]; apply Hset.
    + simpl. simpl in Hfv. by rewrite Hfv, Hv.
    + apply andb_prop in Hfv as [Hlen Hl]. apply Nat.leb_le in Hlen.
      unfold faithful_entry. apply andb_true_intro. split.
      * apply Nat.leb_le. rewrite length_app. lia.
      * rewrite forallb_app, Hl. simpl. by rewrite Hv.
    + unfold faithful_entry in Hfv |- *.
      change (forallb faithful [Mapping kvs; value]) with
        (faithful (Mapping kvs) && (faithful value && true)).
      by rewrite Hfv, Hv.
  - by apply Hset, faithful_faithful_entry.
Qed.

Lemma xml_to_dict_faithful e : faithful (xml_to_dict e) = true.
Proof.
  induction e as [t a x cs tl IH] using Element_ind'.
  destruct cs as [|c cs].
  { simpl. apply String.eqb_eq. destruct x as [s|]; [|done].
    destruct (String.eqb s EmptyString); [done|apply strip_idempotent]. }
  change (xml_to_dict (Elem t a x (c :: cs) tl))
    with (Mapping (fold_left add_element (c :: cs) [])).
  apply faithful_Mapping.
  assert (∀ acc : list (string * Node),
            NoDup (keys acc) → entries_faithful acc →
            ∀ c cs, Forall (λ e, faithful (xml_to_dict e) = true) (c :: cs) →
            fold_left add_element (c :: cs) acc ≠ [] ∧
            NoDup (keys (fold_left add_element (c :: cs) acc)) ∧
            entries_faithful (fold_left add_element (c :: cs) acc)) as H.
  { clear. intros acc Hnd Hacc c cs. revert acc Hnd Hacc c.
    induction cs as [|c' cs IHcs]; intros acc Hnd Hacc c Hall.
    - apply Forall_cons in Hall as [Hc _]. simpl.
      apply add_child_faithful; [done..|apply strip_namespace_idempotent|done].
    - apply Forall_cons in Hall as [Hc Hall].
      change (fold_left add_element (c :: c' :: cs) acc)
        with (fold_left add_element (c' :: cs) (add_element acc c)).
      destruct (add_child_faithful acc (strip_namespace (tag c)) (xml_to_dict c))
        as (_ & Hnd' & Hacc'); [done..|apply strip_namespace_idempotent|done|].
      by apply IHcs. }
  apply H; [apply NoDup_nil_2|constructor|done].
Qed.

Section sorter_faithful.
Variable lower : string → string.
Variable global_keywords : list string.
Variable per_tag_keywords : list (string * list string).
Abbreviation sort'' := (sort_dict lower global_keywords per_tag_keywords).

Lemma sort_dict_faithful_entry d t :
  (faithful d = true → faithful (sort'' d t) = true) ∧
  (faithful_entry d = true → faithful_entry (sort'' d t) = true).
Proof.
  revert t. induction d as [s|l IH|kvs IH] using Node_ind'; intros t; [done| |].
  - split; [done|]. simpl. intros [Hlen Hl]%andb_prop.
    rewrite length_map, Hlen. simpl.
    apply forallb_Forall, Forall_fmap. apply forallb_Forall in Hl.
    rewrite Forall_forall in IH, Hl |- *. intros x Hx. by apply IH, Hl.
  - enough (faithful (Mapping kvs) = true → faithful (sort'' (Mapping kvs) t) = true)
      by done.
    intros (Hne & Hnd & Hall)%faithful_Mapping.
    rewrite sort_dict_Mapping by done. apply faithful_Mapping.
    split; [|split].
    + intros Hnil. apply Hne.
      pose proof (keys_sorted_items lower global_keywords per_tag_keywords t kvs) as Hp.
      rewrite Hnil in Hp. apply Permutation_nil_l in Hp.
      by destruct kvs.
    + by rewrite keys_sorted_items.
    + apply Forall_forall. intros kv (kv0 & Hkv0 & ->)%elem_of_sorted_items.
      unfold entries_faithful in Hall. rewrite Forall_forall in IH, Hall.
      destruct (Hall _ Hkv0) as [Hk Hv]. split; [done|]. by apply IH.
Qed.

Lemma distinct_keys_faithful_entry d :
  (faithful d = true → distinct_keys d = true) ∧
  (faithful_entry d = true → distinct_keys d = true).
Proof.
  induction d as [s|l IH|kvs IH] using Node_ind'; [done| |].
  - split; [done|]. simpl. intros [_ Hl]%andb_prop.
    apply forallb_Forall. apply forallb_Forall in Hl.
    rewrite Forall_forall in IH, Hl |- *. intros x Hx.
    by apply (proj1 (IH x Hx)), Hl.
  - enough (faithful (Mapping kvs) = true → distinct_keys (Mapping kvs) = true) by done.
    intros (_ & Hnd & Hall)%faithful_Mapping. simpl.
    apply andb_true_intro. split; [by apply bool_decide_eq_true|].
    apply forallb_Forall, Forall_forall. intros kv Hkv.
    unfold entries_faithful in Hall. rewrite Forall_forall in IH, Hall.
    by apply (proj2 (IH kv Hkv)), Hall.
Qed.
End sorter_faithful.

(** ** The round trip *)

Lemma dict_get_snoc {V} k (v : V) acc :
  k ∉ keys acc → dict_get k (acc ++ [(k, v)]) = Some v.
Proof.
  unfold keys. induction acc as [|[k' v'] acc IH]; csimpl.
  - intros _. by rewrite String.eqb_refl.
  - rewrite not_elem_of_cons. intros [Hk Hacc].
    destruct (String.eqb_spec k k'); [done|]. by apply IH.
Qed.

Lemma dict_set_snoc {V} k (v v' : V) acc :
  k ∉ keys acc → dict_set k v' (acc ++ [(k, v)]) = acc ++ [(k, v')].
Proof.
  unfold keys. induction acc as [|[k' v''] acc IH]; csimpl.
  - intros _. by rewrite String.eqb_refl.
  - rewrite not_elem_of_cons. intros [Hk Hacc].
    destruct (String.eqb_spec k k'); [done|]. by rewrite IH.
Qed.

Lemma add_child_new result tag value :
  tag ∉ keys result → add_child result tag value = result ++ [(tag, value)].
Proof.
  intros Hk. unfold add_child.
  rewrite (proj2 (dict_get_None tag result) Hk). by apply dict_set_new.
Qed.

Lemma res_mapM_Forall2 {A B} (f : A → res B) l ys :
  res_mapM f l = Ok ys → Forall2 (λ x y, f x = Ok y) l ys.
Proof.
  revert ys. induction l as [|x l IH]; simpl; intros ys.
  - intros [= <-]. constructor.
  - destruct (f x) as [y| |] eqn:Hy; simpl; [|done..].
    destruct (res_mapM f l) as [ys'| |]; simpl; [|done..].
    intros [= <-]. constructor; [done|by apply IH].
Qed.

(** The children made of the items of a list gather again under their
    key. *)
Lemma gather_items key acc pre (items : list Node) (es : list Element) :
  key ∉ keys acc →
  Forall2 (λ item e, xml_to_dict e = item ∧ strip_namespace (tag e) = key) items es →
  fold_left add_element es (acc ++ [(key, Sequence pre)])
  = acc ++ [(key, Sequence (pre ++ items))].
Proof.
  intros Hk Hall. revert pre.
  induction Hall as [|item e items es [He Ht] _ IH]; intros pre; simpl.
  - by rewrite app_nil_r.
  - unfold add_element at 2, add_child. rewrite Ht, He.
    rewrite dict_get_snoc, dict_set_snoc by done.
    rewrite IH. by rewrite <-app_assoc.
Qed.

Lemma round_trip_entry d :
  ∀ key, strip_namespace key = key →
    (faithful d = true →
     ∀ namespace e, dict_to_xml key d namespace = Ok e →
                    xml_to_dict e = d ∧ tag e = key) ∧
    (faithful_entry d = true →
     ∀ es acc, entry_elements key d = Ok es → key ∉ keys acc →
               fold_left add_element es acc = acc ++ [(key, d)]).
Proof.
  induction d as [s|l IH|kvs IH] using Node_ind'; intros key Hkey.
  - assert (faithful (Leaf s) = true →
            ∀ namespace e, dict_to_xml key (Leaf s) namespace = Ok e →
                           xml_to_dict e = Leaf s ∧ tag e = key) as H1.
    { simpl. intros Hs%String.eqb_eq ns e [= <-]. split; [|done]. simpl.
      destruct (String.eqb_spec s EmptyString) as [->|]; [done|by rewrite Hs]. }
    split; [exact H1|]. intros Hf es acc Hes Hk. unfold entry_elements in Hes.
    destruct (dict_to_xml key (Leaf s) None) as [e| |] eqn:He; [|done..].
    injection Hes as <-. destruct (H1 Hf None e He) as [Hx Ht]. simpl.
    unfold add_element. rewrite Ht, Hkey, Hx. by apply add_child_new.
  - split; [done|]. intros [Hlen Hl]%andb_prop es acc Hes Hk.
    unfold entry_elements in Hes. apply res_mapM_Forall2 in Hes.
    apply forallb_Forall in Hl. apply Nat.leb_le in Hlen.
    assert (Forall2 (λ item e, xml_to_dict e = item ∧ strip_namespace (tag e) = key) l es)
      as Hall.
    { clear Hlen. induction Hes as [|item e items es' He Hes IHes]; [constructor|].
      apply Forall_cons in IH as [IHitem IH]. apply Forall_cons in Hl as [Hitem Hl].
      constructor; [|by apply IHes].
      destruct (IHitem key Hkey) as [H1 _].
      destruct (H1 Hitem None e He) as [Hx Ht]. by rewrite Ht. }
    destruct Hall as [|item1 e1 items es' [He1 Ht1] Hall]; [simpl in Hlen; lia|].
    destruct Hall as [|item2 e2 items es' [He2 Ht2] Hall]; [simpl in Hlen; lia|].
    apply Forall_cons in Hl as [Hitem1 _].
    cbn [fold_left]. unfold add_element at 3. rewrite Ht1, He1.
    rewrite add_child_new by done.
    unfold add_element at 2, add_child. rewrite Ht2, He2, dict_get_snoc by done.
    assert (dict_set key (Sequence [item1; item2]) (acc ++ [(key, item1)])
            = acc ++ [(key, Sequence [item1; item2])]) as Hset
      by by apply dict_set_snoc.
    destruct item1 as [s1|l1|kvs1]; [|done|]; rewrite Hset;
      by rewrite (gather_items key acc [_; item2] items es' Hk Hall).
  - assert (faithful (Mapping kvs) = true →
            ∀ namespace e, dict_to_xml key (Mapping kvs) namespace = Ok e →
                           xml_to_dict e = Mapping kvs ∧ tag e = key) as H1.
    { intros (Hne & Hnd & Hall)%faithful_Mapping ns e. simpl.
      destruct (res_mapM _ kvs) as [cs| |] eqn:Hcs; simpl; [|done..].
      intros [= <-]. split; [|done].
      apply res_mapM_Forall2 in Hcs.
      assert (∀ acc, (∀ k, k ∈ keys kvs → k ∉ keys acc) →
                fold_left add_element (concat cs) acc = acc ++ kvs) as Hfold.
      { clear Hne. unfold entries_faithful in Hall.
        induction Hcs as [|[k v] es kvs' css Hes Hcs IHcs]; intros acc Hdisj.
        - simpl. by rewrite app_nil_r.
        - apply Forall_cons in IH as [IHv IH]. apply Forall_cons in Hall as [[Hk Hv] Hall].
          unfold keys in Hnd. rewrite fmap_cons in Hnd.
          apply NoDup_cons in Hnd as [Hknew Hnd].
          simpl concat. rewrite fold_left_app. simpl in Hk, Hv, Hes.
          destruct (IHv k Hk) as [_ H2].
          rewrite (H2 Hv es acc Hes) by (apply Hdisj; left).
          rewrite IHcs; [by rewrite <-app_assoc|done..|].
          intros k' Hk'. unfold keys. rewrite fmap_app, not_elem_of_app. split.
          + apply Hdisj. by right.
          + csimpl. rewrite list_elem_of_singleton. intros ->. done. }
      specialize (Hfold [] (λ _ _, not_elem_of_nil _)). simpl in Hfold.
      destruct (concat cs) as [|c cs'] eqn:Hc.
      - simpl in Hfold. by destruct Hne.
      - change (xml_to_dict (Elem key (namespace_attrib ns) None (c :: cs') None))
          with (Mapping (fold_left add_element (c :: cs') [])).
        by rewrite Hfold. }
    split; [exact H1|]. intros Hf es acc Hes Hk. unfold entry_elements in Hes.
    destruct (dict_to_xml key (Mapping kvs) None) as [e| |] eqn:He; [|done..].
    injection Hes as <-. destruct (H1 Hf None e He) as [Hx Ht]. simpl.
    unfold add_element. rewrite Ht, Hkey, Hx. by apply add_child_new.
Qed.

(** The tree of the elements the program prints is the sorted tree, and
    sorting it again returns it. *)
Lemma sorted_root_unfold root :
  sorted_root root
  = (namespace ←r root_namespace (tag root);
     dict_to_xml (strip_namespace (tag root))
                 (sort_dict Str.lower priority_keywords element_priority_keywords_map
                            (xml_to_dict root) (Some (strip_namespace (tag root))))
                 namespace).
Proof.
  unfold sorted_root. destruct (root_namespace (tag root)) as [ns| |]; [|done..].
  simpl res_bind.
  cbn [sort_dict map fst snd sorted foldr insert_item OrderedDict fold_left dict_set
       dict_get].
  by rewrite String.eqb_refl.
Qed.

Lemma sorted_root_fixed root :
  ∃ new_root,
    sorted_root root = Ok new_root ∧
    tag new_root = strip_namespace (tag root) ∧
    xml_to_dict new_root
    = sort_dict Str.lower priority_keywords element_priority_keywords_map
                (xml_to_dict root) (Some (tag new_root)) ∧
    sort_dict Str.lower priority_keywords element_priority_keywords_map
              (Mapping [(tag new_root, xml_to_dict new_root)]) (Some (tag new_root))
    = Mapping [(tag new_root, xml_to_dict new_root)].
Proof.
  assert (∃ ns, root_namespace (tag root) = Ok ns) as [ns Hns].
  { destruct (root_namespace_cases (tag root)) as [H|[uri H]]; eauto. }
  destruct (sorted_root_bare root ns Hns) as (e & He & _).
  exists e. split; [exact He|].
  rewrite sorted_root_unfold, Hns in He. simpl res_bind in He.
  set (root_tag := strip_namespace (tag root)) in *.
  assert (faithful (sort_dict Str.lower priority_keywords element_priority_keywords_map
                              (xml_to_dict root) (Some root_tag)) = true) as Hf.
  { apply (proj1 (sort_dict_faithful_entry _ _ _ _ _)), xml_to_dict_faithful. }
  destruct (round_trip_entry
              (sort_dict Str.lower priority_keywords element_priority_keywords_map
                         (xml_to_dict root) (Some root_tag))
              root_tag (strip_namespace_idempotent _)) as [Hround _].
  destruct (Hround Hf ns e He) as [Hx Ht].
  rewrite Ht. split; [done|]. split; [exact Hx|]. rewrite Hx.
  cbn [sort_dict map fst snd sorted foldr insert_item OrderedDict fold_left dict_set].
  rewrite sort_dict_idempotent; [done|].
  apply (proj1 (distinct_keys_faithful_entry _)), xml_to_dict_faithful.
Qed.

(** ** The dictionary of an element *)

Lemma dict_get_dict_set {V} k t (v : V) d :
  dict_get k (dict_set t v d) = if String.eqb k t then Some v else dict_get k d.
Proof.
  induction d as [|[k' v'] d IH]; simpl.
  - done.
  - destruct (String.eqb_spec t k') as [->|Htk]; simpl.
    + by destruct (String.eqb k k').
    + destruct (String.eqb_spec k k') as [->|Hkk].
      * destruct (String.eqb_spec k' t); [congruence|done].
      * exact IH.
Qed.

Lemma xml_to_dict_leaf t a x tl : xml_to_dict (Elem t a x [] tl) = Leaf (leaf_text x).
Proof.
  simpl. destruct x as [s|]; [|done].
  by destruct (String.eqb_spec s EmptyString) as [->|].
Qed.

Lemma xml_to_dict_children t a x c cs tl :
  xml_to_dict (Elem t a x (c :: cs) tl) = Mapping (fold_left add_element (c :: cs) []).
Proof. done. Qed.

Lemma xml_to_dict_no_list e l : xml_to_dict e ≠ Sequence l.
Proof.
  intros H. pose proof (xml_to_dict_canonical e) as Hc. by rewrite H in Hc.
Qed.

Lemma first_occurrences_snoc l x :
  first_occurrences (l ++ [x])
  = if bool_decide (x ∈ l) then first_occurrences l else first_occurrences l ++ [x].
Proof.
  induction l as [|y l IH]; simpl.
  - done.
  - rewrite IH. case_bool_decide as Hx.
    + rewrite bool_decide_eq_true_2 by (by right). done.
    + rewrite filter_app, filter_cons, filter_nil.
      destruct (decide (x ≠ y)) as [Hxy|Hxy].
      * rewrite bool_decide_eq_false_2; [done|].
        intros [->|?]%elem_of_cons; done.
      * apply dec_stable in Hxy as ->.
        rewrite bool_decide_eq_true_2 by left. by rewrite app_nil_r.
Qed.

Lemma elem_of_first_occurrences l x : x ∈ first_occurrences l ↔ x ∈ l.
Proof.
  induction l as [|y l IH]; simpl; [done|].
  rewrite !elem_of_cons, list_elem_of_filter, IH.
  destruct (decide (x = y)) as [->|Hxy]; [split; by left|].
  split; [intros [?|[_ ?]]|intros [?|?]]; first [done|by right|right; by split].
Qed.

Lemma keys_add_child result t v :
  keys (add_child result t v)
  = if bool_decide (t ∈ keys result) then keys result else keys result ++ [t].
Proof.
  unfold add_child. destruct (dict_get t result) as [[s|l|kvs]|]; apply keys_dict_set.
Qed.

Lemma keys_fold_add_element cs acc pre :
  keys acc = first_occurrences pre →
  keys (fold_left add_element cs acc) = first_occurrences (pre ++ map local_tag cs).
Proof.
  revert acc pre. induction cs as [|c cs IH]; intros acc pre Hacc; simpl.
  - by rewrite app_nil_r.
  - rewrite (IH _ (pre ++ [local_tag c])).
    + by rewrite <-app_assoc.
    + unfold add_element. rewrite keys_add_child, first_occurrences_snoc, Hacc.
      fold (local_tag c).
      by rewrite (bool_decide_ext _ _ (elem_of_first_occurrences pre (local_tag c))).
Qed.

Lemma items_under_add_child result t v k :
  (∀ l, v ≠ Sequence l) →
  items_under k (Mapping (add_child result t v))
  = items_under k (Mapping result) ++ (if bool_decide (t = k) then [v] else []).
Proof.
  intros Hv. unfold add_child, items_under.
  assert (entry_items v = [v]) as Hitems by (destruct v; [done|by destruct (Hv l)|done]).
  destruct (dict_get t result) as [v0|] eqn:Hget.
  - assert (∀ v', entry_items v' = entry_items v0 ++ [v] →
              match dict_get k (dict_set t v' result) with
              | Some v1 => entry_items v1
              | None => []
              end
              = match dict_get k result with
                | Some v1 => entry_items v1
                | None => []
                end ++ (if bool_decide (t = k) then [v] else [])) as Hset.
    { intros v' Hv'. rewrite dict_get_dict_set.
      destruct (String.eqb_spec k t) as [->|Hkt].
      - rewrite Hget, bool_decide_eq_true_2 by done. exact Hv'.
      - rewrite bool_decide_eq_false_2 by congruence. by rewrite app_nil_r. }
    destruct v0 as [s|l|kvs]; by apply Hset.
  - rewrite dict_get_dict_set.
    destruct (String.eqb_spec k t) as [->|Hkt].
    + by rewrite Hget, bool_decide_eq_true_2.
    + rewrite bool_decide_eq_false_2 by congruence. by rewrite app_nil_r.
Qed.

Lemma items_under_fold_add_element cs acc k :
  items_under k (Mapping (fold_left add_element cs acc))
  = items_under k (Mapping acc)
    ++ map xml_to_dict (filter (λ c, local_tag c = k) cs).
Proof.
  revert acc. induction cs as [|c cs IH]; intros acc; simpl fold_left.
  - by rewrite filter_nil, app_nil_r.
  - rewrite IH. unfold add_element.
    rewrite items_under_add_child by (intros l; apply xml_to_dict_no_list).
    rewrite <-app_assoc. f_equal. rewrite filter_cons. fold (local_tag c).
    case_bool_decide as Hk.
    + by rewrite decide_True.
    + by rewrite decide_False.
Qed.

Lemma tag_seen e : tag (seen e) = local_tag e.
Proof. by destruct e. Qed.

Lemma fold_add_element_seen l :
  Forall (λ c, xml_to_dict (seen c) = xml_to_dict c) l →
  ∀ acc, fold_left add_element (map seen l) acc = fold_left add_element l acc.
Proof.
  induction 1 as [|c l Hc _ IH]; intros acc; simpl; [done|].
  rewrite IH. f_equal. unfold add_element.
  rewrite Hc, tag_seen. unfold local_tag. by rewrite strip_namespace_idempotent.
Qed.

Lemma xml_to_dict_seen e : xml_to_dict (seen e) = xml_to_dict e.
Proof.
  induction e as [t a x cs tl IH] using Element_ind'.
  destruct cs as [|c cs].
  - simpl seen. rewrite !xml_to_dict_leaf. f_equal.
    destruct x as [s|]; cbn [leaf_text]; [apply strip_idempotent|done].
  - change (seen (Elem t a x (c :: cs) tl))
      with (Elem (strip_namespace t) [] None (seen c :: map seen cs) None).
    rewrite !xml_to_dict_children. f_equal.
    by apply (fold_add_element_seen (c :: cs)).
Qed.

(** ** More on sorting *)

Lemma dict_get_elem_of {V} k (v : V) d :
  NoDup (keys d) → (k, v) ∈ d → dict_get k d = Some v.
Proof.
  unfold keys. induction d as [|[k' v'] d IH]; csimpl.
  - by intros _ ?%elem_of_nil.
  - intros [Hk' Hnd]%NoDup_cons [[= -> ->]|Hin]%elem_of_cons.
    + by rewrite String.eqb_refl.
    + destruct (String.eqb_spec k k') as [->|]; [|by apply IH].
      destruct Hk'. apply list_elem_of_fmap. by exists (k', v).
Qed.

Lemma keys_filter {V} (P : string → Prop) `{!∀ k, Decision (P k)} (d : list (string * V)) :
  keys (filter (λ kv, P kv.1) d) = filter P (keys d).
Proof.
  unfold keys. induction d as [|[k v] d IH]; csimpl; [done|].
  rewrite !filter_cons. simpl. destruct (decide (P k)); csimpl; by rewrite IH.
Qed.

Section sorted_more.
Context {A K : Type} `{!EqDecision K} (key : A → K) (lt : K → K → bool).
Hypothesis lt_irrefl : ∀ a, lt a a = false.
Hypothesis lt_trans : ∀ a b c, lt a b = true → lt b c = true → lt a c = true.
Hypothesis lt_total : ∀ a b, lt a b = false → lt b a = false → a = b.

Lemma filter_key_short c l :
  NoDup (map key l) → length (filter (λ a, key a = c) l) ≤ 1.
Proof.
  induction l as [|x l IH]; csimpl; [lia|].
  intros [Hx Hnd]%NoDup_cons. rewrite filter_cons.
  destruct (decide (key x = c)) as [<-|]; [|by apply IH].
  rewrite filter_none; [simpl; lia|].
  intros y Hy Hk. apply Hx, list_elem_of_fmap. by exists y.
Qed.

(** A list whose items have distinct keys has one sorted arrangement,
    whatever the order it is given in. *)
Lemma sorted_of_permutation l1 l2 :
  NoDup (map key l1) → l1 ≡ₚ l2 → sorted key lt l1 = sorted key lt l2.
Proof.
  intros Hnd Hp. apply sorted_spec; [done..|by apply sorted_sorted|].
  intros c. rewrite sorted_filter by done.
  pose proof (filter_key_short c l1 Hnd) as Hlen.
  assert (filter (λ a, key a = c) l2 ≡ₚ filter (λ a, key a = c) l1) as Hf
    by by rewrite Hp.
  destruct (filter (λ a, key a = c) l1) as [|x [|y l]]; simpl in Hlen; [| |lia].
  - by apply Permutation_nil_r in Hf.
  - by apply Permutation_singleton_r in Hf.
Qed.
End sorted_more.

Section sorter_more.
Variable lower : string → string.
Variable global_keywords : list string.
Variable per_tag_keywords : list (string * list string).

Abbreviation pkey := (priority_key_func lower global_keywords per_tag_keywords).
Abbreviation sort := (sort_dict lower global_keywords per_tag_keywords).
Abbreviation items_of := (sorted_items lower global_keywords per_tag_keywords).
Abbreviation sort_item := (λ kv : string * Node, (kv.1, sort kv.2 (Some kv.1))).

(** The value of a key in the sorted dictionary is the sorted value of the
    key. *)
Lemma dict_get_sorted_items t kvs k :
  NoDup (keys kvs) →
  dict_get k (items_of t kvs) = (λ v, sort v (Some k)) <$> dict_get k kvs.
Proof.
  intros Hnd. destruct (dict_get k kvs) as [v|] eqn:Hget; simpl.
  - apply dict_get_elem_of; [by rewrite keys_sorted_items|].
    apply elem_of_sorted_items. exists (k, v). split; [|done].
    by apply dict_get_Some.
  - apply dict_get_None. rewrite keys_sorted_items. by apply dict_get_None.
Qed.

Lemma entry_items_sort v k :
  entry_items (sort v (Some k)) = map (λ i, sort i (Some k)) (entry_items v).
Proof. by destruct v. Qed.

(** The keys that are equal up to case keep the order they had. *)
Lemma sorted_items_stable t kvs c :
  filter (λ kv, lower kv.1 = c) (items_of t kvs)
  = filter (λ kv, lower kv.1 = c) (map sort_item kvs).
Proof.
  unfold sorted_items.
  destruct (decide (Exists (λ kv, lower kv.1 = c) (map sort_item kvs))) as [Hex|Hex].
  - apply Exists_exists in Hex as (x0 & _ & <-).
    rewrite !(list_filter_iff (λ kv, lower kv.1 = lower x0.1) (λ kv, pkey t kv = pkey t x0))
      by (intros; symmetry; apply pkey_lower).
    apply sorted_filter, sort_key_lt_irrefl.
  - rewrite Exists_exists in Hex.
    rewrite !filter_none; [done|intros x Hx ?..]; apply Hex; exists x.
    + done.
    + by rewrite <-(sorted_perm (pkey t) sort_key_lt _).
Qed.

Lemma keys_sorted_items_stable t kvs c :
  filter (λ k, lower k = c) (keys (items_of t kvs))
  = filter (λ k, lower k = c) (keys kvs).
Proof.
  etrans; [symmetry; apply (keys_filter (λ k, lower k = c))|].
  etrans; [apply (f_equal keys), sorted_items_stable|].
  unfold keys. induction kvs as [|[k v] kvs IH]; csimpl; [done|].
  rewrite !filter_cons. simpl. destruct (decide (lower k = c)); csimpl; by rewrite IH.
Qed.

Lemma NoDup_pkey t kvs :
  NoDup (map lower (keys kvs)) → NoDup (map (pkey t) (map sort_item kvs)).
Proof.
  unfold keys. induction kvs as [|[k v] kvs IH]; csimpl; [constructor|].
  intros [Hk Hnd]%NoDup_cons. apply NoDup_cons. split; [|by apply IH].
  intros (y & Hy & (kv & -> & Hkv)%list_elem_of_fmap)%list_elem_of_fmap.
  apply pkey_lower in Hy. simpl in Hy.
  apply Hk. rewrite Hy. apply list_elem_of_fmap. exists kv.1. split; [done|].
  apply list_elem_of_fmap. by exists kv.
Qed.

Lemma case_distinct_Mapping kvs :
  case_distinct lower (Mapping kvs) = true →
  NoDup (map lower (keys kvs)) ∧ Forall (λ kv, case_distinct lower kv.2 = true) kvs.
Proof.
  simpl. intros [Hnd Hall]%andb_prop.
  split; [by apply bool_decide_eq_true in Hnd|by apply forallb_Forall].
Qed.

(** Sorting gives one result for all the orders in which the items of the
    dictionaries can come. *)
Lemma sort_dict_reordered d d' t :
  reordered d d' → case_distinct lower d = true → sort d t = sort d' t.
Proof.
  revert d' t. induction d as [s|l IH|kvs IH] using Node_ind'; intros d' t Hr Hc.
  - by inversion Hr.
  - inversion Hr as [|l1 l' Hall|]; subst. simpl. f_equal.
    simpl in Hc. apply forallb_Forall in Hc.
    clear Hr. revert IH Hc.
    induction Hall as [|x y l l' Hxy _ IHall]; intros IH Hc; [done|].
    apply Forall_cons in IH as [IHx IH]. apply Forall_cons in Hc as [Hx Hc].
    simpl. f_equal; [by apply IHx|by apply IHall].
  - inversion Hr as [| |kvs1 kvs' kvs'' Hp Hall]; subst.
    apply case_distinct_Mapping in Hc as [Hnd Hc].
    assert (NoDup (keys kvs)) as Hk by (by apply NoDup_fmap_1 in Hnd).
    assert (keys kvs' = keys kvs'') as Hkeys.
    { unfold keys. clear -Hall.
      induction Hall as [|a b ? ? [Hab _] _ IHall]; csimpl; [done|].
      by rewrite Hab, IHall. }
    rewrite !sort_dict_Mapping;
      [|rewrite Hkeys; unfold keys in *; by rewrite <-Hp|done]. f_equal.
    unfold sorted_items.
    assert (map sort_item kvs' = map sort_item kvs'') as ->.
    { rewrite Hp in IH, Hc. clear -Hall IH Hc. revert IH Hc.
      induction Hall as [|a b ? ? [Hab Hr] _ IHall]; intros IH Hc; [done|].
      apply Forall_cons in IH as [IHa IH]. apply Forall_cons in Hc as [Ha Hc].
      simpl. f_equal; [|by apply IHall].
      rewrite <-Hab. f_equal. symmetry. by apply IHa. }
    apply sorted_of_permutation;
      [apply sort_key_lt_irrefl|apply sort_key_lt_trans|apply sort_key_lt_total
      |by apply NoDup_pkey|by rewrite Hp].
Qed.
End sorter_more.

(** ** The elements made of a tree *)

Lemma filter_all {A} (P : A → Prop) `{!∀ x, Decision (P x)} (l : list A) :
  Forall P l → filter P l = l.
Proof.
  induction 1 as [|x l Hx _ IH]; [done|].
  by rewrite filter_cons, decide_True, IH.
Qed.

Lemma Forall2_impl_elem {A B} (R R' : A → B → Prop) l l' :
  Forall2 R l l' → (∀ x y, x ∈ l → R x y → R' x y) → Forall2 R' l l'.
Proof.
  induction 1 as [|x y l l' Hxy _ IH]; intros Himpl; constructor.
  - apply Himpl; [left|done].
  - apply IH. intros x' y' Hx'. apply Himpl. by right.
Qed.

Lemma dict_to_xml_fields key d namespace e :
  dict_to_xml key d namespace = Ok e →
  tag e = key ∧ attrib e = namespace_attrib namespace ∧ tail e = None ∧
  text e = match d with Leaf s => Some s | _ => None end.
Proof.
  destruct d as [s|l|kvs]; simpl; [by intros [= <-]|done|].
  destruct (res_mapM _ kvs) as [cs| |]; simpl; [|done..]. by intros [= <-].
Qed.

Lemma dict_to_xml_children key kvs namespace e :
  dict_to_xml key (Mapping kvs) namespace = Ok e →
  ∃ css, Forall2 (λ kv es, entry_elements kv.1 kv.2 = Ok es) kvs css ∧
         children e = concat css.
Proof.
  simpl. destruct (res_mapM _ kvs) as [css| |] eqn:Hcss; simpl; [|done..].
  intros [= <-]. exists css. split; [|done]. by apply res_mapM_Forall2 in Hcss.
Qed.

Lemma entry_elements_items key v es :
  entry_elements key v = Ok es →
  Forall2 (λ item c, dict_to_xml key item None = Ok c) (entry_items v) es.
Proof.
  unfold entry_elements.
  assert ((child ←r dict_to_xml key v None; Ok [child]) = Ok es →
          Forall2 (λ item c, dict_to_xml key item None = Ok c) [v] es) as H.
  { destruct (dict_to_xml key v None) as [c| |] eqn:Hc; simpl; [|done..].
    intros [= <-]. by repeat constructor. }
  destruct v as [s|l|kvs]; [exact H| |exact H].
  apply res_mapM_Forall2.
Qed.

Lemma entry_elements_tags key v es :
  entry_elements key v = Ok es → Forall (λ c, tag c = key) es.
Proof.
  intros Hes%entry_elements_items.
  induction Hes as [|item c items es Hc _ IH]; constructor; [|done].
  by apply dict_to_xml_fields in Hc as [? _].
Qed.

(** The children with the tag [k] are made, in their order, of the values
    under the key [k]. *)
Lemma children_by_key kvs css k :
  NoDup (keys kvs) →
  Forall2 (λ kv es, entry_elements kv.1 kv.2 = Ok es) kvs css →
  Forall2 (λ item c, dict_to_xml k item None = Ok c)
          (items_under k (Mapping kvs)) (filter (λ c, tag c = k) (concat css)).
Proof.
  intros Hnd Hall. induction Hall as [|[k' v] es kvs css Hes _ IH].
  - constructor.
  - unfold keys in Hnd. rewrite fmap_cons in Hnd. apply NoDup_cons in Hnd as [Hk' Hnd].
    specialize (IH Hnd). simpl in Hes.
    pose proof (entry_elements_tags _ _ _ Hes) as Htags.
    cbn [concat]. rewrite filter_app. cbn [items_under dict_get] in IH |- *.
    destruct (String.eqb_spec k k') as [->|Hkk].
    + rewrite (proj2 (dict_get_None k' kvs)) in IH by done.
      apply Forall2_nil_inv_l in IH. rewrite IH, app_nil_r.
      rewrite filter_all by done. by apply entry_elements_items.
    + rewrite filter_none; [done|].
      rewrite Forall_forall in Htags. intros c Hc Ht. apply Hkk.
      by rewrite <-Ht, (Htags c Hc).
Qed.

Lemma filter_tag_seen k cs :
  filter (λ c, tag c = k) (map seen cs) = map seen (filter (λ c, local_tag c = k) cs).
Proof.
  induction cs as [|c cs IH]; simpl; [done|].
  rewrite !filter_cons, tag_seen, IH. by destruct (decide (local_tag c = k)).
Qed.

Lemma filter_tag_without_attributes k cs :
  filter (λ c, tag c = k) (map without_attributes cs)
  = map without_attributes (filter (λ c, tag c = k) cs).
Proof.
  induction cs as [|c cs IH]; simpl; [done|].
  rewrite !filter_cons, tag_without_attributes, IH. by destruct (decide (tag c = k)).
Qed.

Lemma without_attributes_Elem e :
  without_attributes e
  = Elem (tag e) [] (text e) (map without_attributes (children e)) (tail e).
Proof. by destruct e. Qed.

Section rearranging.
Variable lower : string → string.
Variable global_keywords : list string.
Variable per_tag_keywords : list (string * list string).

Abbreviation sort_tree := (sort_dict lower global_keywords per_tag_keywords).
Abbreviation sorted_kvs := (sorted_items lower global_keywords per_tag_keywords).

Lemma items_under_sorted t kvs k :
  NoDup (keys kvs) →
  items_under k (Mapping (sorted_kvs t kvs))
  = map (λ i, sort_tree i (Some k)) (items_under k (Mapping kvs)).
Proof.
  intros Hnd. cbn [items_under]. rewrite dict_get_sorted_items by done.
  destruct (dict_get k kvs) as [v|]; simpl; [apply entry_items_sort|done].
Qed.

(** The elements made of the sorted tree of an element are the element as
    [xml_to_dict] reads it, with the children of one tag in their order. *)
Lemma sorted_element_rearranged e :
  ∀ t namespace e',
    dict_to_xml (local_tag e) (sort_tree (xml_to_dict e) t) namespace = Ok e' →
    rearranged (seen e) (without_attributes e').
Proof.
  induction e as [tg a x cs tl IH] using Element_ind'. intros t ns e' He'.
  rewrite without_attributes_Elem.
  destruct (dict_to_xml_fields _ _ _ _ He') as (-> & _ & -> & Htext).
  destruct cs as [|c0 cs0].
  - rewrite xml_to_dict_leaf in He', Htext. simpl in Htext. rewrite Htext.
    simpl in He'. injection He' as <-. simpl.
    constructor. intros k. rewrite !filter_nil. constructor.
  - set (cs := c0 :: cs0) in *.
    assert (xml_to_dict (Elem tg a x cs tl) = Mapping (fold_left add_element cs []))
      as Hx by done.
    pose proof (xml_to_dict_faithful (Elem tg a x cs tl)) as Hf.
    rewrite Hx in Hf, He', Htext. apply faithful_Mapping in Hf as (_ & Hnd & _).
    rewrite sort_dict_Mapping in He', Htext by done. rewrite Htext.
    apply dict_to_xml_children in He' as (css & Hcss & ->).
    change (seen (Elem tg a x cs tl))
      with (Elem (strip_namespace tg) [] None (map seen cs) None).
    constructor. intros k.
    rewrite filter_tag_seen, filter_tag_without_attributes.
    assert (NoDup (keys (sorted_kvs t (fold_left add_element cs [])))) as Hnd'
      by by rewrite keys_sorted_items.
    pose proof (children_by_key _ css k Hnd' Hcss) as Hk.
    rewrite items_under_sorted, items_under_fold_add_element in Hk by done.
    simpl in Hk. rewrite Forall_forall in IH.
    apply Forall2_fmap.
    change (map xml_to_dict ?l) with (xml_to_dict <$> l) in Hk.
    rewrite !Forall2_fmap_l in Hk.
    eapply Forall2_impl_elem; [exact Hk|].
    intros c c' [<- Hin]%list_elem_of_filter Hc. simpl in Hc. by eapply IH.
Qed.
End rearranging.

(** ** Runs of siblings *)

Lemma map_tag_replicate key es :
  Forall (λ c, tag c = key) es → map tag es = replicate (length es) key.
Proof. induction 1 as [|c es Hc _ IH]; simpl; [done|]. by rewrite Hc, IH. Qed.

Lemma entries_in_runs kvs css :
  NoDup (keys kvs) →
  Forall2 (λ kv es, entry_elements kv.1 kv.2 = Ok es) kvs css →
  in_runs (map tag (concat css)).
Proof.
  intros Hnd Hall.
  enough (∃ runs : list (string * nat),
            runs.*1 = keys kvs ∧
            map tag (concat css) = flat_map (λ r, replicate r.2 r.1) runs)
    as (runs & Hk & Ht) by (exists runs; by rewrite Hk).
  unfold keys.
  clear Hnd. induction Hall as [|[k v] es kvs css Hes _ (runs & Hk & Ht)].
  - by exists [].
  - exists ((k, length es) :: runs). split; [csimpl; by rewrite Hk|].
    cbn [concat flat_map fst snd]. rewrite map_app, Ht. f_equal.
    by apply map_tag_replicate, (entry_elements_tags _ v).
Qed.

Lemma Forall_descendants (Q : Element → Prop) t a x cs tl :
  Q (Elem t a x cs tl) → Forall (λ c, Forall Q (c :: descendants c)) cs →
  Forall Q (Elem t a x cs tl :: descendants (Elem t a x cs tl)).
Proof.
  intros Hq Hcs. constructor; [done|]. rewrite descendants_Elem. clear Hq.
  induction Hcs as [|c cs Hc _ IH]; [constructor|].
  change (flat_map (λ c, c :: descendants c) (c :: cs))
    with ((c :: descendants c) ++ flat_map (λ c, c :: descendants c) cs).
  apply Forall_app. by split.
Qed.

Lemma dict_to_xml_in_runs d :
  distinct_keys d = true →
  (∀ key namespace e,
     dict_to_xml key d namespace = Ok e →
     Forall (λ e', in_runs (map tag (children e'))) (e :: descendants e)) ∧
  (∀ key es,
     entry_elements key d = Ok es →
     Forall (λ c, Forall (λ e', in_runs (map tag (children e'))) (c :: descendants c)) es).
Proof.
  induction d as [s|l IH|kvs IH] using Node_ind'; intros Hd.
  - assert (∀ key namespace e,
              dict_to_xml key (Leaf s) namespace = Ok e →
              Forall (λ e', in_runs (map tag (children e'))) (e :: descendants e)) as H.
    { intros key ns e [= <-]. apply Forall_descendants; [|constructor].
      exists []. split; [apply NoDup_nil_2|done]. }
    split; [exact H|]. intros key es Hes. unfold entry_elements in Hes.
    destruct (dict_to_xml key (Leaf s) None) as [c| |] eqn:Hc; [|done..].
    injection Hes as <-. constructor; [by eapply H|constructor].
  - split; [done|]. intros key es Hes%res_mapM_Forall2.
    simpl in Hd. apply forallb_Forall in Hd. revert IH Hd.
    induction Hes as [|item c items es Hc _ IHes]; intros IH Hd; constructor.
    + apply Forall_cons in IH as [IHitem _]. apply Forall_cons in Hd as [Hitem _].
      by eapply (proj1 (IHitem Hitem)).
    + apply Forall_cons in IH as [_ IH]. apply Forall_cons in Hd as [_ Hd].
      by apply IHes.
  - apply distinct_keys_Mapping in Hd as [Hnd Hd].
    assert (∀ key namespace e,
              dict_to_xml key (Mapping kvs) namespace = Ok e →
              Forall (λ e', in_runs (map tag (children e'))) (e :: descendants e)) as H.
    { intros key ns e He.
      destruct (dict_to_xml_children _ _ _ _ He) as (css & Hcss & Hch).
      destruct e as [t a x cs tl]. simpl in Hch. subst cs.
      apply Forall_descendants; [by eapply entries_in_runs|].
      apply Forall_concat. clear He Hnd. revert IH Hd.
      induction Hcss as [|kv es kvs css Hes _ IHcss]; intros IH Hd; constructor.
      - apply Forall_cons in IH as [IHkv _]. apply Forall_cons in Hd as [Hkv _].
        by eapply (proj2 (IHkv Hkv)).
      - apply Forall_cons in IH as [_ IH]. apply Forall_cons in Hd as [_ Hd].
        by apply IHcss. }
    split; [exact H|]. intros key es Hes. unfold entry_elements in Hes.
    destruct (dict_to_xml key (Mapping kvs) None) as [c| |] eqn:Hc; [|done..].
    injection Hes as <-. constructor; [by eapply H|constructor].
Qed.

(** ** From a tree to elements and back *)

Lemma dict_to_xml_retag key key' d namespace e :
  dict_to_xml key d namespace = Ok e →
  dict_to_xml key' d namespace = Ok (Elem key' (attrib e) (text e) (children e) (tail e)).
Proof.
  destruct d as [s|l|kvs]; simpl; [by intros [= <-]|done|].
  destruct (res_mapM _ kvs) as [cs| |]; simpl; [|done..]. by intros [= <-].
Qed.

Lemma round_trip key d namespace e :
  faithful d = true → dict_to_xml key d namespace = Ok e → xml_to_dict e = d.
Proof.
  intros Hf He.
  apply (dict_to_xml_retag _ (strip_namespace key)) in He.
  destruct (round_trip_entry d _ (strip_namespace_idempotent key)) as [H _].
  destruct (H Hf _ _ He) as [Hx _]. by destruct e.
Qed.

Lemma faithful_canonical d :
  (faithful d = true → canonical d = true) ∧
  (faithful_entry d = true → canonical_entry d = true).
Proof.
  induction d as [s|l IH|kvs IH] using Node_ind'; [done| |].
  - split; [done|]. simpl. intros [-> Hl]%andb_prop. simpl.
    apply forallb_Forall. apply forallb_Forall in Hl.
    rewrite Forall_forall in IH, Hl |- *. intros x Hx.
    by apply (proj1 (IH x Hx)), Hl.
  - enough (faithful (Mapping kvs) = true → canonical (Mapping kvs) = true) by done.
    intros (_ & _ & Hall)%faithful_Mapping. apply canonical_Mapping.
    unfold entries_faithful in Hall. rewrite Forall_forall in IH, Hall |- *.
    intros kv Hkv. by apply (proj2 (IH kv Hkv)), Hall.
Qed.

(** The elements made of a faithful tree give the tree back. *)
Lemma dict_to_xml_round_trip key d namespace :
  faithful d = true →
  ∃ e, dict_to_xml key d namespace = Ok e ∧ xml_to_dict e = d ∧ tag e = key.
Proof.
  intros Hf.
  destruct (dict_to_xml_canonical d key namespace) as (e & He & _);
    [by apply faithful_canonical|].
  exists e. split; [done|]. split; [by eapply round_trip|].
  by apply dict_to_xml_fields in He as [? _].
Qed.

Lemma sorted_root_Ok root :
  ∃ namespace new_root,
    root_namespace (tag root) = Ok namespace ∧
    dict_to_xml (local_tag root)
                (sort_dict Str.lower priority_keywords element_priority_keywords_map
                           (xml_to_dict root) (Some (local_tag root)))
                namespace = Ok new_root ∧
    sorted_root root = Ok new_root.
Proof.
  assert (∃ ns, root_namespace (tag root) = Ok ns) as [ns Hns].
  { destruct (root_namespace_cases (tag root)) as [H|[uri H]]; eauto. }
  destruct (sorted_root_bare root ns Hns) as (e & He & _).
  exists ns, e. split; [done|]. split; [|done].
  by rewrite sorted_root_unfold, Hns in He.
Qed.

(** ** Texts *)

Lemma append_cons c s t : String c s +:+ t = String c (s +:+ t).
Proof. done. Qed.

Lemma append_nil_r s : s +:+ EmptyString = s.
Proof. induction s as [|c s IH]; [done|by rewrite append_cons, IH]. Qed.

Lemma append_assoc s t u : (s +:+ t) +:+ u = s +:+ (t +:+ u).
Proof. induction s as [|c s IH]; [done|by rewrite !append_cons, IH]. Qed.

Lemma length_append s t :
  String.length (s +:+ t) = String.length s + String.length t.
Proof. induction s as [|c s IH]; [done|rewrite append_cons; simpl; by rewrite IH]. Qed.

Lemma drop_prefix_Some s p s' : Str.drop_prefix s p = Some s' → s = p +:+ s'.
Proof.
  revert s. induction p as [|a p IH]; intros s.
  - destruct s; simpl; by intros [= <-].
  - destruct s as [|b s]; simpl; [done|].
    destruct (Ascii.eqb_spec a b) as [->|]; [|done].
    intros H. rewrite append_cons. f_equal. by apply IH.
Qed.


Lemma substring_refl s : substring s s.
Proof. exists EmptyString, EmptyString. by rewrite append_nil_r. Qed.

Lemma substring_empty s : substring EmptyString s.
Proof. by exists EmptyString, s. Qed.

Lemma substring_trans t s u : substring t s → substring s u → substring t u.
Proof.
  intros (a & b & ->) (a' & b' & ->). exists (a' +:+ a), (b +:+ b').
  by rewrite !append_assoc.
Qed.

Lemma substring_append_l t s a : substring t s → substring t (a +:+ s).
Proof.
  intros H. eapply substring_trans; [exact H|].
  exists a, EmptyString. by rewrite append_nil_r.
Qed.

Lemma substring_append_r t s b : substring t s → substring t (s +:+ b).
Proof. intros H. eapply substring_trans; [exact H|]. by exists EmptyString, b. Qed.



(** ** The matcher *)

Section exec_facts.
Context {R : Type} (dotall : bool).

Lemma repeat_spans a greedy (k : Re.cont (R:=R)) caps s :
  ∀ min pos x,
    Re.repeat dotall a greedy k caps s min pos = Some x →
    ∃ p s', s = p +:+ s' ∧ min ≤ String.length p ∧ all_match dotall a p = true ∧
            k (pos + String.length p) s' caps = Some x.
Proof.
  assert (∀ s pos x, k pos s caps = Some x →
            ∃ p s', s = p +:+ s' ∧ 0 ≤ String.length p ∧ all_match dotall a p = true ∧
                    k (pos + String.length p) s' caps = Some x) as Hk.
  { intros s0 pos x Hx. exists EmptyString, s0. rewrite Nat.add_0_r.
    split; [done|]. split; [simpl; lia|]. by split. }
  induction s as [|c s IH]; intros min pos x.
  - simpl. destruct min as [|min]; [|done].
    unfold Re.or_else.
    destruct greedy, (k pos EmptyString caps) as [y|] eqn:Hy; try done;
      intros [= <-]; by apply Hk.
  - rewrite repeat_cons. cbv zeta.
    assert (∀ min',
              (if Re.atom_matches dotall a c
               then Re.repeat dotall a greedy k caps s min' (S pos)
               else None) = Some x →
              ∃ p s', String c s = p +:+ s' ∧ S min' ≤ String.length p ∧
                      all_match dotall a p = true ∧
                      k (pos + String.length p) s' caps = Some x) as Hmore.
    { intros min'. destruct (Re.atom_matches dotall a c) eqn:Ha; [|done].
      intros (p & s' & -> & Hlen & Hall & Hp)%IH.
      exists (String c p), s'. split; [done|]. split; [simpl; lia|].
      split; [simpl; by rewrite Ha|].
      simpl. by rewrite Nat.add_succ_r. }
    destruct min as [|min].
    + assert (∀ y, (if Re.atom_matches dotall a c
                    then Re.repeat dotall a greedy k caps s 0 (S pos)
                    else None) = Some y → y = x →
                   ∃ p s', String c s = p +:+ s' ∧ 0 ≤ String.length p ∧
                           all_match dotall a p = true ∧
                           k (pos + String.length p) s' caps = Some x) as Hmore0.
      { intros y Hy ->. destruct (Hmore 0 Hy) as (p & s' & ? & ? & ? & ?).
        exists p, s'. split; [done|]. split; [lia|]. by split. }
      destruct greedy; unfold Re.or_else.
      * destruct (if Re.atom_matches dotall a c then _ else None) eqn:Hm.
        -- intros [= <-]. by eapply Hmore0.
        -- apply Hk.
      * destruct (k pos (String c s) caps) eqn:Hks.
        -- intros [= <-]. by apply Hk.
        -- intros Hm. by eapply Hmore0.
    + intros Hm. destruct (Hmore min Hm) as (p & s' & ? & ? & ? & ?).
      exists p, s'. split; [done|]. split; [simpl in *; lia|]. by split.
Qed.

Lemma exec_spans r :
  ∀ pos s caps (k : Re.cont (R:=R)) x,
    Re.exec dotall r pos s caps k = Some x →
    ∃ p s' new,
      s = p +:+ s' ∧ spans dotall r p (group_texts new) ∧
      Forall (λ c, substring c.2.2 p) new ∧
      k (pos + String.length p) s' (new ++ caps) = Some x.
Proof.
  induction r as [|a|a min greedy|r1 IH1 r2 IH2|r1 IH1 r2 IH2|n r IH|n];
    intros pos s caps k x; simpl.
  - intros Hx. exists EmptyString, s, []. rewrite Nat.add_0_r.
    split; [done|]. split; [constructor|]. by split.
  - destruct s as [|c s]; [done|].
    destruct (Re.atom_matches dotall a c) eqn:Ha; [|done].
    intros Hx. exists (String c EmptyString), s, []. simpl. rewrite Nat.add_1_r.
    split; [done|]. split; [by constructor|]. by split.
  - intros (p & s' & -> & Hlen & Hall & Hx)%repeat_spans. exists p, s', [].
    split; [done|]. split; [by constructor|]. by split.
  - intros (p1 & s1 & new1 & -> & Hp1 & Hn1 & Hx)%IH1.
    apply IH2 in Hx as (p2 & s2 & new2 & -> & Hp2 & Hn2 & Hx).
    exists (p1 +:+ p2), s2, (new2 ++ new1).
    split; [by rewrite append_assoc|].
    split; [unfold group_texts; rewrite map_app; by constructor|].
    split.
    + apply Forall_app. split.
      * eapply Forall_impl; [exact Hn2|]. intros c Hc. by apply substring_append_l.
      * eapply Forall_impl; [exact Hn1|]. intros c Hc. by apply substring_append_r.
    + by rewrite length_append, Nat.add_assoc, <-app_assoc.
  - unfold Re.or_else.
    destruct (Re.exec dotall r1 pos s caps k) as [y|] eqn:H1.
    + intros [= <-]. apply IH1 in H1 as (p & s' & new & -> & Hp & Hn & Hx).
      exists p, s', new. split; [done|]. split; [by apply spans_Or_l|]. by split.
    + intros (p & s' & new & -> & Hp & Hn & Hx)%IH2.
      exists p, s', new. split; [done|]. split; [by apply spans_Or_r|]. by split.
  - intros (p & s' & new & -> & Hp & Hn & Hx)%IH.
    exists p, s', ((n, (pos, p)) :: new).
    split; [done|]. split; [by constructor|]. split.
    + constructor; [apply substring_refl|done].
    + replace (pos + String.length p - pos) with (String.length p) in Hx by lia.
      by rewrite take_app_length in Hx.
  - destruct (Re.capture n caps) as [[q t]|]; [|done].
    destruct (Str.drop_prefix s t) as [s'|] eqn:Hd; [|done].
    apply drop_prefix_Some in Hd as ->.
    intros Hx. exists t, s', []. split; [done|]. split; [constructor|]. by split.
Qed.
End exec_facts.

Lemma match_at_spans dotall r must pos s m s' :
  Re.match_at dotall r must pos s = Some (m, s') →
  ∃ p new,
    s = p +:+ s' ∧ m = Re.Match pos (pos + String.length p) p new ∧
    spans dotall r p (group_texts new) ∧ Forall (λ c, substring c.2.2 p) new ∧
    (must = true → p ≠ EmptyString).
Proof.
  unfold Re.match_at.
  intros (p & s1 & new & -> & Hp & Hn & Hx)%exec_spans.
  destruct (must && (pos + String.length p =? pos)) eqn:Hm; [done|].
  injection Hx as <- <-.
  replace (pos + String.length p - pos) with (String.length p) by lia.
  rewrite take_app_length, app_nil_r. exists p, new.
  split; [done|]. split; [done|]. split; [done|]. split; [done|].
  intros -> ->. simpl in Hm. by rewrite Nat.add_0_r, Nat.eqb_refl in Hm.
Qed.

Lemma search_from_spans dotall r s :
  ∀ must pos m s',
    Re.search_from dotall r must pos s = Some (m, s') →
    ∃ skipped p,
      s = skipped +:+ p +:+ s' ∧
      Re.m_start m = pos + String.length skipped ∧
      Re.m_end m = Re.m_start m + String.length p ∧
      Re.m_text m = p ∧ spans dotall r p (group_texts (Re.m_groups m)) ∧
      Forall (λ c, substring c.2.2 p) (Re.m_groups m) ∧
      (must = true → skipped = EmptyString → p ≠ EmptyString).
Proof.
  assert (∀ s must pos m s',
            Re.match_at dotall r must pos s = Some (m, s') →
            ∃ skipped p,
              s = skipped +:+ p +:+ s' ∧
              Re.m_start m = pos + String.length skipped ∧
              Re.m_end m = Re.m_start m + String.length p ∧
              Re.m_text m = p ∧ spans dotall r p (group_texts (Re.m_groups m)) ∧
              Forall (λ c, substring c.2.2 p) (Re.m_groups m) ∧
              (must = true → skipped = EmptyString → p ≠ EmptyString)) as Hat.
  { intros s0 must pos m s' (p & new & -> & -> & Hp & Hn & Hm)%match_at_spans.
    exists EmptyString, p. simpl. rewrite Nat.add_0_r. repeat split; auto. }
  induction s as [|c s IH]; intros must pos m s'.
  - simpl. destruct (Re.match_at dotall r must pos EmptyString) as [[m0 s0]|] eqn:Hm;
      [|done].
    intros [= <- <-]. by apply Hat.
  - cbn [Re.search_from].
    destruct (Re.match_at dotall r must pos (String c s)) as [[m0 s0]|] eqn:Hm.
    + intros [= <- <-]. by apply Hat.
    + intros (skipped & p & -> & Hs & He & Ht & Hp & Hn & _)%IH.
      exists (String c skipped), p.
      split; [done|]. split; [simpl; lia|]. do 4 (split; [done|]). by intros _ [=].
Qed.

Lemma match_in_suffix dotall r skipped s m :
  match_in dotall r s m → match_in dotall r (skipped +:+ s) m.
Proof. intros (Hs & Hp & Hn). split; [by apply substring_append_l|done]. Qed.

(** The fuel of [matches_from] lasts, and every match it lists is found in
    the text. *)
Lemma matches_from_Ok dotall r fuel :
  ∀ must pos s,
    2 * String.length s + (if must : bool then 0 else 1) < fuel →
    ∃ ms, Re.matches_from fuel dotall r must pos s = Ok ms ∧
          Forall (match_in dotall r s) ms.
Proof.
  induction fuel as [|fuel IH]; intros must pos s Hfuel; [lia|].
  cbn [Re.matches_from].
  destruct (Re.search_from dotall r must pos s) as [[m s']|] eqn:Hs.
  - apply search_from_spans in Hs
      as (skipped & p & -> & Hst & Hend & Ht & Hp & Hn & Hadv).
    rewrite !length_append in Hfuel.
    destruct (IH (Re.m_end m =? Re.m_start m) (Re.m_end m) s') as (ms & -> & Hms).
    { destruct (Nat.eqb_spec (Re.m_end m) (Re.m_start m)) as [Heq|Hne].
      - assert (String.length p = 0) as Hp0 by lia.
        destruct must; [|lia].
        destruct skipped as [|c skipped]; [|simpl in *; lia].
        destruct p; [by destruct Hadv|done].
      - assert (String.length p ≠ 0) by lia. destruct must; lia. }
    simpl. eexists. split; [done|]. constructor.
    + split; [|by rewrite Ht]. rewrite Ht. exists skipped, s'. done.
    + eapply Forall_impl; [exact Hms|]. intros m' Hm'.
      by do 2 apply match_in_suffix.
  - exists []. by split.
Qed.

Lemma matches_Ok dotall r s :
  ∃ ms, Re.matches dotall r s = Ok ms ∧ Forall (match_in dotall r s) ms.
Proof. apply matches_from_Ok. lia. Qed.

Lemma finditer_Ok pattern dotall r s :
  Re.compile pattern = Some r →
  ∃ ms, Re.finditer pattern dotall s = Ok ms ∧ Forall (match_in dotall r s) ms.
Proof.
  intros Hr. unfold Re.finditer, Re.compiled. rewrite Hr. apply matches_Ok.
Qed.

Lemma capture_elem_of n caps c : Re.capture n caps = Some c → (n, c) ∈ caps.
Proof.
  induction caps as [|[m c'] caps IH]; simpl; [done|].
  destruct (Nat.eqb_spec n m) as [->|]; [intros [= ->]; left|right; auto].
Qed.

Lemma group_substring dotall r s m n :
  match_in dotall r s m → substring (Re.group m n) s.
Proof.
  intros (Hs & _ & Hn). destruct n as [|n]; [done|].
  unfold Re.group.
  destruct (Re.capture (S n) (Re.m_groups m)) as [[q t]|] eqn:Hc;
    [|apply substring_empty].
  apply capture_elem_of in Hc. rewrite Forall_forall in Hn.
  eapply substring_trans; [|exact Hs]. by apply (Hn _ Hc).
Qed.

(** ** Patterns that need a text *)




(** ** The scanners on a plain text *)


Lemma compile_blocks :
  ∃ r, Re.compile "<([^\s>]+)[^>]*>([\s\S]*?)</\1>" = Some r.
Proof. eexists. vm_compute. reflexivity. Qed.






Lemma res_bind_Ok {A B} (a : A) (f : A → res B) : res_bind (Ok a) f = f a.
Proof. reflexivity. Qed.








(** ** The program on the text of a file *)





Lemma process_xml_file_missing listing input output w :
  files w !! input = None →
  process_xml_file listing input output w = (Raises FileNotFoundError, w).
Proof.
  intros Hw. unfold process_xml_file, find_cdata_sections, io_bind, read_file.
  by rewrite Hw.
Qed.

(** ** Step by step *)



Lemma lift_Ok {A} (a : A) w : lift (Ok a) w = (Returns a, w).
Proof. reflexivity. Qed.

Lemma lift_Raise {A} e w : lift (@Raise A e) w = (Raises (Error e), w).
Proof. reflexivity. Qed.

Lemma io_bind_raises {A B} (m : io A) (f : A → io B) w e w' :
  m w = (Raises e, w') → io_bind m f w = (Raises e, w').
Proof. unfold io_bind. by intros ->. Qed.









(** ** Context keys *)

Lemma free_of_append sep s t :
  free_of sep (s +:+ t) = free_of sep s && free_of sep t.
Proof.
  induction s as [|c s IH]; [done|].
  rewrite append_cons. simpl. by rewrite IH, andb_assoc.
Qed.

Lemma split_char_not_nil sep s : Str.split_char sep s ≠ [].
Proof.
  induction s as [|c s IH]; cbn [Str.split_char]; [done|].
  destruct (Ascii.eqb c sep); [done|]. by destruct (Str.split_char sep s).
Qed.

Lemma split_char_append_free sep a b :
  free_of sep a = true →
  Str.split_char sep (a +:+ b)
  = match Str.split_char sep b with
    | w :: ws => (a +:+ w) :: ws
    | [] => [a]
    end.
Proof.
  intros Ha. induction a as [|c a IH].
  - change (EmptyString +:+ b) with b.
    pose proof (split_char_not_nil sep b). by destruct (Str.split_char sep b).
  - simpl in Ha. apply andb_prop in Ha as [Hc Ha]. apply negb_true_iff in Hc.
    rewrite append_cons. cbn [Str.split_char]. rewrite Hc, (IH Ha).
    by destruct (Str.split_char sep b).
Qed.

Lemma split_char_sep sep b :
  Str.split_char sep (String sep b) = EmptyString :: Str.split_char sep b.
Proof. cbn [Str.split_char]. by rewrite Ascii.eqb_refl. Qed.

(** A part without the separator, the separator, and the rest. *)
Lemma split_char_part sep a b :
  free_of sep a = true →
  Str.split_char sep (a +:+ String sep b) = a :: Str.split_char sep b.
Proof.
  intros Ha. rewrite split_char_append_free, split_char_sep by done.
  by rewrite append_nil_r.
Qed.

Lemma add_identifiers_append context identifiers rest :
  add_identifiers context identifiers +:+ rest
  = context +:+ fold_right (λ i acc, ":" +:+ identifier_part i +:+ acc) rest identifiers.
Proof.
  revert context. induction identifiers as [|i ids IH]; intros context; [done|].
  cbn [add_identifiers fold_left fold_right].
  change (fold_left _ ids ?c) with (add_identifiers c ids).
  rewrite IH. unfold identifier_part. by rewrite !append_assoc.
Qed.

Lemma split_char_identifiers identifiers inner :
  Forall (λ i, free_of ":" (identifier_part i) = true) identifiers →
  free_of ":" inner = true →
  Str.split_char ":" (fold_right (λ i acc, ":" +:+ identifier_part i +:+ acc)
                                 (":" +:+ inner) identifiers)
  = EmptyString :: map identifier_part identifiers ++ [inner].
Proof.
  intros Hids Hinner. induction Hids as [|i ids Hi _ IH].
  - cbn [fold_right map app].
    change (":" +:+ inner) with (String ":" inner).
    by rewrite split_char_sep, split_char_free.
  - cbn [fold_right map app].
    change (":" +:+ ?s) with (String ":" s).
    rewrite split_char_sep. f_equal.
    rewrite split_char_append_free, IH by done. by rewrite append_nil_r.
Qed.

Lemma split_char_context tag identifiers inner :
  free_of ":" tag = true →
  Forall (λ i, free_of ":" (identifier_part i) = true) identifiers →
  free_of ":" inner = true →
  Str.split_char ":" (add_identifiers tag identifiers +:+ ":" +:+ inner)
  = tag :: map identifier_part identifiers ++ [inner].
Proof.
  intros Htag Hids Hinner.
  rewrite add_identifiers_append, split_char_append_free by done.
  rewrite split_char_identifiers by done. by rewrite append_nil_r.
Qed.

Lemma removelast_snoc {A} (l : list A) x : removelast (l ++ [x]) = l.
Proof.
  induction l as [|y l IH]; [done|]. simpl.
  destruct (l ++ [x]) eqn:H; [by destruct l|]. by rewrite IH.
Qed.

Lemma last_snoc {A} (l : list A) x d : List.last (l ++ [x]) d = x.
Proof.
  induction l as [|y l IH]; [done|]. simpl.
  destruct (l ++ [x]) eqn:H; [by destruct l|]. exact IH.
Qed.

(** ** The sections by tag *)

Lemma group_by_tag_step (cdata_by_tag : list (string * list (string * string))) tag :
  dict_get tag
    (match dict_get tag cdata_by_tag with
     | Some _ => cdata_by_tag
     | None => dict_set tag [] cdata_by_tag
     end)
  = Some (default [] (dict_get tag cdata_by_tag)).
Proof.
  destruct (dict_get tag cdata_by_tag) as [l|] eqn:Hget; [done|].
  by rewrite dict_get_dict_set, String.eqb_refl.
Qed.

Lemma group_by_tag_fold cdata_sections :
  ∀ acc t,
    default [] (dict_get t
      (fold_left
         (λ cdata_by_tag section,
            let '(element_context, element_tag, cdata_content) := section in
            let cdata_by_tag :=
              match dict_get element_tag cdata_by_tag with
              | Some _ => cdata_by_tag
              | None => dict_set element_tag [] cdata_by_tag
              end in
            match dict_get element_tag cdata_by_tag with
            | Some l => dict_set element_tag (l ++ [(element_context, cdata_content)])
                                 cdata_by_tag
            | None => cdata_by_tag
            end)
         cdata_sections acc))
    = default [] (dict_get t acc) ++ sections_of t cdata_sections.
Proof.
  induction cdata_sections as [|[[context tag] content] secs IH]; intros acc t.
  - cbn [fold_left]. unfold sections_of. by rewrite filter_nil, app_nil_r.
  - cbn [fold_left]. rewrite IH. rewrite group_by_tag_step.
    rewrite dict_get_dict_set. unfold sections_of. rewrite filter_cons. simpl.
    destruct (String.eqb_spec t tag) as [->|Hne].
    + rewrite decide_True by done. simpl. by rewrite <-app_assoc.
    + rewrite decide_False by congruence. f_equal.
      destruct (dict_get tag acc) as [l|] eqn:Hget; [done|].
      rewrite dict_get_dict_set.
      by destruct (String.eqb_spec t tag).
Qed.

Lemma group_by_tag_nonempty cdata_sections t l :
  dict_get t (group_by_tag cdata_sections) = Some l → l ≠ [].
Proof.
  unfold group_by_tag.
  assert (∀ t l, dict_get t (@nil (string * list (string * string))) = Some l → l ≠ [])
    as Hacc by done.
  revert Hacc t l. generalize (@nil (string * list (string * string))) as acc.
  induction cdata_sections as [|[[context tag] content] secs IH]; intros acc Hacc t l.
  - apply Hacc.
  - cbn [fold_left]. apply IH. clear t l. intros t l.
    rewrite group_by_tag_step, dict_get_dict_set.
    destruct (String.eqb_spec t tag) as [->|Hne].
    + intros [= <-]. by destruct (default [] (dict_get tag acc)).
    + destruct (dict_get tag acc) as [l0|] eqn:Hget; [apply Hacc|].
      rewrite dict_get_dict_set. destruct (String.eqb_spec t tag); [done|apply Hacc].
Qed.

Lemma dict_get_group_by_tag cdata_sections t :
  dict_get t (group_by_tag cdata_sections)
  = match sections_of t cdata_sections with
    | [] => None
    | l => Some l
    end.
Proof.
  pose proof (group_by_tag_fold cdata_sections [] t) as Hfold.
  change (fold_left _ cdata_sections []) with (group_by_tag cdata_sections) in Hfold.
  simpl in Hfold.
  destruct (dict_get t (group_by_tag cdata_sections)) as [l|] eqn:Hget; simpl in Hfold.
  - rewrite <-Hfold. apply group_by_tag_nonempty in Hget. by destruct l.
  - by rewrite <-Hfold.
Qed.

(** ** Paths *)

Lemma split_last_Some c s before after :
  Path.split_last c s = Some (before, after) →
  s = before +:+ String c after ∧ free_of c after = true.
Proof.
  revert before. induction s as [|a s IH]; intros before; simpl; [done|].
  destruct (Path.split_last c s) as [[b e]|] eqn:Hs.
  - intros [= <- <-]. destruct (IH b eq_refl) as [-> He]. by rewrite append_cons.
  - destruct (Ascii.eqb_spec a c) as [->|]; [|done].
    intros [= <- <-]. split; [done|].
    clear IH. induction s as [|a' s IH]; [done|]. simpl in Hs |- *.
    destruct (Path.split_last c s) as [[b e]|]; [done|].
    destruct (Ascii.eqb_spec a' c); [done|]. by apply IH.
Qed.

Lemma split_last_None c s : Path.split_last c s = None → free_of c s = true.
Proof.
  induction s as [|a s IH]; simpl; [done|].
  destruct (Path.split_last c s) as [[b e]|]; [done|].
  destruct (Ascii.eqb_spec a c); [done|]. by intros _; apply IH.
Qed.

Lemma split_last_free c s : free_of c s = true → Path.split_last c s = None.
Proof.
  induction s as [|a s IH]; simpl; [done|].
  intros [Ha Hs]%andb_prop. rewrite (IH Hs).
  apply negb_true_iff in Ha. by rewrite Ha.
Qed.

Lemma split_last_append c before after :
  free_of c after = true →
  Path.split_last c (before +:+ String c after) = Some (before, after).
Proof.
  intros Ha. induction before as [|a b IH].
  - change (EmptyString +:+ String c after) with (String c after). simpl.
    by rewrite split_last_free, Ascii.eqb_refl.
  - rewrite append_cons. simpl. by rewrite IH.
Qed.

Lemma basename_free p : free_of "/" (Path.basename p) = true.
Proof.
  unfold Path.basename. destruct (Path.split_last "/" p) as [[b e]|] eqn:Hs.
  - by apply split_last_Some in Hs as [_ ?].
  - by apply split_last_None.
Qed.

Lemma basename_of_name n : free_of "/" n = true → Path.basename n = n.
Proof. intros Hn. unfold Path.basename. by rewrite split_last_free. Qed.

Lemma basename_in_directory d n :
  free_of "/" n = true → Path.basename (d +:+ String "/" n) = n.
Proof. intros Hn. unfold Path.basename. by rewrite split_last_append. Qed.

Lemma ends_with_slash_append a :
  Path.ends_with_slash a = true → ∃ a', a = a' +:+ "/".
Proof.
  induction a as [|c a IH]; [done|]. simpl.
  destruct a as [|c' a].
  - intros ->%Ascii.eqb_eq. by exists EmptyString.
  - intros (a' & Ha')%IH. exists (String c a'). by rewrite append_cons, <-Ha'.
Qed.

Lemma startswith_free c n :
  free_of c n = true → Str.startswith n (String c EmptyString) = false.
Proof.
  destruct n as [|a n]; [done|]. simpl. intros [Ha _]%andb_prop.
  apply negb_true_iff in Ha. rewrite Ascii.eqb_sym, Ha. done.
Qed.

Lemma basename_join d n :
  free_of "/" n = true → d ≠ EmptyString → Path.basename (Path.join d n) = n.
Proof.
  intros Hn Hd. unfold Path.join. rewrite (startswith_free "/" n Hn).
  destruct (String.eqb_spec d EmptyString) as [->|_]; [done|]. simpl.
  destruct (Path.ends_with_slash d) eqn:He.
  - apply ends_with_slash_append in He as (d' & ->).
    rewrite append_assoc. by apply basename_in_directory.
  - by apply basename_in_directory.
Qed.

Lemma splitext_append p root ext : Path.splitext p = (root, ext) → root +:+ ext = p.
Proof.
  unfold Path.splitext.
  destruct (Path.split_last "/" p) as [[d n]|] eqn:Hp.
  - apply split_last_Some in Hp as [-> _].
    destruct (Path.split_last "." n) as [[r e]|] eqn:Hn.
    + apply split_last_Some in Hn as [-> _].
      destruct (Path.all_dots r); intros [= <- <-]; [apply append_nil_r|].
      by rewrite !append_assoc.
    + intros [= <- <-]. apply append_nil_r.
  - destruct (Path.split_last "." p) as [[r e]|] eqn:Hn.
    + apply split_last_Some in Hn as [-> _].
      destruct (Path.all_dots r); intros [= <- <-]; [apply append_nil_r|done].
    + intros [= <- <-]. apply append_nil_r.
Qed.

Section main_facts.
Variable listing : list string → list string.
Variable timestamp : string.
Variable output : option string.

Lemma output_name_length input_file :
  String.length (output_name timestamp input_file)
  = 8 + String.length (Path.basename input_file) + String.length timestamp.
Proof.
  unfold output_name.
  destruct (Path.splitext (Path.basename input_file)) as [root ext] eqn:Hs.
  apply splitext_append in Hs. rewrite <-Hs. simpl fst. simpl snd.
  change ("sorted_" +:+ ?s) with (String "s" (String "o" (String "r" (String "t"
    (String "e" (String "d" (String "_" s))))))).
  cbn [String.length]. rewrite !length_append. simpl. lia.
Qed.

Lemma output_name_free input_file :
  free_of "/" timestamp = true → free_of "/" (output_name timestamp input_file) = true.
Proof.
  intros Ht. unfold output_name.
  destruct (Path.splitext (Path.basename input_file)) as [root ext] eqn:Hs.
  apply splitext_append in Hs.
  pose proof (basename_free input_file) as Hb. rewrite <-Hs, free_of_append in Hb.
  apply andb_prop in Hb as [Hr He]. simpl fst. simpl snd.
  rewrite !free_of_append, Hr, He, Ht. reflexivity.
Qed.

Lemma output_directory_not_empty d : output_directory output = Some d → d ≠ EmptyString.
Proof.
  unfold output_directory. destruct output as [d'|]; [|done].
  destruct (String.eqb_spec d' EmptyString); [done|]. by intros [= <-].
Qed.

Lemma basename_output_path input_file :
  free_of "/" timestamp = true →
  Path.basename (output_path timestamp output input_file)
  = output_name timestamp input_file.
Proof.
  intros Ht. unfold output_path.
  destruct (output_directory output) as [d|] eqn:Hd.
  - apply basename_join; [by apply output_name_free|by eapply output_directory_not_empty].
  - by apply basename_of_name, output_name_free.
Qed.

Lemma output_path_not_input input_file :
  free_of "/" timestamp = true →
  output_path timestamp output input_file ≠ input_file.
Proof.
  intros Ht Heq. pose proof (basename_output_path input_file Ht) as Hb.
  rewrite Heq in Hb. apply (f_equal String.length) in Hb.
  rewrite output_name_length in Hb. lia.
Qed.
End main_facts.

Section turn_facts.
Variable listing : list string → list string.
Variable timestamp : string.
Variable output : option string.

Lemma prepare_keeps s s1 :
  prepare output s = Some s1 →
  files (sys_world s1) = files (sys_world s) ∧ console s1 = console s.
Proof.
  unfold prepare. destruct (output_directory output) as [d|]; [|by intros [= <-]].
  destruct (plain_directory d s); [|done].
  by destruct (bool_decide (d ∈ directories s)); intros [= <-].
Qed.

(** What a turn prints: the file it reads, then how it ended, then the
    rule. *)
Lemma turn_console input_file s s' :
  turn listing timestamp output input_file s = Some s' →
  ∃ ls, console s' = console s ++ ls ∧ report timestamp output input_file ls.
Proof.
  unfold turn. destruct (prepare output s) as [s1|] eqn:Hp; [|done].
  apply prepare_keeps in Hp as [_ Hc].
  destruct (bool_decide (_ ∈ directories s1)); [done|].
  destruct (process_xml_file _ _ _ _) as [[[]|e|] w]; [| |done].
  - intros [= <-]. eexists. split; [|by left].
    simpl. rewrite Hc, <-!app_assoc. done.
  - intros Hs'. exists [Reading input_file; Failed input_file e; Rule].
    split; [|right; by exists e].
    destruct e; injection Hs' as <-; simpl; rewrite Hc, <-!app_assoc; done.
Qed.

(** A turn changes no file but the output file of its input. *)
Lemma turn_files input_file s s' p :
  turn listing timestamp output input_file s = Some s' →
  p ≠ output_path timestamp output input_file →
  files (sys_world s') !! p = files (sys_world s) !! p.
Proof.
  unfold turn. destruct (prepare output s) as [s1|] eqn:Hp; [|done].
  apply prepare_keeps in Hp as [Hw _]. rewrite <-Hw.
  destruct (bool_decide (_ ∈ directories s1)); [done|].
  pose proof (process_xml_file_is_atomic listing input_file
                (output_path timestamp output input_file)
                (sys_world (print (Reading input_file) s1))) as Ha.
  destruct (process_xml_file _ _ _ _) as [[[]|e|] w]; [| |done].
  - destruct Ha as (text & ->). intros [= <-] Hne. simpl.
    by rewrite lookup_insert_ne.
  - subst w. by destruct e; intros [= <-].
Qed.

Lemma main_console input_files :
  ∀ s s',
    main listing timestamp output input_files s = Some s' →
    ∃ reports, console s' = console s ++ concat reports ∧
               Forall2 (report timestamp output) input_files reports.
Proof.
  induction input_files as [|f fs IH]; intros s s'; simpl.
  - intros [= <-]. exists []. by rewrite app_nil_r.
  - destruct (turn listing timestamp output f s) as [s1|] eqn:Ht; [|done].
    apply turn_console in Ht as (ls & Hc1 & Hr).
    intros (reports & Hc & Hrs)%IH.
    exists (ls :: reports). split; [|by constructor].
    simpl. by rewrite Hc, Hc1, <-app_assoc.
Qed.

Lemma main_files input_files :
  ∀ s s' p,
    main listing timestamp output input_files s = Some s' →
    p ∉ map (output_path timestamp output) input_files →
    files (sys_world s') !! p = files (sys_world s) !! p.
Proof.
  induction input_files as [|f fs IH]; intros s s' p; simpl.
  - by intros [= <-].
  - destruct (turn listing timestamp output f s) as [s1|] eqn:Ht; [|done].
    intros Hm [Hf Hfs]%not_elem_of_cons.
    rewrite (IH _ _ _ Hm Hfs). by eapply turn_files.
Qed.
End turn_facts.

(** ** What the scanners return *)

Lemma for_each_invariant {A S} (Inv : S → Prop) (l : list A) (body : S → A → res S) s :
  Inv s →
  Forall (λ x, ∀ s, Inv s → ∃ s', body s x = Ok s' ∧ Inv s') l →
  ∃ s', for_each l body s = Ok s' ∧ Inv s'.
Proof.
  intros Hs Hl. revert s Hs. induction Hl as [|x l Hx _ IH]; intros s Hs.
  - by exists s.
  - destruct (Hx s Hs) as (s1 & Hb & Hs1). simpl. rewrite Hb. simpl. by apply IH.
Qed.

Lemma spans_sets dotall r p g n :
  spans dotall r p g → sets n r = true → n ∈ g.*1.
Proof.
  induction 1 as [|a c Ha|a min greedy s Hlen Hall|r1 r2 s1 s2 g1 g2 H1 IH1 H2 IH2
                 |r1 r2 s g H IH|r1 r2 s g H IH|n' r s g H IH|n' s]; simpl; try done.
  - rewrite fmap_app, elem_of_app. intros [?|?]%orb_prop; auto.
  - intros [? _]%andb_prop. auto.
  - intros [_ ?]%andb_prop. auto.
  - intros [->%Nat.eqb_eq|?]%orb_prop; [left|right; auto].
Qed.

Lemma capture_is_Some n caps :
  n ∈ (group_texts caps).*1 → is_Some (Re.capture n caps).
Proof.
  induction caps as [|[m c] caps IH]; simpl.
  - by intros ?%elem_of_nil.
  - destruct (Nat.eqb_spec n m) as [->|Hne]; [done|].
    intros [?|?]%elem_of_cons; [done|by apply IH].
Qed.

(** The text of a group, read in the groups without their places. *)
Lemma group_in_texts m n t g :
  group_texts (Re.m_groups m) = (S n, t) :: g → Re.group m (S n) = t.
Proof.
  unfold Re.group. destruct (Re.m_groups m) as [|[k [q t']] caps]; [done|].
  simpl. intros [= -> -> _]. by rewrite Nat.eqb_refl.
Qed.

Lemma group_in_texts_next m n k t' t g :
  k ≠ S n →
  group_texts (Re.m_groups m) = (k, t') :: (S n, t) :: g → Re.group m (S n) = t.
Proof.
  intros Hk. unfold Re.group.
  destruct (Re.m_groups m) as [|[k1 [q1 t1]] [|[k2 [q2 t2]] caps]]; [done..|].
  simpl. intros [= -> -> -> -> _].
  destruct k as [|k]; [|destruct (Nat.eqb_spec n k); [congruence|]]; by rewrite Nat.eqb_refl.
Qed.

Lemma all_match_not c dotall s :
  all_match dotall (Re.Set_ true [Re.SChar c]) s = free_of c s.
Proof.
  induction s as [|a s IH]; [done|]. simpl. rewrite IH.
  by rewrite orb_false_r.
Qed.

Lemma all_match_space dotall s :
  all_match dotall (Re.Space false) s = all_of Str.is_space s.
Proof. induction s as [|a s IH]; [done|]. simpl. by rewrite IH. Qed.

Ltac invert_spans :=
  repeat match goal with
         | H : spans _ (Re.Cat _ _) _ _ |- _ => inversion H; clear H; subst
         | H : spans _ (Re.One _) _ _ |- _ => inversion H; clear H; subst
         | H : spans _ (Re.Group _ _) _ _ |- _ => inversion H; clear H; subst
         | H : spans _ (Re.Repeat _ _ _) _ _ |- _ => inversion H; clear H; subst
         | H : Re.atom_matches _ (Re.Lit _) _ = true |- _ =>
             apply Ascii.eqb_eq in H; subst
         end.

Lemma compile_cdata_regex : Re.compile cdata_pattern_in_block = Some cdata_regex.
Proof. vm_compute. reflexivity. Qed.

(** A match of [cdata_pattern_in_block], taken apart. *)
Lemma cdata_regex_spans p g :
  spans true cdata_regex p g →
  ∃ written_tag space payload,
    p = "<" +:+ written_tag +:+ ">" +:+ space +:+ "<![CDATA[" +:+ payload +:+ "]]>" ∧
    g = [(2, payload); (1, written_tag)] ∧
    written_tag ≠ EmptyString ∧ free_of ">" written_tag = true ∧
    all_of Str.is_space space = true.
Proof.
  unfold cdata_regex. intros H. invert_spans.
  match goal with
  | H1 : all_match _ (Re.Set_ _ _) ?t = true, H2 : all_match _ (Re.Space _) ?w = true,
    H3 : all_match _ Re.Dot ?x = true, Hlen : 1 ≤ String.length ?t |- _ =>
      exists t, w, x; rewrite all_match_not in H1; rewrite all_match_space in H2;
      split; [reflexivity|]; split; [reflexivity|]; split; [|by split];
      intros ->; simpl in Hlen; lia
  end.
Qed.

Lemma compile_block_identifiers :
  ∃ r, Re.compile "<(profileName|name|id|keyname|cfgname|cfgName)>([^<]+)</\1>" = Some r.
Proof. eexists. vm_compute. reflexivity. Qed.

Lemma findall2_Ok pattern r s :
  Re.compile pattern = Some r → ∃ l, findall2 pattern s = Ok l.
Proof.
  intros Hr. unfold findall2.
  destruct (finditer_Ok pattern false r s Hr) as (ms & -> & _). by eexists.
Qed.

(** A match of [cdata_pattern_in_block] found in a text that occurs in
    [content] gives a CDATA section of [content]. *)
Lemma cdata_match_section content s m :
  substring s content → match_in true cdata_regex s m →
  cdata_section_in content (Str.strip (Re.group m 1)) (Re.group m 2).
Proof.
  intros Hs (Hsub & Hp & _).
  apply cdata_regex_spans in Hp as (t & w & x & Ht & Hg & Hne & Hfree & Hw).
  rewrite (group_in_texts m 1 x _ Hg).
  rewrite (group_in_texts_next m 0 2 x t [] ltac:(done) Hg).
  exists t, w. repeat split; try done.
  rewrite <-Ht. by eapply substring_trans.
Qed.

Lemma find_cdata_sections_in_sections content :
  ∃ cdata_sections,
    find_cdata_sections_in content = Ok cdata_sections ∧
    Forall (λ section, cdata_section_in content section.1.2 section.2 ∧
                       ∃ context, section.1.1 = context +:+ ":" +:+ section.1.2)
           cdata_sections.
Proof.
  unfold find_cdata_sections_in.
  destruct compile_blocks as (rb & Hrb).
  destruct (finditer_Ok _ false rb content Hrb) as (blocks & Hms & Hblocks).
  rewrite Hms, res_bind_Ok.
  apply for_each_invariant; [by apply Forall_nil|].
  eapply Forall_impl; [exact Hblocks|]. intros block Hblock acc Hacc. cbv beta zeta.
  destruct (finditer_Ok _ true _ (Re.group block 2) compile_cdata_regex)
    as (cms & Hcms & Hcdata).
  rewrite Hcms, res_bind_Ok.
  apply for_each_invariant; [done|].
  eapply Forall_impl; [exact Hcdata|]. intros cm Hcm acc' Hacc'. cbv beta zeta.
  destruct compile_block_identifiers as (ri & Hri).
  destruct (findall2_Ok _ ri (Re.group block 2) Hri) as (ids & Hids).
  rewrite Hids, res_bind_Ok. eexists. split; [reflexivity|].
  apply Forall_app. split; [done|]. apply Forall_singleton. split.
  - cbn [fst snd]. eapply cdata_match_section; [|exact Hcm].
    by eapply group_substring.
  - cbn [fst snd]. by eexists.
Qed.

(** *** The scanner of escaped declarations *)

Lemma compile_xml_decl_regex : Re.compile xml_decl_pattern = Some xml_decl_regex.
Proof. vm_compute. reflexivity. Qed.

Lemma xml_decl_regex_sets : sets 2 xml_decl_regex = true.
Proof. vm_compute. reflexivity. Qed.

Lemma xml_decl_regex_spans p g :
  spans true xml_decl_regex p g →
  ∃ written_tag x rest,
    p = "<" +:+ written_tag +:+ ">" +:+ rest ∧
    g = [(2, x); (1, written_tag)] ∧
    written_tag ≠ EmptyString ∧ free_of ">" written_tag = true.
Proof.
  unfold xml_decl_regex. intros H. invert_spans.
  match goal with
  | H1 : all_match _ (Re.Set_ _ [Re.SChar ">"]) ?t = true,
    Hlen : 1 ≤ String.length ?t, Hor : spans _ (Re.Or _ _) ?x _ |- _ =>
      rewrite all_match_not in H1;
      assert (t ≠ EmptyString) by (intros ->; simpl in Hlen; lia);
      inversion Hor as [| | | |? ? ? ? Hl|? ? ? ? Hr| |]; clear Hor; subst;
      [|inversion Hr as [| | | |? ? ? ? Hl|? ? ? ? Hr'| |]; clear Hr; subst];
      invert_spans; eexists t, _, _; (split; [reflexivity|]); by split
  end.
Qed.

Lemma split_ws_empty : Str.split_ws EmptyString = [].
Proof. reflexivity. Qed.

Lemma find_xml_declaration_escaped_content_in_outcome content :
  (∃ escaped_xml_elements,
      find_xml_declaration_escaped_content_in content = Ok escaped_xml_elements ∧
      Forall (tag_in content) (keys escaped_xml_elements)) ∨
  find_xml_declaration_escaped_content_in content = Raise IndexError.
Proof.
  unfold find_xml_declaration_escaped_content_in.
  destruct (finditer_Ok _ true _ content compile_xml_decl_regex) as (ms & Hms & Hall).
  rewrite Hms, res_bind_Ok. clear Hms.
  assert (Forall (tag_in content) (keys (@nil (string * string)))) as Hacc
    by apply Forall_nil_2.
  revert Hacc. generalize (@nil (string * string)).
  induction Hall as [|m ms Hm _ IH]; intros acc Hacc; [left; by eexists|].
  cbn [for_each].
  destruct Hm as (Hsub & Hp & _).
  apply xml_decl_regex_spans in Hp as (t & x & rest & Ht & Hg & Hne & Hfree).
  rewrite (group_in_texts_next m 0 2 x t [] ltac:(done) Hg).
  assert (is_Some (Re.capture 2 (Re.m_groups m))) as [[p t'] Hc].
  { apply capture_is_Some. rewrite Hg. left. }
  unfold Re.start. rewrite Hc.
  destruct (Str.split_ws (Str.strip t)) as [|first more] eqn:Hws; [by right|].
  rewrite res_bind_Ok. apply IH.
  rewrite keys_dict_set. case_bool_decide; [done|].
  apply Forall_app. split; [done|]. apply Forall_singleton.
  exists t. repeat split; try done.
  - intros Hs. by rewrite Hs in Hws.
  - eapply substring_trans; [|exact Hsub]. rewrite Ht.
    exists EmptyString, rest. by rewrite <-!append_assoc.
Qed.

(** *** The scanner of the special elements *)








(** ** What [prettify] prints *)

(** *** Replacing one character *)


















(** *** Attribute values *)






(** *** Names *)





(** *** Start tags *)










(** *** The content of an element *)








(** *** What [tostring] writes is read back *)










(** *** The root element *)












(** *** [prettify] *)






(** *** The root of the sorted tree *)







(** *** The first line *)







(** *** The printed text of a file *)




(** * The claims *)

(** ** Key order (C1, C5) *)

(** C1. Every dictionary of the tree [sort_dict] returns has its keys in
    this order: first the keys that occur, up to case, in the priority list
    selected for the parent tag, by their position in that list, then the
    other keys in case-insensitive alphabetical order; the keys of a sorted
    dictionary are the keys of the dictionary.  For
    [<Root><b>2</b><a>1</a><id>X</id></Root>] and the global list [id] the
    children come out as [id], [a], [b], in the tree and in the file the
    program writes. *)
Theorem sort_dict_key_order lower global_keywords per_tag_keywords d t :
  distinct_keys d = true →
  ordered_node lower global_keywords per_tag_keywords t
               (sort_dict lower global_keywords per_tag_keywords d t) ∧
  (∀ kvs, d = Mapping kvs →
     ∃ kvs', sort_dict lower global_keywords per_tag_keywords d t = Mapping kvs' ∧
             keys kvs' ≡ₚ keys kvs) ∧
  (∃ root,
     ET.parse scenario_order = Ok root ∧
     xml_to_dict root = Mapping [("b", Leaf "2"); ("a", Leaf "1"); ("id", Leaf "X")] ∧
     sort_dict Str.lower ["id"] [] (Mapping [("Root", xml_to_dict root)]) (Some "Root")
     = Mapping [("Root", Mapping [("id", Leaf "X"); ("a", Leaf "1"); ("b", Leaf "2")])]) ∧
  run id scenario_order
  = (Returns tt,
     [("output.xml", lines ["<Root>"; "    <id>X</id>"; "    <a>1</a>"; "    <b>2</b>";
                            "</Root>"])]).
Proof.
  intros Hd. split; [by apply sort_dict_ordered|]. split; [|split].
  - intros kvs ->. apply distinct_keys_Mapping in Hd as [Hnd _].
    eexists. split; [by apply sort_dict_Mapping|]. apply keys_sorted_items.
  - eexists. split; [vm_compute; reflexivity|]. split; vm_compute; reflexivity.
  - vm_compute. reflexivity.
Qed.

Lemma sort_dict_key_order_witness :
  distinct_keys example_tree = true ∧
  ordered_node Str.lower priority_keywords element_priority_keywords_map (Some "Root")
               (sort_dict Str.lower priority_keywords element_priority_keywords_map
                          example_tree (Some "Root")).
Proof.
  split; [reflexivity|].
  apply (sort_dict_key_order Str.lower priority_keywords element_priority_keywords_map).
  reflexivity.
Defined.

(** C5. When the parent tag has a list of its own, that list alone decides:
    a key outside it sorts as [(1, key_lower)], after every key of the list,
    whatever the global list holds, and the key computed for an item is the
    same for every global list.  Under [TransRouting], whose list is
    [profileName], the keys [id] and [name] of the global list sort
    alphabetically after [profileName]. *)
Theorem per_tag_list_replaces_global lower global_keywords per_tag_keywords t l :
  t ≠ EmptyString →
  dict_get t per_tag_keywords = Some l →
  resolved_keywords global_keywords per_tag_keywords (Some t) = l ∧
  (∀ k v, ¬ listed lower l k →
     priority_key_func lower global_keywords per_tag_keywords (Some t) (k, v)
     = Alpha (lower k)) ∧
  (∀ other_global item,
     priority_key_func lower global_keywords per_tag_keywords (Some t) item
     = priority_key_func lower other_global per_tag_keywords (Some t) item) ∧
  (∀ kvs, NoDup (keys kvs) →
     ∃ kvs', sort_dict lower global_keywords per_tag_keywords (Mapping kvs) (Some t)
             = Mapping kvs' ∧
             key_order lower l (keys kvs') ∧ keys kvs' ≡ₚ keys kvs) ∧
  sort_dict Str.lower priority_keywords element_priority_keywords_map
            (Mapping [("zeta", Leaf "1"); ("name", Leaf "2"); ("Alpha", Leaf "3");
                      ("profileName", Leaf "4"); ("id", Leaf "5")])
            (Some "TransRouting")
  = Mapping [("profileName", Leaf "4"); ("Alpha", Leaf "3"); ("id", Leaf "5");
             ("name", Leaf "2"); ("zeta", Leaf "1")].
Proof.
  intros Ht Hl.
  assert (∀ g, resolved_keywords g per_tag_keywords (Some t) = l) as Hres.
  { intros g. unfold resolved_keywords. rewrite Hl.
    by destruct (String.eqb_spec t EmptyString). }
  split; [apply Hres|]. split; [|split; [|split]].
  - intros k v Hk. unfold priority_key_func. rewrite Hres. simpl.
    destruct (first_match lower (lower k) 0 l) as [i|] eqn:Hfm; [|done].
    destruct Hk. apply first_match_Some in Hfm as (_ & (p & Hp & Hpk) & _).
    exists p. split; [by eapply list_elem_of_lookup_2|done].
  - intros g item. unfold priority_key_func. by rewrite !Hres.
  - intros kvs Hnd. eexists. split; [by apply sort_dict_Mapping|].
    split; [|apply keys_sorted_items].
    rewrite <-(Hres global_keywords). apply sorted_key_order, sorted_items_sorted.
  - vm_compute. reflexivity.
Qed.

Lemma per_tag_list_replaces_global_witness :
  "TransRouting" ≠ EmptyString ∧
  dict_get "TransRouting" element_priority_keywords_map = Some ["profileName"] ∧
  resolved_keywords priority_keywords element_priority_keywords_map (Some "TransRouting")
  = ["profileName"].
Proof.
  split; [discriminate|]. split; [reflexivity|].
  apply (per_tag_list_replaces_global Str.lower priority_keywords
           element_priority_keywords_map "TransRouting" ["profileName"]);
    [discriminate|reflexivity].
Defined.

(** ** Idempotence (C6) *)

(** C6. Sorting a sorted tree changes nothing:
    [sort_dict (sort_dict d t) t = sort_dict d t] for every tree with
    distinct keys and every parent tag, and for every root the elements the
    program prints give back, through [xml_to_dict], the sorted tree, which
    sorting leaves as it is.  A second run of the program is another
    matter: for [<Root><a>&lt;x/&gt;]]&gt;</a></Root>] the last pass wraps
    the text [<x/>]]>] in a CDATA block, the file written holds
    [<![CDATA[<x/>]]>]]>], and the program run on that file raises the
    [ParseError] of the parser and writes nothing. *)
Theorem second_run_fails_on_written_file :
  (∀ lower global_keywords per_tag_keywords d t,
     distinct_keys d = true →
     sort_dict lower global_keywords per_tag_keywords
               (sort_dict lower global_keywords per_tag_keywords d t) t
     = sort_dict lower global_keywords per_tag_keywords d t) ∧
  (∀ root, ∃ new_root,
     sorted_root root = Ok new_root ∧
     xml_to_dict new_root
     = sort_dict Str.lower priority_keywords element_priority_keywords_map
                 (xml_to_dict root) (Some (tag new_root)) ∧
     sort_dict Str.lower priority_keywords element_priority_keywords_map
               (Mapping [(tag new_root, xml_to_dict new_root)]) (Some (tag new_root))
     = Mapping [(tag new_root, xml_to_dict new_root)]) ∧
  run id scenario_bracket = (Returns tt, [("output.xml", written_bracket)]) ∧
  ET.parse written_bracket = Raise ParseError ∧
  run id written_bracket = (Raises (Error ParseError), []).
Proof.
  split; [intros; by apply sort_dict_idempotent|]. split.
  - intros root. destruct (sorted_root_fixed root) as (e & He & _ & Hx & Hfix).
    exists e. split; [exact He|]. split; [exact Hx|exact Hfix].
  - repeat split; vm_compute; reflexivity.
Qed.

(** ** Lists (C9) *)

(** C9. In the tree [xml_to_dict] builds, every list that is the value of a
    key holds two items or more; [sort_dict] keeps that, and the lists of
    the sorted tree have the lengths of the lists of the tree. *)
Theorem lists_hold_two_items lower global_keywords per_tag_keywords d t :
  (∀ element, lists_hold_two (xml_to_dict element) = true) ∧
  (lists_hold_two d = true →
   lists_hold_two (sort_dict lower global_keywords per_tag_keywords d t) = true) ∧
  (distinct_keys d = true →
   list_lengths (sort_dict lower global_keywords per_tag_keywords d t)
   ≡ₚ list_lengths d).
Proof.
  split; [|split].
  - intros e. apply canonical_lists_hold_two, xml_to_dict_canonical.
  - apply sort_dict_lists_hold_two.
  - apply sort_dict_list_lengths.
Qed.

Lemma lists_hold_two_items_witness :
  lists_hold_two example_tree = true ∧
  lists_hold_two (sort_dict Str.lower priority_keywords element_priority_keywords_map
                            example_tree (Some "Root")) = true.
Proof.
  split; [reflexivity|].
  apply (lists_hold_two_items Str.lower priority_keywords element_priority_keywords_map
           example_tree (Some "Root")).
  reflexivity.
Defined.

(** ** Namespace and attributes (C7, C10) *)




(** C10. [xml_to_dict] returns the same tree for an element and for the
    element without its attributes, and in the tree of elements that
    [dict_to_xml] builds for a parsed root, the root carries at most the
    attribute [xmlns] and no other element carries any: the attributes
    [a='1'] and [c='2'] of the namespace scenario, and the attribute [b='1']
    around an escaped declaration, are not in the file written.  The text
    pass for escaped declarations (lines 484-505) then searches the printed
    text for a pattern made of the tag as the source text has it, and pastes
    that tag.  When the value of [b] is a bar the pattern is an alternation;
    its second branch matches from the closing quote of [xmlns], and the
    file written holds the source tag, [b] included. *)
Theorem source_tag_pasted_with_attributes :
  (∀ element, xml_to_dict (without_attributes element) = xml_to_dict element) ∧
  (∀ root, ∃ new_root,
     sorted_root root = Ok new_root ∧
     (attrib new_root = [] ∨ ∃ uri, attrib new_root = [("xmlns", uri)]) ∧
     Forall (λ c, attrib c = []) (descendants new_root)) ∧
  run id scenario_namespace = (Returns tt, [("output.xml", sorted_namespace)]) ∧
  run id (scenario_attribute "1") = (Returns tt, [("output.xml", written_attribute)]) ∧
  (∃ content,
     find_xml_declaration_escaped_content_in scenario_bar = Ok [(tag_bar, content)]) ∧
  run id scenario_bar = (Returns tt, [("output.xml", written_bar)]) ∧
  Str.contains written_bar (" b=" +:+ ET.dq +:+ "|" +:+ ET.dq) = true.
Proof.
  split; [apply xml_to_dict_without_attributes|]. split.
  - intros root.
    destruct (root_namespace_cases (tag root)) as [Hns|[uri Hns]];
      destruct (sorted_root_bare root _ Hns) as (e & He & Ha & Hd);
      exists e; (split; [exact He|]); (split; [|exact Hd]).
    + by left.
    + right. by exists uri.
  - repeat split; try (vm_compute; reflexivity).
    eexists. vm_compute. reflexivity.
Qed.

(** ** One write, at the end (C8) *)

(** C8. Whatever the files hold, [process_xml_file] either returns after
    exactly one write, the write of the output file, or does not return and
    leaves every file and the record of writes as they were. *)
Theorem output_written_once_at_the_end listing input_file output_file w :
  match process_xml_file listing input_file output_file w with
  | (Returns _, w') =>
      ∃ text, files w' = <[output_file := text]> (files w) ∧
              writes w' = (output_file, text) :: writes w
  | (_, w') => w' = w
  end.
Proof.
  pose proof (process_xml_file_is_atomic listing input_file output_file w) as H.
  destruct (process_xml_file listing input_file output_file w) as [[[]|e|] w'];
    [|exact H..].
  destruct H as [text ->]. by exists text.
Qed.

(** ** Rejection (C4) *)




(** ** CDATA payloads (C2, C3) *)

(** C3, at an input where the payload of one block is written into the
    other.  The second [profileXml] carries an attribute; the scanner
    catalogues the two sections under two tags, the tag as it is written
    with the attribute being another tag, so that each counts as the only
    section of its tag.  The branch for a tag with one section then writes
    [<x/>] into every [profileXml] of the printed text, which holds no
    attribute: whatever the order in which the set of special elements is
    listed, the file written holds [<x/>] in the block of [P1] and in the
    block of [P2], and [<y/>] nowhere.  Without the attribute the payloads
    stay in their blocks. *)
Theorem attributed_sibling_gets_the_other_payload listing :
  (∀ l, listing l ≡ₚ l) →
  (∃ context,
     find_cdata_sections_in scenario_attributed_sibling
     = Ok [(context +:+ ":profileXml", "profileXml", "<x/>");
           (context +:+ ":profileXml v=" +:+ ET.dq +:+ "1" +:+ ET.dq,
            "profileXml v=" +:+ ET.dq +:+ "1" +:+ ET.dq, "<y/>")]) ∧
  routing_blocks scenario_attributed_sibling = Ok [("P1", "<x/>"); ("P2", "<y/>")] ∧
  run listing scenario_attributed_sibling
  = (Returns tt, [("output.xml", written_attributed_sibling)]) ∧
  routing_blocks written_attributed_sibling = Ok [("P1", "<x/>"); ("P2", "<x/>")] ∧
  Str.contains written_attributed_sibling "<y/>" = false ∧
  run listing scenario_siblings = (Returns tt, [("output.xml", sorted_siblings)]) ∧
  routing_blocks sorted_siblings = Ok [("P1", "<x/>"); ("P2", "<y/>")].
Proof.
  intros Hp.
  split; [exists "Root:profileName=P1:profileName=P2"; vm_compute; reflexivity|].
  split; [vm_compute; reflexivity|]. split; [|split; [vm_compute; reflexivity|]].
  - eapply (run_every_listing listing scenario_attributed_sibling _
              "Root" "TransRouting" "normalizationSettings");
      [vm_compute; reflexivity..|discriminate|discriminate|discriminate| |exact Hp].
    repeat (apply Forall_cons; split; [vm_compute; reflexivity|]).
    constructor.
  - split; [vm_compute; reflexivity|]. split; [|vm_compute; reflexivity].
    eapply (run_every_listing listing scenario_siblings _
              "Root" "TransRouting" "normalizationSettings");
      [vm_compute; reflexivity..|discriminate|discriminate|discriminate| |exact Hp].
    repeat (apply Forall_cons; split; [vm_compute; reflexivity|]).
    constructor.
Qed.

Lemma attributed_sibling_gets_the_other_payload_witness :
  (∀ l : list string, id l ≡ₚ l) ∧
  run id scenario_attributed_sibling
  = (Returns tt, [("output.xml", written_attributed_sibling)]).
Proof.
  split; [reflexivity|].
  apply (attributed_sibling_gets_the_other_payload id). reflexivity.
Defined.

(** C2, at the input where the program loses the payloads.  The two sibling
    blocks hold the CDATA payloads [hello] and [world]; the scanner finds
    both, and the file written holds no CDATA block at all: the payloads
    are left as plain text. *)
Theorem plain_sibling_payloads_lose_cdata listing :
  (∀ l, listing l ≡ₚ l) →
  (∃ context,
     find_cdata_sections_in scenario_plain_payloads
     = Ok [(context, "profileXml", "hello"); (context, "profileXml", "world")]) ∧
  run listing scenario_plain_payloads
  = (Returns tt, [("output.xml", sorted_plain_payloads)]) ∧
  Str.contains sorted_plain_payloads "<![CDATA[" = false.
Proof.
  intros Hp. split; [eexists; vm_compute; reflexivity|].
  split; [|vm_compute; reflexivity].
  eapply (run_every_listing listing scenario_plain_payloads _
            "Root" "TransRouting" "normalizationSettings");
    [vm_compute; reflexivity..|discriminate|discriminate|discriminate| |exact Hp].
  repeat (apply Forall_cons; split; [vm_compute; reflexivity|]).
  constructor.
Qed.

Lemma plain_sibling_payloads_lose_cdata_witness :
  (∀ l : list string, id l ≡ₚ l) ∧
  run id scenario_plain_payloads = (Returns tt, [("output.xml", sorted_plain_payloads)]).
Proof.
  split; [reflexivity|].
  apply (plain_sibling_payloads_lose_cdata id). reflexivity.
Defined.

(** * Further properties of the program *)

(** ** The dictionary of an element *)

(** X1. [xml_to_dict] returns a string exactly for an element without child
    elements: the stripped text, empty when there is none.  For an element
    with children it returns a dictionary whose keys are the local tags of
    the children, each once, in the order in which they first occur. *)
Theorem xml_to_dict_keys_in_document_order (e : Element) :
  match xml_to_dict e with
  | Leaf s => children e = [] ∧ s = leaf_text (text e)
  | Mapping kvs =>
      children e ≠ [] ∧ NoDup (keys kvs) ∧
      keys kvs = first_occurrences (map local_tag (children e))
  | Sequence _ => False
  end.
Proof.
  destruct e as [t a x [|c cs] tl].
  - by rewrite xml_to_dict_leaf.
  - pose proof (xml_to_dict_faithful (Elem t a x (c :: cs) tl)) as Hf.
    rewrite xml_to_dict_children in Hf |- *.
    apply faithful_Mapping in Hf as (_ & Hnd & _).
    split; [done|]. split; [done|].
    by apply (keys_fold_add_element (c :: cs) [] []).
Qed.

(** X2. Under a key, [xml_to_dict] holds the dictionaries of the children
    with that local tag, in the order of the document: one value for one
    child, a list for two or more, and children of other tags between them
    do not matter. *)
Theorem xml_to_dict_groups_by_tag (e : Element) (k : string) :
  items_under k (xml_to_dict e)
  = map xml_to_dict (filter (λ c, local_tag c = k) (children e)).
Proof.
  destruct e as [t a x [|c cs] tl].
  - by rewrite xml_to_dict_leaf.
  - rewrite xml_to_dict_children.
    by rewrite (items_under_fold_add_element (c :: cs) [] k).
Qed.

(** X3. [xml_to_dict] reads the local tags of the children, their structure
    and the stripped text of the elements without children, and nothing
    else: the tail after an element, the text beside child elements, the
    namespace of a tag and the white space around a text do not reach the
    dictionary. *)
Theorem xml_to_dict_reads_structure_only (e : Element) :
  xml_to_dict (seen e) = xml_to_dict e ∧ seen (seen e) = seen e.
Proof.
  split; [apply xml_to_dict_seen|].
  induction e as [t a x cs tl IH] using Element_ind'. simpl.
  rewrite strip_namespace_idempotent. f_equal.
  - destruct cs as [|c cs]; [|done]. simpl. f_equal.
    destruct x as [s|]; cbn [leaf_text]; [apply strip_idempotent|done].
  - induction IH as [|c cs Hc _ IHcs]; simpl; [done|]. by rewrite Hc, IHcs.
Qed.

(** ** From the dictionary back to elements *)

(** X4. Every tree [xml_to_dict] builds is faithful, and the elements
    [dict_to_xml] makes of a faithful tree give the tree back through
    [xml_to_dict], whatever the tag and the namespace given for the
    root. *)
Theorem dict_to_xml_then_xml_to_dict (key : string) (d : Node)
    (namespace : option (list (string * string))) :
  (∀ element, faithful (xml_to_dict element) = true) ∧
  (faithful d = true →
   ∃ e, dict_to_xml key d namespace = Ok e ∧ xml_to_dict e = d ∧ tag e = key).
Proof. split; [apply xml_to_dict_faithful|apply dict_to_xml_round_trip]. Qed.

Lemma dict_to_xml_then_xml_to_dict_witness :
  faithful example_tree = true ∧
  ∃ e, dict_to_xml "Root" example_tree None = Ok e ∧ xml_to_dict e = example_tree ∧
       tag e = "Root".
Proof.
  split; [reflexivity|].
  apply (dict_to_xml_then_xml_to_dict "Root" example_tree None). reflexivity.
Defined.

(** ** Sorting *)

(** X5. In the dictionary [sort_dict] returns, the value of a key is the
    value the key had, sorted with that key as the parent tag; a key that
    was missing is still missing. *)
Theorem sort_dict_lookup lower global_keywords per_tag_keywords kvs t k :
  NoDup (keys kvs) →
  ∃ kvs',
    sort_dict lower global_keywords per_tag_keywords (Mapping kvs) t = Mapping kvs' ∧
    dict_get k kvs'
    = (λ v, sort_dict lower global_keywords per_tag_keywords v (Some k)) <$> dict_get k kvs.
Proof.
  intros Hnd. eexists. split; [by apply sort_dict_Mapping|].
  by apply dict_get_sorted_items.
Qed.

Lemma sort_dict_lookup_witness :
  NoDup (keys [("b", Leaf "1"); ("BdmObject", Mapping [("id", Leaf "2"); ("name", Leaf "3")])]) ∧
  ∃ kvs',
    sort_dict Str.lower priority_keywords element_priority_keywords_map
              (Mapping [("b", Leaf "1");
                        ("BdmObject", Mapping [("id", Leaf "2"); ("name", Leaf "3")])])
              (Some "Root") = Mapping kvs' ∧
    dict_get "BdmObject" kvs' = Some (Mapping [("name", Leaf "3"); ("id", Leaf "2")]).
Proof.
  assert (NoDup (keys [("b", Leaf "1");
                       ("BdmObject", Mapping [("id", Leaf "2"); ("name", Leaf "3")])]))
    as Hnd by (apply (bool_decide_unpack _); vm_compute; exact I).
  split; [exact Hnd|].
  destruct (sort_dict_lookup Str.lower priority_keywords element_priority_keywords_map
              _ (Some "Root") "BdmObject" Hnd) as (kvs' & Hs & Hg).
  exists kvs'. split; [exact Hs|]. rewrite Hg. reflexivity.
Defined.

(** X6. When no two keys of a dictionary are equal up to case, the sorted
    tree does not depend on the order in which the keys came: two trees
    that differ only in the order of the items of their dictionaries sort
    to the same tree. *)
Theorem sort_dict_order_independent lower global_keywords per_tag_keywords d d' t :
  reordered d d' →
  case_distinct lower d = true →
  sort_dict lower global_keywords per_tag_keywords d t
  = sort_dict lower global_keywords per_tag_keywords d' t.
Proof. apply sort_dict_reordered. Qed.

Lemma sort_dict_order_independent_witness :
  reordered (Mapping [("b", Leaf "1"); ("id", Leaf "2"); ("A", Leaf "3")])
            (Mapping [("A", Leaf "3"); ("b", Leaf "1"); ("id", Leaf "2")]) ∧
  case_distinct Str.lower (Mapping [("b", Leaf "1"); ("id", Leaf "2"); ("A", Leaf "3")])
  = true ∧
  sort_dict Str.lower priority_keywords element_priority_keywords_map
            (Mapping [("b", Leaf "1"); ("id", Leaf "2"); ("A", Leaf "3")]) None
  = sort_dict Str.lower priority_keywords element_priority_keywords_map
              (Mapping [("A", Leaf "3"); ("b", Leaf "1"); ("id", Leaf "2")]) None.
Proof.
  assert (reordered (Mapping [("b", Leaf "1"); ("id", Leaf "2"); ("A", Leaf "3")])
                    (Mapping [("A", Leaf "3"); ("b", Leaf "1"); ("id", Leaf "2")]))
    as Hr.
  { apply (reordered_Mapping _ _ [("A", Leaf "3"); ("b", Leaf "1"); ("id", Leaf "2")]).
    - symmetry. apply (Permutation_cons_append [_; _]).
    - repeat constructor. }
  split; [exact Hr|]. split; [reflexivity|].
  apply (sort_dict_order_independent Str.lower priority_keywords
           element_priority_keywords_map _ _ None Hr).
  reflexivity.
Defined.

(** X7. Keys that are equal up to case get the same sort key, and the
    sorted dictionary keeps them in the order they had: for every lowered
    key, the keys that lower to it come in the order of the input. *)
Theorem sort_dict_keeps_case_variants_in_order lower global_keywords per_tag_keywords
    kvs t c :
  NoDup (keys kvs) →
  ∃ kvs',
    sort_dict lower global_keywords per_tag_keywords (Mapping kvs) t = Mapping kvs' ∧
    filter (λ k, lower k = c) (keys kvs') = filter (λ k, lower k = c) (keys kvs).
Proof.
  intros Hnd. eexists. split; [by apply sort_dict_Mapping|].
  apply keys_sorted_items_stable.
Qed.

Lemma sort_dict_keeps_case_variants_in_order_witness :
  NoDup (keys [("b", Leaf "1"); ("Name", Leaf "2"); ("name", Leaf "3"); ("NAME", Leaf "4")]) ∧
  ∃ kvs',
    sort_dict Str.lower priority_keywords element_priority_keywords_map
              (Mapping [("b", Leaf "1"); ("Name", Leaf "2"); ("name", Leaf "3");
                        ("NAME", Leaf "4")]) None = Mapping kvs' ∧
    filter (λ k, Str.lower k = "name") (keys kvs') = ["Name"; "name"; "NAME"].
Proof.
  assert (NoDup (keys [("b", Leaf "1"); ("Name", Leaf "2"); ("name", Leaf "3");
                       ("NAME", Leaf "4")]))
    as Hnd by (apply (bool_decide_unpack _); vm_compute; exact I).
  split; [exact Hnd|].
  destruct (sort_dict_keeps_case_variants_in_order
              Str.lower priority_keywords element_priority_keywords_map
              _ None "name" Hnd) as (kvs' & Hs & Hf).
  exists kvs'. split; [exact Hs|]. rewrite Hf. reflexivity.
Defined.

(** ** The tree of elements the program prints *)

(** X8. The elements the program prints are the elements of the file as
    [xml_to_dict] reads them, rearranged: below every element, the children
    with one tag in the output are the children with that tag in the input,
    in the same order, each rearranged in the same way.  No element is
    lost, none is added, and none moves to another parent. *)
Theorem sorting_only_rearranges (root : Element) :
  ∃ new_root,
    sorted_root root = Ok new_root ∧
    rearranged (seen root) (without_attributes new_root).
Proof.
  destruct (sorted_root_Ok root) as (ns & e & _ & He & Hs).
  exists e. split; [exact Hs|]. by eapply sorted_element_rearranged.
Qed.

(** X9. In the elements the program prints, the children of every element
    come in runs of one tag, each tag in one run: siblings with the same tag
    that other elements separated in the file are brought together. *)
Theorem siblings_come_in_runs (root : Element) :
  ∃ new_root,
    sorted_root root = Ok new_root ∧
    Forall (λ e, in_runs (map tag (children e))) (new_root :: descendants new_root).
Proof.
  destruct (sorted_root_Ok root) as (ns & e & _ & He & Hs).
  exists e. split; [exact Hs|].
  eapply dict_to_xml_in_runs; [|exact He].
  apply (proj1 (distinct_keys_faithful_entry _)).
  apply (proj1 (sort_dict_faithful_entry _ _ _ _ _)), xml_to_dict_faithful.
Qed.

(** ** The program and the files *)









(** ** Context keys and the catalogue *)

(** X14. The context key the scanners build, the tag of the block, the
    identifiers as [:type=value] and the tag that holds the content after a
    last colon, is read back by the passes as it was built when no part
    holds a colon: the first part is the tag of the block, the last the tag
    of the content, and the parts between are the identifiers; an
    identifier whose type and value hold no [=] splits into the two. *)
Theorem context_key_is_read_back tag identifiers inner :
  free_of ":" tag = true →
  Forall (λ i, free_of ":" (identifier_part i) = true) identifiers →
  free_of ":" inner = true →
  let parts := Str.split_char ":" (add_identifiers tag identifiers +:+ ":" +:+ inner) in
  List.hd EmptyString parts = tag ∧
  middle parts = map identifier_part identifiers ∧
  List.last parts EmptyString = inner ∧
  ∀ i, free_of "=" i.1 = true → free_of "=" i.2 = true →
       Str.split_char "=" (identifier_part i) = [i.1; i.2].
Proof.
  intros Htag Hids Hinner parts. subst parts.
  rewrite split_char_context by done.
  split; [done|]. split; [apply removelast_snoc|].
  split; [apply (last_snoc (tag :: map identifier_part identifiers))|].
  intros [t v] Ht Hv. unfold identifier_part. simpl in *.
  change ("=" +:+ v) with (String "=" v).
  rewrite split_char_part by done. by rewrite split_char_free.
Qed.

Lemma context_key_is_read_back_witness :
  Str.split_char ":" (add_identifiers "TransRouting" [("profileName", "P1"); ("id", "7")]
                      +:+ ":" +:+ "profileXml")
  = ["TransRouting"; "profileName=P1"; "id=7"; "profileXml"] ∧
  middle (Str.split_char ":"
            (add_identifiers "TransRouting" [("profileName", "P1"); ("id", "7")]
             +:+ ":" +:+ "profileXml"))
  = ["profileName=P1"; "id=7"].
Proof.
  split; [reflexivity|].
  apply (context_key_is_read_back "TransRouting" [("profileName", "P1"); ("id", "7")]
           "profileXml"); [reflexivity| |reflexivity].
  repeat constructor.
Defined.

(** X15. [cdata_by_tag] holds, under the tag of an element, the sections
    catalogued for that tag, each with its context, in the order in which
    they were found, and no entry for a tag without section: the first pass
    takes its simple branch for a tag exactly when one section has it. *)
Theorem cdata_by_tag_lists_the_sections cdata_sections element_tag :
  dict_get element_tag (group_by_tag cdata_sections)
  = match sections_of element_tag cdata_sections with
    | [] => None
    | l => Some l
    end.
Proof. apply dict_get_group_by_tag. Qed.

(** ** The sort keys *)

(** X16. An entry of a priority list that is equal up to case to an earlier
    entry never decides: no key gets its index.  In the list of the
    program, [cfgName] stands after [cfgname], so the index 4 is never
    given and both spellings sort at the index 3. *)
Theorem later_duplicate_never_decides lower global_keywords per_tag_keywords
    t item i j q q' :
  i < j →
  resolved_keywords global_keywords per_tag_keywords t !! i = Some q →
  resolved_keywords global_keywords per_tag_keywords t !! j = Some q' →
  lower q = lower q' →
  priority_key_func lower global_keywords per_tag_keywords t item ≠ Prio j.
Proof.
  intros Hij Hi Hj Hqq' Hp. apply pkey_Prio in Hp as [(p & Hp & Hpk) Hbefore].
  apply (Hbefore i q Hij Hi). congruence.
Qed.

Lemma later_duplicate_never_decides_witness :
  priority_keywords !! 3 = Some "cfgname" ∧ priority_keywords !! 4 = Some "cfgName" ∧
  priority_key_func Str.lower priority_keywords element_priority_keywords_map None
                    ("cfgName", Leaf "x") ≠ Prio 4 ∧
  priority_key_func Str.lower priority_keywords element_priority_keywords_map None
                    ("cfgName", Leaf "x") = Prio 3.
Proof.
  split; [reflexivity|]. split; [reflexivity|]. split; [|reflexivity].
  apply (later_duplicate_never_decides Str.lower priority_keywords
           element_priority_keywords_map None ("cfgName", Leaf "x") 3 4
           "cfgname" "cfgName"); [lia|reflexivity..].
Defined.

(** X17. Of the two calls of [sorted] in [sort_dict], the first, on the
    lowered key, does not change the result: the dictionary returned is the
    one the second call alone gives. *)
Theorem second_sort_alone_decides lower global_keywords per_tag_keywords kvs t :
  sort_dict lower global_keywords per_tag_keywords (Mapping kvs) t
  = Mapping (OrderedDict
               (sorted (priority_key_func lower global_keywords per_tag_keywords t)
                       sort_key_lt
                       (map (λ kv, (kv.1, sort_dict lower global_keywords per_tag_keywords
                                                    kv.2 (Some kv.1))) kvs))).
Proof. simpl. by rewrite sorted_pkey_twice. Qed.

(** ** The command line *)

(** X18. The file a turn writes is never the file it reads: its name is
    [sorted_], the name of the input file without its extension, the
    timestamp and the extension, in the output directory or, without one,
    in the current directory, and so it is longer than the name of the
    input file.  The timestamp is made of digits; it is enough that it
    holds no slash. *)
Theorem output_file_is_not_the_input_file timestamp output input_file :
  free_of "/" timestamp = true →
  output_path timestamp output input_file ≠ input_file ∧
  ∃ base_name extension,
    base_name +:+ extension = Path.basename input_file ∧
    Path.basename (output_path timestamp output input_file)
    = "sorted_" +:+ base_name +:+ "_" +:+ timestamp +:+ extension.
Proof.
  intros Ht. split; [by apply output_path_not_input|].
  rewrite basename_output_path by done. unfold output_name.
  destruct (Path.splitext (Path.basename input_file)) as [root ext] eqn:Hs.
  exists root, ext. split; [by apply splitext_append|done].
Qed.

Lemma output_file_is_not_the_input_file_witness :
  output_path "20240131093000" (Some "out") "data/x.tar.xml"
  = "out/sorted_x.tar_20240131093000.xml" ∧
  output_path "20240131093000" (Some "out") "data/x.tar.xml" ≠ "data/x.tar.xml".
Proof.
  split; [reflexivity|].
  apply (output_file_is_not_the_input_file "20240131093000" (Some "out") "data/x.tar.xml").
  reflexivity.
Defined.

(** X19. A run that the model follows to its end takes every input file in
    its turn, in the order of the command line, whatever happened to the
    files before it, since every exception of a turn is caught: the console
    holds one report for each input file, in that order, and a report tells
    that the file is read and then either that it was sorted and saved under
    its output path, or that it failed, before the rule of dashes. *)
Theorem every_file_gets_its_turn listing timestamp output input_files s s' :
  main listing timestamp output input_files s = Some s' →
  ∃ reports, console s' = console s ++ concat reports ∧
             Forall2 (report timestamp output) input_files reports.
Proof. apply main_console. Qed.

Lemma every_file_gets_its_turn_witness :
  ∃ s', main id "20240131093000" None scenario_batch scenario_system = Some s' ∧
        console s'
        = [Reading "a.xml"; Sorted; Saved "sorted_a_20240131093000.xml"; Rule;
           Reading "b.xml"; Failed "b.xml" FileNotFoundError; Rule;
           Reading "dir/c.xml"; Failed "dir/c.xml" ValueError_CDB_backup; Rule] ∧
        ∃ reports, console s' = console scenario_system ++ concat reports ∧
                   Forall2 (report "20240131093000" None) scenario_batch reports.
Proof.
  eexists. split; [vm_compute; reflexivity|]. split; [reflexivity|].
  apply (every_file_gets_its_turn id "20240131093000" None scenario_batch scenario_system).
  vm_compute. reflexivity.
Defined.

(** X20. A run changes no file but the output files of its input files:
    every path that is not the output path of an input file holds after
    the run what it held before. *)
Theorem run_writes_output_files_only listing timestamp output input_files s s' p :
  main listing timestamp output input_files s = Some s' →
  p ∉ map (output_path timestamp output) input_files →
  files (sys_world s') !! p = files (sys_world s) !! p.
Proof. apply main_files. Qed.

Lemma run_writes_output_files_only_witness :
  ∃ s', main id "20240131093000" None scenario_batch scenario_system = Some s' ∧
        files (sys_world s') !! "a.xml" = Some scenario_order.
Proof.
  eexists. split; [vm_compute; reflexivity|].
  rewrite (run_writes_output_files_only id "20240131093000" None scenario_batch
             scenario_system _ "a.xml"); [reflexivity|vm_compute; reflexivity|].
  apply (bool_decide_unpack _). vm_compute. exact I.
Defined.

(** X21. [find_cdata_sections] returns on every text, and its catalogue
    tells only of CDATA sections the text holds: for every entry (context,
    tag, payload) the text holds a tag, white space or none, and then
    [<![CDATA[payload]]>]; [tag] is what that tag holds between its angle
    brackets, stripped, and the context ends with a colon and [tag]. *)
Theorem catalogued_sections_are_in_the_text content :
  ∃ cdata_sections,
    find_cdata_sections_in content = Ok cdata_sections ∧
    Forall (λ section, cdata_section_in content section.1.2 section.2 ∧
                       ∃ context, section.1.1 = context +:+ ":" +:+ section.1.2)
           cdata_sections.
Proof. apply find_cdata_sections_in_sections. Qed.

(** X22. [find_xml_declaration_escaped_content] returns a dictionary or
    raises [IndexError], on every text; [IndexError] comes from a tag that
    holds nothing but white space, of which [split()] gives no word.  The
    keys of the dictionary are not empty, and each is what a tag of the
    text holds between its angle brackets, stripped.  The second group of
    the pattern takes part in every match, so that [match.start(2)] is
    always a number. *)
Theorem declaration_scan_outcome content :
  (∃ escaped_xml_elements,
      find_xml_declaration_escaped_content_in content = Ok escaped_xml_elements ∧
      Forall (tag_in content) (keys escaped_xml_elements)) ∨
  find_xml_declaration_escaped_content_in content = Raise IndexError.
Proof. apply find_xml_declaration_escaped_content_in_outcome. Qed.


